(** * EHMatrix-TODO: the classification engine of [EisenhowerMatrix.tsx] / [db.ts]

    A shallow embedding of the heuristic scorer, the quadrant decider, the
    badge and reasoning builders, the borderline detector, the sanitizer and
    the refinement client, followed by the properties the specification
    states about them.

    Conventions.
    - A JavaScript string is the list of its UTF-16 code units ([N]);
      [length] is [String.prototype.length].
    - A JavaScript integer score or hint is a [Z].
    - Regular expressions are kept as syntax trees and run by a backtracking
      matcher that yields the successful end positions in the order in which
      the ECMAScript matcher tries them.
    - Platform builtins whose tables are not part of the repository
      ([String.prototype.toLowerCase], [Date] parsing, [JSON.parse],
      [String(v)] on a non-string) are the fields of the class [Platform]:
      every theorem holds whatever they compute.
    - The network is an input: how and when the awaited promises of the
      refinement call settle. *)

From Stdlib Require Import ZArith NArith QArith List Bool Lia Arith.
From Stdlib Require String Ascii.
Import ListNotations String.StringSyntax.
Delimit Scope string_scope with string.

Set Implicit Arguments.
Set Warnings "-register-all".
Open Scope Z_scope.

(* ================================================================= *)
(** ** Strings as sequences of UTF-16 code units *)

Module JsString.

Local Open Scope N_scope.

Abbreviation cu := N (only parsing).
Abbreviation jsstring := (list N) (only parsing).

(** An ASCII literal of the source, as code units. *)
Definition js (s : String.string) : jsstring :=
  map Ascii.N_of_ascii (String.list_ascii_of_string s).
Arguments js s%_string.

(** [s] between double quotes. *)
Definition quoted (s : jsstring) : jsstring := 34 :: s ++ [34].

Definition between (lo hi c : cu) : bool := (N.leb lo c && N.leb c hi)%bool.

Definition is_digit (c : cu) : bool := between 48 57 c.        (* [0-9] *)
Definition is_upper (c : cu) : bool := between 65 90 c.        (* [A-Z] *)
Definition is_lower (c : cu) : bool := between 97 122 c.       (* [a-z] *)
Definition is_alpha (c : cu) : bool := (is_upper c || is_lower c)%bool.

(** [\w]: [A-Za-z0-9_]. *)
Definition is_word (c : cu) : bool :=
  (is_alpha c || is_digit c || N.eqb c 95)%bool.

(** [\s], which is also what [String.prototype.trim] strips: WhiteSpace and
    LineTerminator of ECMA-262. *)
Definition is_space (c : cu) : bool :=
  (between 9 13 c || N.eqb c 32 || N.eqb c 160 || N.eqb c 5760
   || between 8192 8202 c || N.eqb c 8232 || N.eqb c 8233 || N.eqb c 8239
   || N.eqb c 8287 || N.eqb c 12288 || N.eqb c 65279)%bool.

(** Canonicalize of a regular expression with the [i] flag and without the
    [u] flag, on the code units that can equal an ASCII pattern character:
    a code unit below 128 is upper-cased, and a code unit from 128 on never
    canonicalizes to one below 128. *)
Definition canonicalize (c : cu) : cu :=
  if is_lower c then c - 32 else c.

Definition last_or (prev : option cu) (w : jsstring) : option cu :=
  match rev w with
  | [] => prev
  | c :: _ => Some c
  end.

Definition is_word_at (c : option cu) : bool :=
  match c with
  | Some x => is_word x
  | None => false
  end.

(** [String.prototype.slice(from, to)]. *)
Definition slice (from to : Z) (s : jsstring) : jsstring :=
  let len := Z.of_nat (length s) in
  let a := if (from <? 0)%Z then Z.max (len + from) 0 else Z.min from len in
  let b := if (to <? 0)%Z then Z.max (len + to) 0 else Z.min to len in
  firstn (Z.to_nat (b - a)) (skipn (Z.to_nat a) s).

(** [Array.prototype.join(sep)] on an array of strings. *)
Fixpoint join (sep : jsstring) (xs : list jsstring) : jsstring :=
  match xs with
  | [] => []
  | [x] => x
  | x :: rest => x ++ sep ++ join sep rest
  end.

Fixpoint drop_space (s : jsstring) : jsstring :=
  match s with
  | c :: s' => if is_space c then drop_space s' else s
  | [] => []
  end.

(** [String.prototype.trim]. *)
Definition trim (s : jsstring) : jsstring :=
  rev (drop_space (rev (drop_space s))).

Definition eqb (a b : jsstring) : bool :=
  if list_eq_dec N.eq_dec a b then true else false.

End JsString.
Import JsString.

(* ================================================================= *)
(** ** Regular expressions of the source, and the backtracking matcher *)

Module Regex.

(** The constructs the regular expressions of the source are built from.
    [Star true r] is [r*], [Star false r] is [r*?]. *)
Inductive regex : Type :=
| Empty
| Char (p : cu -> bool)
| Seq (a b : regex)
| Alt (a b : regex)
| Star (greedy : bool) (a : regex)
| WordBoundary
| InputStart
| InputEnd.

(** A position in the input: the code unit just before it, when there is
    one, and the input from the position on. *)
Definition state : Type := option cu * jsstring.

(** The end positions of [r*] ([r*?]) from [st], in the order the matcher
    tries them. An iteration that consumes nothing is rejected, as the
    RepeatMatcher of ECMA-262 does, so the length of the remaining input
    bounds the number of iterations. *)
Fixpoint star_m (f : state -> list state) (greedy : bool) (fuel : nat)
    (st : state) : list state :=
  match fuel with
  | O => [st]
  | S k =>
      let more :=
        flat_map
          (fun st' =>
             if Nat.ltb (length (snd st')) (length (snd st))
             then star_m f greedy k st' else [])
          (f st) in
      if greedy then more ++ [st] else st :: more
  end.

(** [m r st]: every end position of a match of [r] that starts at [st], in
    backtracking order; the head is the match the engine reports. *)
Fixpoint m (r : regex) (st : state) : list state :=
  match r with
  | Empty => [st]
  | Char p =>
      match snd st with
      | c :: rest => if p c then [(Some c, rest)] else []
      | [] => []
      end
  | Seq a b => flat_map (m b) (m a st)
  | Alt a b => m a st ++ m b st
  | Star greedy a => star_m (m a) greedy (length (snd st)) st
  | WordBoundary =>
      if xorb (is_word_at (fst st)) (is_word_at (hd_error (snd st)))
      then [st] else []
  | InputStart => match fst st with None => [st] | Some _ => [] end
  | InputEnd => match snd st with [] => [st] | _ :: _ => [] end
  end.

(** *** Derived forms, named after the source syntax *)

Definition never : regex := Char (fun _ => false).

(** A literal, case-sensitive. *)
Fixpoint lit (w : jsstring) : regex :=
  match w with
  | [] => Empty
  | c :: w' => Seq (Char (N.eqb c)) (lit w')
  end.

(** A literal under the [i] flag. *)
Fixpoint lit_i (w : jsstring) : regex :=
  match w with
  | [] => Empty
  | c :: w' =>
      Seq (Char (fun x => N.eqb (canonicalize x) (canonicalize c))) (lit_i w')
  end.

(** [(r1|r2|...)]. *)
Fixpoint alts (rs : list regex) : regex :=
  match rs with
  | [] => never
  | [r] => r
  | r :: rs' => Alt r (alts rs')
  end.

(** [r?] *)
Definition opt (r : regex) : regex := Alt r Empty.

(** [r{n}] *)
Fixpoint times (n : nat) (r : regex) : regex :=
  match n with
  | O => Empty
  | S k => Seq r (times k r)
  end.

(** [r{n,}] *)
Definition at_least (n : nat) (r : regex) : regex :=
  Seq (times n r) (Star true r).

(** [r+] *)
Definition plus (r : regex) : regex := at_least 1 r.

(** [r{0,n}] *)
Fixpoint upto (n : nat) (r : regex) : regex :=
  match n with
  | O => Empty
  | S k => opt (Seq r (upto k r))
  end.

(** [r{lo,hi}] *)
Definition range (lo hi : nat) (r : regex) : regex :=
  Seq (times lo r) (upto (hi - lo) r).

(** A concatenation, left to right. *)
Fixpoint seqs (rs : list regex) : regex :=
  match rs with
  | [] => Empty
  | r :: rs' => Seq r (seqs rs')
  end.

(** [RegExp.prototype.test] of a regular expression without the [g] and
    [y] flags: is there a match starting at some index. *)
Fixpoint test_from (r : regex) (prev : option cu) (s : jsstring) : bool :=
  match m r (prev, s) with
  | _ :: _ => true
  | [] =>
      match s with
      | [] => false
      | c :: s' => test_from r (Some c) s'
      end
  end.

Definition test (r : regex) (s : jsstring) : bool := test_from r None s.

(** [String.prototype.replace] with a regular expression that has the [g]
    flag and a replacement without [$]: matches are taken leftmost first,
    each one the first the matcher finds at its index; the search resumes
    at the end of the match, one code unit further after an empty match. *)
Fixpoint replace_from (fuel : nat) (r : regex) (rep : jsstring)
    (prev : option cu) (s : jsstring) : jsstring :=
  match fuel with
  | O => s
  | S k =>
      let step :=
        match s with
        | [] => []
        | c :: t => c :: replace_from k r rep (Some c) t
        end in
      match m r (prev, s) with
      | (prev', s') :: _ =>
          if Nat.ltb (length s') (length s)
          then rep ++ replace_from k r rep prev' s'
          else rep ++ step
      | [] => step
      end
  end.

Definition replace_all (r : regex) (rep : jsstring) (s : jsstring) : jsstring :=
  replace_from (S (length s)) r rep None s.

(** *** Which substrings a regular expression matches *)

(** [star_of P prev w post]: [w] splits into non-empty pieces, each in [P]
    in its context. *)
Inductive star_of (P : option cu -> jsstring -> jsstring -> Prop)
  : option cu -> jsstring -> jsstring -> Prop :=
| star_done prev post : star_of P prev [] post
| star_more prev w1 w2 post :
    w1 <> [] ->
    P prev w1 (w2 ++ post) ->
    star_of P (last_or prev w1) w2 post ->
    star_of P prev (w1 ++ w2) post.

(** [matches r prev w post]: [r] matches [w] when [prev] is the code unit
    before [w] and [post] is the input after it. *)
Fixpoint matches (r : regex) (prev : option cu) (w post : jsstring) : Prop :=
  match r with
  | Empty => w = []
  | Char p => exists c, w = [c] /\ p c = true
  | Seq a b =>
      exists w1 w2, w = w1 ++ w2
        /\ matches a prev w1 (w2 ++ post)
        /\ matches b (last_or prev w1) w2 post
  | Alt a b => matches a prev w post \/ matches b prev w post
  | Star _ a => star_of (matches a) prev w post
  | WordBoundary =>
      w = [] /\ xorb (is_word_at prev) (is_word_at (hd_error post)) = true
  | InputStart => w = [] /\ prev = None
  | InputEnd => w = [] /\ post = []
  end.

(** The matcher finds exactly the matches of [r]. *)
Definition m_correct (r : regex) : Prop :=
  forall prev s p' s',
    In (p', s') (m r (prev, s)) <->
    exists w, s = w ++ s' /\ p' = last_or prev w /\ matches r prev w s'.

End Regex.
Import Regex.

(* ================================================================= *)
(** ** The data model *)

(** [type Quadrant = 'do'|'schedule'|'delegate'|'eliminate'] *)
Inductive Quadrant : Type := Do | Schedule | Delegate | Eliminate.

Definition label (q : Quadrant) : jsstring :=
  match q with
  | Do => js "do"
  | Schedule => js "schedule"
  | Delegate => js "delegate"
  | Eliminate => js "eliminate"
  end.

(** A number that [JSON.parse] can return. *)
Inductive jsnumber : Type :=
| Finite (q : Q)
| Infinite (positive : bool).

(** A value that [JSON.parse] or [Response.json] can return. An object is
    the list of its own properties, each key once. *)
Inductive json : Type :=
| JNull
| JBool (b : bool)
| JNum (n : jsnumber)
| JStr (s : jsstring)
| JArr (items : list json)
| JObj (props : list (jsstring * json)).

(** What the platform provides and the repository does not define. *)
Class Platform : Type := {
  (** [String.prototype.toLowerCase] *)
  toLowerCase : jsstring -> jsstring;
  (** the time value of [new Date(s)], in milliseconds; [None] is NaN *)
  Date_parse : jsstring -> option Z;
  (** [JSON.parse]; [None] when it throws a SyntaxError *)
  JSON_parse : jsstring -> option json;
  (** [String(v)] for a [v] that is not a string *)
  ToString : json -> jsstring;
  (** the delay in milliseconds that [setTimeout(f, d)] waits; a timer
      keeps its delay as a 32-bit number, so this is [d] itself only from
      1 to 2^31 - 1 *)
  timer_delay : Z -> Z
}.

(** The fields of a task the engine reads. An optional field that is
    absent, [undefined] or [null] is [None]. *)
Record TaskInput : Type := {
  text : jsstring;
  dueAt : option jsstring;
  estimateMins : option Z;
  tags : option (list jsstring);
  importanceHint : option Z;
  urgencyHint : option Z
}.

(* ================================================================= *)
(** ** The regular expressions of the source *)

Module Patterns.

(** [/\b(asap|today|eod|tonight)\b/] *)
Definition urgent_words : list jsstring :=
  [js "asap"; js "today"; js "eod"; js "tonight"].
Definition re_urgent : regex :=
  seqs [WordBoundary; alts (map lit urgent_words); WordBoundary].

(** [/\b\d{1,2}:\d{2}\b/] *)
Definition re_time : regex :=
  seqs [WordBoundary; range 1 2 (Char is_digit); lit (js ":");
        times 2 (Char is_digit); WordBoundary].

(** [/\b(okr|goal|milestone)\b/i] *)
Definition okr_words : list jsstring := [js "okr"; js "goal"; js "milestone"].
Definition re_okr : regex :=
  seqs [WordBoundary; alts (map lit_i okr_words); WordBoundary].

(** [/\b(clean inbox|file receipts|tweak theme)\b/i] *)
Definition low_phrases : list jsstring :=
  [js "clean inbox"; js "file receipts"; js "tweak theme"].
Definition re_low : regex :=
  seqs [WordBoundary; alts (map lit_i low_phrases); WordBoundary].

(** [[A-Za-z0-9._%+-]] *)
Definition is_local (c : cu) : bool :=
  (is_alpha c || is_digit c || N.eqb c 46 || N.eqb c 95 || N.eqb c 37
   || N.eqb c 43 || N.eqb c 45)%bool.

(** [[A-Za-z0-9.-]] *)
Definition is_domain (c : cu) : bool :=
  (is_alpha c || is_digit c || N.eqb c 46 || N.eqb c 45)%bool.

(** [/[A-Za-z0-9._%+-]+@[A-Za-z0-9.-]+\.[A-Za-z]{2,}/g] *)
Definition re_email : regex :=
  seqs [plus (Char is_local); lit (js "@"); plus (Char is_domain);
        lit (js "."); at_least 2 (Char is_alpha)].

(** [[\d \-()]] *)
Definition is_phone_tail (c : cu) : bool :=
  (is_digit c || N.eqb c 32 || N.eqb c 45 || N.eqb c 40 || N.eqb c 41)%bool.

(** [/\b\+?\d[\d \-()]{6,}\b/g] *)
Definition re_phone : regex :=
  seqs [WordBoundary; opt (lit (js "+")); Char is_digit;
        at_least 6 (Char is_phone_tail); WordBoundary].

(** [\S] *)
Definition non_space (c : cu) : bool := negb (is_space c).

(** [/https?:\/\/\S+/g] *)
Definition re_url : regex :=
  seqs [lit (js "http"); opt (lit (js "s")); lit (js "://");
        plus (Char non_space)].

(** [[A-Z0-9]] *)
Definition is_id_char (c : cu) : bool := (is_upper c || is_digit c)%bool.

(** [/\b[A-Z0-9]{8,}\b/g] *)
Definition re_id : regex :=
  seqs [WordBoundary; at_least 8 (Char is_id_char); WordBoundary].

(** [[\s\S]] *)
Definition any_cu (c : cu) : bool := (is_space c || negb (is_space c))%bool.

(** [/^```[\s\S]*?\n|```$/g] *)
Definition re_fence : regex :=
  Alt (seqs [InputStart; lit (js "```"); Star false (Char any_cu); lit [10%N]])
      (seqs [lit (js "```"); InputEnd]).

End Patterns.
Import Patterns.

(* ================================================================= *)
(** ** Exceptions and promises: what an [await] comes to *)

(** What a [try] block can throw here. *)
Inductive thrown : Type :=
| AbortError        (* the timer aborted the request *)
| NetworkError      (* [fetch] rejected by itself *)
| NotOk             (* [new Error('ollama not ok')] *)
| BodyError         (* [r.json()] rejected: the body is not JSON *)
| TypeError         (* a property read on [null] *)
| SyntaxError.      (* [JSON.parse] *)

(** What an awaited promise comes to: a value, an exception that a [try]
    block catches, or nothing at all when the promise never settles. *)
Inductive outcome (A : Type) : Type :=
| Returns (a : A)
| Throws (e : thrown)
| Never.
Arguments Throws {A} e.
Arguments Never {A}.

Definition bind {A B : Type} (x : outcome A) (f : A -> outcome B) : outcome B :=
  match x with
  | Returns a => f a
  | Throws e => Throws e
  | Never => Never
  end.

Declare Scope outcome_scope.
Notation "x <- e1 ;; e2" := (bind e1 (fun x => e2))
  (at level 61, e1 at next level, right associativity) : outcome_scope.
Notation "e1 ;;; e2" := (bind e1 (fun _ => e2))
  (at level 61, right associativity) : outcome_scope.

(* ================================================================= *)
(** ** db.ts: heuristic scoring, quadrant, badges, borderline, reasoning *)

Section Engine.

Context {platform : Platform}.
Local Open Scope outcome_scope.

(** A string in a condition: the empty string is falsy. *)
Definition nonempty (s : jsstring) : bool :=
  match s with [] => false | _ :: _ => true end.

(** [due < now], [days <= 0], [days <= 2] on the time values. [due] is
    [None] for an Invalid Date, whose comparisons are all false. The time
    values are integers, [days] is their difference divided by 86400000;
    the comparisons of the IEEE quotient with 0 and 2 agree with those of
    the exact quotient, which is the one taken here. *)
Definition days_between (due now : Z) : Q := (due - now) # 86400000.

Definition scoreUrgency (now : Z) (t : TaskInput) : Z :=
  let u := 0 in
  let u :=
    match dueAt t with
    | Some d =>
        if nonempty d then
          match Date_parse d with
          | Some due =>
              let days := days_between due now in
              if due <? now then 5
              else if Qle_bool days 0 then 4
              else if Qle_bool days 2 then 3
              else u
          | None => u
          end
        else u
    | None => u
    end in
  let s := toLowerCase (text t) in
  let u := if test re_urgent s then u + 3 else u in
  let u := if test re_time s then u + 1 else u in
  let u := match urgencyHint t with Some h => u + h | None => u end in
  Z.max 0 (Z.min 5 u).

Definition high_value_tags : list jsstring :=
  [js "clinic"; js "patients"; js "finance"; js "safety"; js "learning-core"].

(** [(t.estimateMins||0)] *)
Definition estimate_or_0 (t : TaskInput) : Z :=
  match estimateMins t with
  | Some n => n
  | None => 0
  end.

Definition scoreImportance (t : TaskInput) : Z :=
  let i := 0 in
  let tags := map toLowerCase (match tags t with Some l => l | None => [] end) in
  let i :=
    if existsb (fun x => existsb (JsString.eqb x) high_value_tags) tags
    then i + 3 else i in
  let i := if test re_okr (text t) then i + 2 else i in
  let i := if 60 <=? estimate_or_0 t then i + 1 else i in
  let i := if test re_low (text t) then i - 2 else i in
  let i := match importanceHint t with Some h => i + h | None => i end in
  Z.max 0 (Z.min 5 i).

Definition decideQuadrant (u i : Z) : Quadrant :=
  if (3 <=? u) && (3 <=? i) then Do
  else if (u <=? 2) && (3 <=? i) then Schedule
  else if (3 <=? u) && (i <=? 2) then Delegate
  else Eliminate.

Definition computeBadges (now : Z) (t : TaskInput) : list jsstring :=
  let b := [] in
  let b :=
    match dueAt t with
    | Some d =>
        if nonempty d then
          match Date_parse d with
          | Some due =>
              let days := days_between due now in
              if due <? now then b ++ [js "overdue"]
              else if Qle_bool days 0 then b ++ [js "today"]
              else if Qle_bool days 2 then b ++ [js "due<48h"]
              else b
          | None => b
          end
        else b
    | None => b
    end in
  let s := toLowerCase (text t) in
  let b := if test re_time s then b ++ [js "time"] else b in
  let b :=
    fold_left (fun b tag => b ++ [toLowerCase tag])
              (match tags t with Some l => l | None => [] end) b in
  let b := if test re_okr (text t) then b ++ [js "okr"] else b in
  let b := if 60 <=? estimate_or_0 t then b ++ [js "deep"] else b in
  let b := if test re_low (text t) then b ++ [js "low"] else b in
  b.

Definition is_quadrant (q q' : Quadrant) : bool :=
  match q, q' with
  | Do, Do | Schedule, Schedule | Delegate, Delegate | Eliminate, Eliminate => true
  | _, _ => false
  end.

Definition isBorderline (u i : Z) (q : Quadrant) : bool :=
  let edge := (u =? 2) || (u =? 3) || (i =? 2) || (i =? 3) in
  let sumGate := (4 <=? u + i) && (u + i <=? 7) in
  let flipCandidate :=
    (is_quadrant q Do && ((u =? 3) && (i =? 3)))
    || (is_quadrant q Schedule && ((u =? 2) && (3 <=? i)))
    || (is_quadrant q Delegate && ((3 <=? u) && (i =? 2)))
    || (is_quadrant q Eliminate && ((u <=? 2) && (i <=? 2))) in
  (edge && sumGate) || flipCandidate.

(** U+2026, the horizontal ellipsis. *)
Definition ellipsis : cu := 8230%N.

Definition buildReasoning (badges : list jsstring) : jsstring :=
  let s := join (js "; ") badges in
  if (280 <? length s)%nat then slice 0 277 s ++ [ellipsis] else s.

(* ================================================================= *)
(** ** EisenhowerMatrix.tsx: sanitizer, refinement client, addTask *)

Definition sanitizeForModel (s : jsstring) : jsstring :=
  replace_all re_id (js "[id]")
    (replace_all re_url (js "[url]")
       (replace_all re_phone (js "[phone]")
          (replace_all re_email (js "[email]") s))).

(** The response of the service: [r.ok], what [r.json()] comes to ([Never]
    when the body does not end), and the time in milliseconds the body
    takes when it ends. The code reads no such time: the timer is cleared
    before the body is awaited. *)
Record response : Type := {
  ok : bool;
  json_body : outcome json;
  body_after : N
}.

(** How the network answers one request. [settles_after] is the time in
    milliseconds after which [fetch] settles by itself, when the head of
    the response is in ([None]: never), and [settles_to] what it then
    settles to. *)
Record network : Type := {
  settles_after : option N;
  settles_to : outcome response
}.

(** [await fetch(..., {signal})] raced against
    [setTimeout(() => controller.abort(), timeoutMs)]: the request that
    has not settled when the timer fires is aborted. *)
Definition await_fetch (timeoutMs : Z) (net : network) : outcome response :=
  match settles_after net with
  | Some ms =>
      if Z.of_N ms <? timer_delay timeoutMs then
        match settles_to net with
        | Never => Throws AbortError
        | settled => settled
        end
      else Throws AbortError
  | None => Throws AbortError
  end.

Fixpoint lookup (key : jsstring) (props : list (jsstring * json)) : option json :=
  match props with
  | [] => None
  | (k, v) :: rest => if JsString.eqb k key then Some v else lookup key rest
  end.

(** [v.key] for one of the keys read here, none of which is a property of
    a prototype: [undefined] is [None]. *)
Definition get (v : json) (key : jsstring) : outcome (option json) :=
  match v with
  | JNull => Throws TypeError
  | JObj props => Returns (lookup key props)
  | _ => Returns None
  end.

Definition truthy (v : option json) : bool :=
  match v with
  | None | Some JNull => false
  | Some (JBool b) => b
  | Some (JNum (Finite q)) => negb (Qeq_bool q 0)
  | Some (JNum (Infinite _)) => true
  | Some (JStr s) => nonempty s
  | Some (JArr _) | Some (JObj _) => true
  end.

(** [a || b] *)
Definition or_else (a : option json) (b : json) : json :=
  match a with
  | Some v => if truthy a then v else b
  | None => b
  end.

(** [String(v)] *)
Definition String_ (v : json) : jsstring :=
  match v with
  | JStr s => s
  | _ => ToString v
  end.

Record refinement : Type := {
  r_quadrant : json;
  r_reasoning : jsstring
}.

(** The request handed to [fetch]; the service sees nothing else. *)
Record request : Type := {
  url : jsstring;
  model : jsstring;
  prompt : jsstring;
  temperature : Q;
  stream : bool
}.

Definition request_of (text : jsstring) (heuristic : Quadrant) : request :=
  {| url := js "http://localhost:11434/api/generate";
     model := js "llama3.2";
     prompt :=
       js "You categorize 1 task into an Eisenhower quadrant. Return ONLY JSON {"
       ++ quoted (js "quadrant") ++ js ":" ++ quoted (js "...") ++ js ","
       ++ quoted (js "reasoning") ++ js ":" ++ quoted (js "...")
       ++ js "}. Definitions: do=urgent & important; schedule=not urgent & important; delegate=urgent & not important; eliminate=neither. Task: "
       ++ quoted text ++ js " Heuristic: " ++ quoted (label heuristic);
     temperature := 2 # 10;
     stream := false |}.

(** [String(resp || '').replace(/^```[\s\S]*?\n|```$/g,'').trim()] *)
Definition raw_payload (resp : option json) : jsstring :=
  trim (replace_all re_fence [] (String_ (or_else resp (JStr [])))).

(** The body of the [try] block. *)
Definition refine_try (net : request -> network) (text : jsstring)
    (heuristic : Quadrant) (timeoutMs : Z) : outcome refinement :=
  r <- await_fetch timeoutMs (net (request_of text heuristic)) ;;
  (if negb (ok r) then Throws NotOk else Returns tt) ;;;
  out <- json_body r ;;
  resp <- get out (js "response") ;;
  let raw := raw_payload resp in
  parsed <- match JSON_parse raw with
            | Some v => Returns v
            | None => Throws SyntaxError
            end ;;
  pq <- get parsed (js "quadrant") ;;
  let q := or_else pq (JStr (label heuristic)) in
  pr <- get parsed (js "reasoning") ;;
  let reason := match pr with
                | Some (JStr s) => s
                | _ => js "refined"
                end in
  Returns {| r_quadrant := q; r_reasoning := reason |}.

(** The [catch] takes what the [try] block throws; a body that never
    ends leaves the call pending. *)
Definition refineWithOllama (net : request -> network) (text : jsstring)
    (heuristic : Quadrant) (timeoutMs : Z) : outcome refinement :=
  match refine_try net text heuristic timeoutMs with
  | Returns r => Returns r
  | Throws _ =>
      Returns {| r_quadrant := JStr (label heuristic);
                 r_reasoning := js "offline fallback" |}
  | Never => Never
  end.

(** The computed fields of the record [addTask] stores. *)
Record TaskRecord : Type := {
  urgency : Z;
  importance : Z;
  quadrant : Quadrant;
  aiSuggestion : option json;
  reasoning : jsstring
}.

(** [`${reasoning}${reasoning ? ' | ' : ''}LLM: ${r.reasoning}`.slice(0,280)] *)
Definition withSuggestion (reasoning fragment : jsstring) : jsstring :=
  slice 0 280
    (reasoning ++ (if nonempty reasoning then js " | " else [])
     ++ js "LLM: " ++ fragment).

(** [addTask], up to the record it stores: [Returns None] when it returns
    early, [Never] when the refinement it awaits stays pending. *)
Definition addTask (now : Z) (enableRefine : bool) (net : request -> network)
    (text : jsstring) : outcome (option TaskRecord) :=
  if negb (nonempty (trim text)) then Returns None
  else
    let dueAt := None in
    let t := {| text := text; dueAt := dueAt; estimateMins := None;
                tags := Some []; importanceHint := None; urgencyHint := None |} in
    let urgency := scoreUrgency now t in
    let importance := scoreImportance t in
    let quadrant := decideQuadrant urgency importance in
    let badges := computeBadges now t in
    let reasoning := buildReasoning badges in
    if enableRefine && isBorderline urgency importance quadrant then
      let sani := sanitizeForModel text in
      r <- refineWithOllama net sani quadrant 3000 ;;
      Returns (Some {| urgency := urgency; importance := importance;
                       quadrant := quadrant;
                       aiSuggestion := Some (r_quadrant r);
                       reasoning := withSuggestion reasoning (r_reasoning r) |})
    else
      Returns (Some {| urgency := urgency; importance := importance;
                       quadrant := quadrant; aiSuggestion := None;
                       reasoning := reasoning |}).

End Engine.

(* ================================================================= *)
(** ** The vocabulary of the specification *)

Module Spec.

(** [clamp lo hi x]: [x] brought into [[lo, hi]]. *)
Definition clamp (lo hi x : Z) : Z :=
  if x <? lo then lo else if hi <? x then hi else x.

(** There is a word boundary between [before] and [after]: exactly one of
    the code unit that ends [before] and the one that starts [after] is a
    word character. *)
Definition word_boundary (before after : jsstring) : Prop :=
  is_word_at (last_or None before) <> is_word_at (hd_error after).

(** [w] occurs in [s] with a word boundary on each side. *)
Definition occurs_at_word_boundaries (w s : jsstring) : Prop :=
  exists pre post,
    s = pre ++ w ++ post
    /\ word_boundary pre (w ++ post)
    /\ word_boundary (pre ++ w) post.

(** [w] occurs somewhere in [s]. *)
Definition occurs (w s : jsstring) : Prop :=
  exists pre post, s = pre ++ w ++ post.

(** The lower case of an ASCII letter; other code units are unchanged. *)
Definition ascii_lower (c : cu) : cu := if is_upper c then (c + 32)%N else c.

(** A digit or a colon. *)
Definition time_cu (c : cu) : bool := (is_digit c || N.eqb c 58)%bool.

(** Equal up to the case of the ASCII letters. *)
Definition same_ignoring_case (a b : jsstring) : Prop :=
  map canonicalize a = map canonicalize b.

(** [s] contains one of [words] at word boundaries. *)
Definition mentions (words : list jsstring) (s : jsstring) : Prop :=
  exists w, In w words /\ occurs_at_word_boundaries w s.

(** The same, case-insensitively. *)
Definition mentions_ci (words : list jsstring) (s : jsstring) : Prop :=
  exists w x, In w words /\ same_ignoring_case x w
              /\ occurs_at_word_boundaries x s.

(** [s] contains one of [words], case-insensitively, anywhere. *)
Definition contains_ci (words : list jsstring) (s : jsstring) : Prop :=
  exists w x, In w words /\ same_ignoring_case x w /\ occurs x s.

(** One or two digits, a colon, two digits. *)
Definition hh_mm (w : jsstring) : Prop :=
  exists h mm,
    w = h ++ js ":" ++ mm
    /\ (length h = 1 \/ length h = 2)%nat /\ forallb is_digit h = true
    /\ length mm = 2%nat /\ forallb is_digit mm = true.

(** [s] contains an HH:MM-shaped token. *)
Definition has_time_token (s : jsstring) : Prop :=
  exists w, hh_mm w /\ occurs_at_word_boundaries w s.

(** The due date of a task as a time value, when it has one, of at least
    one code unit, that parses. *)
Definition due_of {platform : Platform} (t : TaskInput) : option Z :=
  match dueAt t with
  | Some (c :: d) => Date_parse (c :: d)
  | Some [] | None => None
  end.

(** The estimate is there and is of an hour or more. *)
Definition long_estimate (t : TaskInput) : Prop :=
  exists n, estimateMins t = Some n /\ 60 <= n.

Definition ms_per_day : Z := 86400000.

(** The three mutually exclusive due-date cases, in the order they are
    tried. *)
Inductive due_case : Type := Overdue | DueToday | DueSoon | NotDue.

Definition due_case_of (due : option Z) (now : Z) : due_case :=
  match due with
  | None => NotDue
  | Some d =>
      if d <? now then Overdue
      else if d - now <=? 0 then DueToday
      else if d - now <=? 2 * ms_per_day then DueSoon
      else NotDue
  end.

Definition due_base (c : due_case) : Z :=
  match c with
  | Overdue => 5
  | DueToday => 4
  | DueSoon => 3
  | NotDue => 0
  end.

Definition due_badge (c : due_case) : list jsstring :=
  match c with
  | Overdue => [js "overdue"]
  | DueToday => [js "today"]
  | DueSoon => [js "due<48h"]
  | NotDue => []
  end.

Definition bonus (b : bool) (n : Z) : Z := if b then n else 0.
Definition badge_if (b : bool) (name : jsstring) : list jsstring :=
  if b then [name] else [].

Definition hint_or_0 (h : option Z) : Z :=
  match h with Some n => n | None => 0 end.

Definition tags_of (t : TaskInput) : list jsstring :=
  match tags t with Some l => l | None => [] end.

(** Some tag, lower-cased, is one of the high-value tags. *)
Definition has_high_value_tag {platform : Platform} (t : TaskInput) : Prop :=
  exists tag, In tag (tags_of t) /\ In (toLowerCase tag) high_value_tags.

(** Some tag equals one of the high-value tags up to case. *)
Definition has_high_value_tag_ci (t : TaskInput) : Prop :=
  exists tag h, In tag (tags_of t) /\ In h high_value_tags
                /\ same_ignoring_case tag h.

(** The decision table of the quadrant decider, in order. *)
Definition rule_do (u i : Z) : Prop := 3 <= u /\ 3 <= i.
Definition rule_schedule (u i : Z) : Prop := u <= 2 /\ 3 <= i.
Definition rule_delegate (u i : Z) : Prop := 3 <= u /\ i <= 2.
Definition rule_eliminate (u i : Z) : Prop := u <= 2 /\ i <= 2.

Definition rule_of (q : Quadrant) : Z -> Z -> Prop :=
  match q with
  | Do => rule_do
  | Schedule => rule_schedule
  | Delegate => rule_delegate
  | Eliminate => rule_eliminate
  end.

Definition on_grid (u i : Z) : Prop := 0 <= u <= 5 /\ 0 <= i <= 5.

(** The two gates of the borderline detector. *)
Definition edge_and_sum_gate (u i : Z) : Prop :=
  (u = 2 \/ u = 3 \/ i = 2 \/ i = 3) /\ 4 <= u + i <= 7.

Definition flip_candidate_gate (u i : Z) (q : Quadrant) : Prop :=
  (q = Do /\ u = 3 /\ i = 3)
  \/ (q = Schedule /\ u = 2 /\ 3 <= i)
  \/ (q = Delegate /\ 3 <= u /\ i = 2)
  \/ (q = Eliminate /\ u <= 2 /\ i <= 2).

(** The result of the refinement call when the service is of no use. *)
Definition fallback (heuristic : Quadrant) : refinement :=
  {| r_quadrant := JStr (label heuristic);
     r_reasoning := js "offline fallback" |}.

(** The field [key] of a JSON value, when it is an object that has it:
    the value of its first property of that name. *)
Definition field (v : json) (key : jsstring) : option json :=
  match v with
  | JObj props =>
      option_map snd
        (find (fun p => if list_eq_dec N.eq_dec (fst p) key then true else false)
              props)
  | _ => None
  end.

(** The JSON values that count as false in a condition: [null], [false],
    zero and the empty string. *)
Definition is_falsy (v : json) : bool :=
  match v with
  | JNull => true
  | JBool b => negb b
  | JNum (Finite q) => Qeq_bool q 0
  | JStr [] => true
  | _ => false
  end.

(** The result of the refinement call on a parsed payload: the suggested
    quadrant when there is one, the stated reasoning when it is a string. *)
Definition refined (parsed : json) (heuristic : Quadrant) : refinement :=
  {| r_quadrant := match field parsed (js "quadrant") with
                   | Some v => if is_falsy v then JStr (label heuristic) else v
                   | None => JStr (label heuristic)
                   end;
     r_reasoning := match field parsed (js "reasoning") with
                    | Some (JStr s) => s
                    | _ => js "refined"
                    end |}.




(** The delay a browser's timer keeps: the number reduced modulo 2^32 to
    a signed 32-bit one, and 0 when that is negative. *)
Definition browser_timer_delay (d : Z) : Z :=
  Z.max 0 ((d + 2 ^ 31) mod 2 ^ 32 - 2 ^ 31).

(** The four redaction pattern classes. *)
Definition email_shaped (w : jsstring) : Prop :=
  exists local dom tld,
    w = local ++ js "@" ++ dom ++ js "." ++ tld
    /\ local <> [] /\ forallb is_local local = true
    /\ dom <> [] /\ forallb is_domain dom = true
    /\ (2 <= length tld)%nat /\ forallb is_alpha tld = true.

(** An optional "+", a leading digit, at least 6 more digits or
    separators. *)
Definition phone_shaped (w : jsstring) : Prop :=
  exists sign d tail,
    w = sign ++ d :: tail
    /\ (sign = [] \/ sign = js "+")
    /\ is_digit d = true
    /\ (6 <= length tail)%nat /\ forallb is_phone_tail tail = true.

Definition url_shaped (w : jsstring) : Prop :=
  exists scheme rest,
    w = scheme ++ js "://" ++ rest
    /\ (scheme = js "http" \/ scheme = js "https")
    /\ rest <> [] /\ forallb non_space rest = true.

Definition id_shaped (w : jsstring) : Prop :=
  (8 <= length w)%nat /\ forallb is_id_char w = true.

(** The run of [p] ends where [rest] starts: [rest] is empty or starts
    with a code unit outside [p]. *)
Definition ends_run (p : cu -> bool) (rest : jsstring) : Prop :=
  match rest with
  | [] => True
  | c :: _ => p c = false
  end.

(** [w], found between [pre] and [post], is a token: a word boundary on
    each side. *)
Definition token (pre w post : jsstring) : Prop :=
  word_boundary pre (w ++ post) /\ word_boundary (pre ++ w) post.

(** [redacts shape rep pre s out]: [out] is [s], read left to right after
    [pre], with non-overlapping occurrences of [shape] replaced by [rep];
    a code unit is kept only where no occurrence starts. [shape pre w post]
    says that [w] is an occurrence between [pre] and [post]. *)
Inductive redacts (shape : jsstring -> jsstring -> jsstring -> Prop)
    (rep : jsstring) : jsstring -> jsstring -> jsstring -> Prop :=
| redacts_end pre : redacts shape rep pre [] []
| redacts_keep pre c s out :
    (forall w post, c :: s = w ++ post -> ~ shape pre w post) ->
    redacts shape rep (pre ++ [c]) s out ->
    redacts shape rep pre (c :: s) (c :: out)
| redacts_hit pre w post out :
    w <> [] ->
    shape pre w post ->
    redacts shape rep (pre ++ w) post out ->
    redacts shape rep pre (w ++ post) (rep ++ out).

(** A platform for the worked examples, whose text is ASCII: lower-casing
    on ASCII letters; no date, no JSON text is accepted. *)
Definition ascii_platform : Platform :=
  {| toLowerCase := map ascii_lower;
     Date_parse := fun _ => None;
     JSON_parse := fun _ => None;
     ToString := fun _ => [];
     timer_delay := browser_timer_delay |}.



(** The occurrences each redaction step replaces. *)
Definition email_occurrence (pre w post : jsstring) : Prop := email_shaped w.
Definition phone_occurrence (pre w post : jsstring) : Prop :=
  phone_shaped w /\ token pre w post.
Definition url_occurrence (pre w post : jsstring) : Prop :=
  url_shaped w /\ ends_run non_space post.
Definition id_occurrence (pre w post : jsstring) : Prop :=
  id_shaped w /\ token pre w post.

(** No occurrence of any of the four pattern classes in [s]. *)
Definition pattern_free (s : jsstring) : Prop :=
  forall pre w post,
    s = pre ++ w ++ post ->
    ~ email_shaped w
    /\ ~ (phone_shaped w /\ token pre w post)
    /\ ~ url_shaped w
    /\ ~ (id_shaped w /\ token pre w post).

(** A reply of the service, and a platform whose [JSON.parse] knows that
    one text. *)
Definition sample_reply : jsstring :=
  js "{" ++ quoted (js "quadrant") ++ js ":" ++ quoted (js "do") ++ js ","
  ++ quoted (js "reasoning") ++ js ":" ++ quoted (js "due today") ++ js "}".

Definition sample_parsed : json :=
  JObj [(js "quadrant", JStr (js "do")); (js "reasoning", JStr (js "due today"))].

Definition canned_platform : Platform :=
  {| toLowerCase := map ascii_lower;
     Date_parse := fun _ => None;
     JSON_parse := fun s =>
       if JsString.eqb s sample_reply then Some sample_parsed else None;
     ToString := fun _ => [];
     timer_delay := browser_timer_delay |}.

(** A reply in a code fence, and a network whose response has its head
    after [head] milliseconds, a success status, and a body that comes to
    [body], [late] milliseconds after the head when it ends. *)
Definition fenced_reply : json :=
  JObj [(js "response",
         JStr (js "```json" ++ [10%N] ++ sample_reply ++ [10%N] ++ js "```"))].

Definition answering (head : N) (body : outcome json) (late : N)
    : request -> network :=
  fun _ => {| settles_after := Some head;
              settles_to := Returns {| ok := true; json_body := body;
                                       body_after := late |} |}.

(** A reply whose quadrant is no label but an object, and a platform
    whose [JSON.parse] knows that text. *)
Definition nested_reply : jsstring :=
  js "{" ++ quoted (js "quadrant") ++ js ":{}}".

Definition nested_parsed : json := JObj [(js "quadrant", JObj [])].

Definition nested_platform : Platform :=
  {| toLowerCase := map ascii_lower;
     Date_parse := fun _ => None;
     JSON_parse := fun s =>
       if JsString.eqb s nested_reply then Some nested_parsed else None;
     ToString := fun _ => [];
     timer_delay := browser_timer_delay |}.

(** The lower case of a code unit where it is not the code unit itself
    or another single one: the Kelvin sign U+212A becomes "k", and the
    capital I with a dot U+0130 an "i" and a combining dot. *)
Definition lower_cu (c : cu) : jsstring :=
  if N.eqb c 8490 then [107%N]
  else if N.eqb c 304 then [105%N; 775%N]
  else [ascii_lower c].

(** Two dates the worked examples use, as the time values [Date] gives
    them. *)
Definition new_year : jsstring := js "2025-01-01T00:00:00.000Z".
Definition third_of_january : jsstring := js "2025-01-03T00:00:00.000Z".

Definition calendar (s : jsstring) : option Z :=
  if JsString.eqb s new_year then Some 1735689600000
  else if JsString.eqb s third_of_january then Some 1735862400000
  else None.

(** A platform for the worked examples whose text has a Kelvin sign or
    whose task has one of the two dates. *)
Definition browser_platform : Platform :=
  {| toLowerCase := flat_map lower_cu;
     Date_parse := calendar;
     JSON_parse := fun _ => None;
     ToString := fun _ => [];
     timer_delay := browser_timer_delay |}.

End Spec.
Import Spec.

(* ================================================================= *)
(** ** EisenhowerMatrix.tsx: the board, its columns and its cards *)

From Stdlib Require Import Permutation Sorted.

Module Board.

(** [interface Task]. The fields the engine reads are kept as a
    [TaskInput] and those it computes as a [TaskRecord]; [{...t, quadrant}]
    and [{...t, doneAt}] are the updates below. *)
Record Task : Type := {
  id : jsstring;
  input : TaskInput;
  computed : TaskRecord;
  notionId : option jsstring;
  remindersId : option jsstring;
  createdAt : jsstring;
  doneAt : option jsstring
}.

(** [db.tasks]: a table keyed by [id]. *)
Definition table : Type := jsstring -> option Task.

(** [db.tasks.put(t)] *)
Definition put (db : table) (t : Task) : table :=
  fun k => if JsString.eqb k (id t) then Some t else db k.

(** The table and the [tasks] state of the component. *)
Record state : Type := {
  db : table;
  tasks : list Task
}.

(** [addTask], with the identifier and the time stamp the platform hands
    out: the record is stored and put in front of the list. Nothing is
    written when the call returns early, and nothing while the refinement
    it awaits is pending. The write to the table is taken to succeed; the
    input box, which is cleared at the end, is not part of the state. *)
Definition addTask {platform : Platform} (now : Z) (enableRefine : bool)
    (net : request -> network) (uuid iso : jsstring) (text : jsstring)
    (st : state) : state :=
  match addTask now enableRefine net text with
  | Returns None | Throws _ | Never => st
  | Returns (Some rec) =>
      let record :=
        {| id := uuid;
           input := {| text := text; dueAt := None; estimateMins := None;
                       tags := Some []; importanceHint := None;
                       urgencyHint := None |};
           computed := rec;
           notionId := None; remindersId := None;
           createdAt := iso; doneAt := None |} in
      {| db := put (db st) record; tasks := record :: tasks st |}
  end.

(** [{ ...t, quadrant }] *)
Definition with_quadrant (t : Task) (q : Quadrant) : Task :=
  {| id := id t; input := input t;
     computed := {| urgency := urgency (computed t);
                    importance := importance (computed t);
                    quadrant := q;
                    aiSuggestion := aiSuggestion (computed t);
                    reasoning := reasoning (computed t) |};
     notionId := notionId t; remindersId := remindersId t;
     createdAt := createdAt t; doneAt := doneAt t |}.

(** [{ ...t, doneAt }] *)
Definition with_doneAt (t : Task) (d : option jsstring) : Task :=
  {| id := id t; input := input t; computed := computed t;
     notionId := notionId t; remindersId := remindersId t;
     createdAt := createdAt t; doneAt := d |}.

(** [prev.map(x => x.id===id ? updated : x)] *)
Definition replace_by_id (k : jsstring) (updated : Task) (prev : list Task)
    : list Task :=
  map (fun x => if JsString.eqb (id x) k then updated else x) prev.

(** [tasks.find(x=>x.id===id)] *)
Definition find_by_id (l : list Task) (k : jsstring) : option Task :=
  find (fun x => JsString.eqb (id x) k) l.

(** The three handlers read the task in [snapshot], the [tasks] of the
    render they were created in, and update the table and the current
    list. *)
Definition setQuadrant (snapshot : list Task) (k : jsstring) (q : Quadrant)
    (st : state) : state :=
  match find_by_id snapshot k with
  | None => st
  | Some t =>
      let updated := with_quadrant t q in
      {| db := put (db st) updated;
         tasks := replace_by_id k updated (tasks st) |}
  end.

(** [t.doneAt] in a condition, [!!t.doneAt]. *)
Definition is_done (t : Task) : bool :=
  match doneAt t with
  | Some d => nonempty d
  | None => false
  end.

(** [iso] is [new Date().toISOString()]. *)
Definition toggleDone (snapshot : list Task) (k : jsstring) (iso : jsstring)
    (st : state) : state :=
  match find_by_id snapshot k with
  | None => st
  | Some t =>
      let doneAt := if is_done t then None else Some iso in
      let updated := with_doneAt t doneAt in
      {| db := put (db st) updated;
         tasks := replace_by_id k updated (tasks st) |}
  end.

Definition eliminate (snapshot : list Task) (k : jsstring) (st : state)
    : state :=
  match find_by_id snapshot k with
  | None => st
  | Some t =>
      let updated := with_quadrant t Eliminate in
      {| db := put (db st) updated;
         tasks := replace_by_id k updated (tasks st) |}
  end.

(** [Array.prototype.sort(compare)]: the sort is stable, so under a
    consistent comparator its result is the one of any stable sort; this
    one inserts each element after those that do not compare after it. *)
Fixpoint insert_by (A : Type) (compare : A -> A -> Z) (x : A) (l : list A)
    : list A :=
  match l with
  | [] => [x]
  | y :: l' =>
      if 0 <? compare y x then x :: y :: l'
      else y :: insert_by compare x l'
  end.

Definition sort (A : Type) (compare : A -> A -> Z) (l : list A) : list A :=
  fold_left (fun acc x => insert_by compare x acc) l [].

(** The comparator of the columns: importance desc, urgency desc,
    createdAt asc. [localeCompare] is [String.prototype.localeCompare]. *)
Definition by_priority (localeCompare : jsstring -> jsstring -> Z)
    (a b : Task) : Z :=
  if negb (importance (computed b) =? importance (computed a))
  then importance (computed b) - importance (computed a)
  else if negb (urgency (computed b) =? urgency (computed a))
  then urgency (computed b) - urgency (computed a)
  else localeCompare (createdAt a) (createdAt b).

(** [columns[q]]: the tasks of quadrant [q], in the order of the list,
    sorted. *)
Definition columns (localeCompare : jsstring -> jsstring -> Z)
    (l : list Task) (q : Quadrant) : list Task :=
  sort (by_priority localeCompare)
       (filter (fun t => is_quadrant (quadrant (computed t)) q) l).

(** [String.prototype.split(sep)] for a separator of one code unit. *)
Fixpoint split_on (sep : cu) (s : jsstring) : list jsstring :=
  match s with
  | [] => [[]]
  | c :: s' =>
      if N.eqb c sep then [] :: split_on sep s'
      else match split_on sep s' with
           | piece :: pieces => (c :: piece) :: pieces
           | [] => [[c]]
           end
  end.

(** [(t.reasoning||'').split(';').map(s=>s.trim()).filter(Boolean)] *)
Definition badges_of (reasoning : jsstring) : list jsstring :=
  filter nonempty (map trim (split_on 59%N reasoning)).

(** What a card shows: [badges.slice(0,6)]. *)
Definition card_badges (t : Task) : list jsstring :=
  firstn 6 (badges_of (reasoning (computed t))).

(** What React puts in the page for a child that is a JSON value: the
    text of a string or of a number, nothing for a boolean or for [null],
    the children of an array one after the other. An object is no valid
    child: the render throws, which is [None]. *)
Fixpoint child_text {platform : Platform} (v : json) : option jsstring :=
  match v with
  | JNull | JBool _ => Some []
  | JNum _ => Some (ToString v)
  | JStr s => Some s
  | JArr items =>
      (fix children (l : list json) : option jsstring :=
         match l with
         | [] => Some []
         | x :: rest =>
             match child_text x, children rest with
             | Some a, Some b => Some (a ++ b)
             | _, _ => None
             end
         end) items
  | JObj _ => None
  end.

(** What a part of a card comes to: a text, or a render that throws. *)
Inductive rendered : Type :=
| Shows (text : jsstring)
| RenderError.

(** [{t.aiSuggestion && <span>AI:{t.aiSuggestion}</span>}]: for a truthy
    suggestion the mark "AI:" followed by the suggestion as a child; a
    falsy one is the child itself. *)
Definition card_suggestion {platform : Platform} (t : Task) : rendered :=
  match aiSuggestion (computed t) with
  | None => Shows []
  | Some v =>
      match child_text v with
      | Some s =>
          if truthy (Some v) then Shows (js "AI:" ++ s) else Shows s
      | None => RenderError
      end
  end.

End Board.

(* ================================================================= *)
(** ** Vocabulary for the properties of the board *)

Module BoardTerms.

(** The task [addTask] scores: the text as typed, no due date, no tags, no
    estimate, no hints. *)
Definition typed (text : jsstring) : TaskInput :=
  {| text := text; dueAt := None; estimateMins := None; tags := Some [];
     importanceHint := None; urgencyHint := None |}.

(** A network on which no request ever settles. *)
Definition offline : request -> network :=
  fun _ => {| settles_after := None; settles_to := Never |}.

(** The code units an e-mail address is made of. *)
Definition email_cu (c : cu) : bool := (is_local c || N.eqb c 64)%bool.

(** The code units of "http://" and "https://". *)
Definition url_head_cu (c : cu) : bool := existsb (N.eqb c) (js "https:/").

(** The list holds each identifier once, and the table holds exactly the
    tasks of the list. *)
Definition synced (st : Board.state) : Prop :=
  NoDup (map Board.id (Board.tasks st))
  /\ forall k, Board.db st k = Board.find_by_id (Board.tasks st) k.

(** [a] may stand before [b] in a column: more important, or as
    important and more urgent, or equal in both and not created later. *)
Definition before (localeCompare : jsstring -> jsstring -> Z)
    (a b : Board.Task) : Prop :=
  importance (Board.computed b) < importance (Board.computed a)
  \/ (importance (Board.computed b) = importance (Board.computed a)
      /\ (urgency (Board.computed b) < urgency (Board.computed a)
          \/ (urgency (Board.computed b) = urgency (Board.computed a)
              /\ localeCompare (Board.createdAt a) (Board.createdAt b) <= 0))).

(** A badge that survives the card's splitting: not empty, no ";", no
    white space at either end. *)
Definition clean_badge (b : jsstring) : Prop :=
  b <> [] /\ ~ In 59%N b /\ trim b = b.

(** The two writes each of the three handlers ends with. *)
Definition stored (k : jsstring) (updated : Board.Task) (st : Board.state)
    : Board.state :=
  {| Board.db := Board.put (Board.db st) updated;
     Board.tasks := Board.replace_by_id k updated (Board.tasks st) |}.

(** What a handler touches: the list keeps its identifiers in their
    order, a task filed under another identifier than [k] stays where it
    is, and so does every other entry of the table. *)
Definition touches_only (k : jsstring) (st st' : Board.state) : Prop :=
  map Board.id (Board.tasks st') = map Board.id (Board.tasks st)
  /\ (forall n x, nth_error (Board.tasks st) n = Some x -> Board.id x <> k ->
                  nth_error (Board.tasks st') n = Some x)
  /\ (forall k', k' <> k -> Board.db st' k' = Board.db st k').

(** For the worked examples: a task with the given identifier, scores,
    quadrant, reasoning and creation time, and an order of the creation
    times. *)
Definition card (k : jsstring) (u i : Z) (q : Quadrant)
    (why created : jsstring) : Board.Task :=
  {| Board.id := k; Board.input := typed [];
     Board.computed := {| urgency := u; importance := i; quadrant := q;
                          aiSuggestion := None; reasoning := why |};
     Board.notionId := None; Board.remindersId := None;
     Board.createdAt := created; Board.doneAt := None |}.

Definition by_length (a b : jsstring) : Z :=
  Z.of_nat (length a) - Z.of_nat (length b).

End BoardTerms.
Import BoardTerms.

(* ================================================================= *)
(** ** Facts about strings *)

Section StringFacts.

Lemma eqb_eq (a b : jsstring) : JsString.eqb a b = true <-> a = b.
Proof.
  unfold JsString.eqb. destruct (list_eq_dec N.eq_dec a b); split; congruence.
Qed.

Lemma last_or_app prev u v : last_or prev (u ++ v) = last_or (last_or prev u) v.
Proof.
  unfold last_or. rewrite rev_app_distr.
  destruct (rev v); [ rewrite app_nil_l | ]; reflexivity.
Qed.

Lemma last_or_cons prev c w : last_or prev (c :: w) = last_or (Some c) w.
Proof. exact (last_or_app prev [c] w). Qed.

Lemma last_or_snoc prev w c : last_or prev (w ++ [c]) = Some c.
Proof. rewrite last_or_app. reflexivity. Qed.

Lemma slice_length_le from to s :
  (0 <= to)%Z -> (length (slice from to s) <= Z.to_nat to)%nat.
Proof.
  intros Hto. unfold slice.
  rewrite length_firstn.
  destruct (to <? 0)%Z eqn:E; [ apply Z.ltb_lt in E; lia | ].
  destruct (from <? 0)%Z eqn:F; [ lia | apply Z.ltb_ge in F; lia ].
Qed.

Lemma slice_prefix n s :
  (0 <= n)%Z -> slice 0 n s = firstn (Z.to_nat n) s.
Proof.
  intros Hn. unfold slice. simpl.
  destruct (n <? 0)%Z eqn:E; [ apply Z.ltb_lt in E; lia | ].
  replace (Z.min 0 (Z.of_nat (length s))) with 0%Z by lia.
  simpl. rewrite Z.sub_0_r.
  destruct (Z.le_ge_cases n (Z.of_nat (length s))).
  - rewrite Z.min_l by lia. reflexivity.
  - rewrite Z.min_r by lia. rewrite Nat2Z.id.
    rewrite !firstn_all2 by lia. reflexivity.
Qed.

End StringFacts.

(* ================================================================= *)
(** ** The matcher finds exactly the matches *)

Section MatcherFacts.

Lemma star_m_sound a g :
  m_correct a ->
  forall fuel prev s p' s',
    In (p', s') (star_m (m a) g fuel (prev, s)) ->
    exists w, s = w ++ s' /\ p' = last_or prev w
              /\ star_of (matches a) prev w s'.
Proof.
  intros Ha. induction fuel as [|k IH]; intros prev s p' s' Hin.
  - simpl in Hin. destruct Hin as [E|[]]. inversion E; subst.
    exists []. repeat split. constructor.
  - assert (Hcases :
      (p', s') = (prev, s) \/
      In (p', s') (flat_map (fun st' =>
         if Nat.ltb (length (snd st')) (length (snd (prev, s)))
         then star_m (m a) g k st' else []) (m a (prev, s)))).
    { simpl in Hin. destruct g.
      - apply in_app_iff in Hin. destruct Hin as [H|[H|[]]]; auto.
      - destruct Hin as [H|H]; auto. }
    clear Hin. destruct Hcases as [E|Hin].
    + inversion E; subst. exists []. repeat split. constructor.
    + apply in_flat_map in Hin. destruct Hin as [[p1 s1] [H1 H2]].
      simpl in H2. destruct (Nat.ltb (length s1) (length s)) eqn:Hlt; [|destruct H2].
      apply Nat.ltb_lt in Hlt.
      apply Ha in H1. destruct H1 as [w1 [Es [Ep Hm]]].
      apply IH in H2. destruct H2 as [w2 [Es1 [Ep' Hs]]].
      subst. exists (w1 ++ w2). rewrite <- app_assoc, last_or_app.
      repeat split.
      apply star_more; auto.
      intros ->. simpl in Hlt. lia.
Qed.

Lemma star_m_self f g fuel st : In st (star_m f g fuel st).
Proof.
  destruct fuel; simpl; [ auto | ].
  destruct g; [ apply in_app_iff; right | ]; simpl; auto.
Qed.

Lemma star_m_complete a g :
  m_correct a ->
  forall prev w post,
    star_of (matches a) prev w post ->
    forall fuel, (length (w ++ post) <= fuel)%nat ->
    In (last_or prev w, post) (star_m (m a) g fuel (prev, w ++ post)).
Proof.
  intros Ha prev w post Hs.
  induction Hs as [prev post | prev w1 w2 post Hne Hm Hs IH]; intros fuel Hfuel.
  - apply star_m_self.
  - destruct fuel as [|k].
    { destruct w1; [ congruence | simpl in Hfuel; lia ]. }
    assert (Hin : In (last_or prev (w1 ++ w2), post)
      (flat_map (fun st' =>
         if Nat.ltb (length (snd st')) (length (snd (prev, (w1 ++ w2) ++ post)))
         then star_m (m a) g k st' else []) (m a (prev, (w1 ++ w2) ++ post)))).
    { apply in_flat_map. exists (last_or prev w1, w2 ++ post). split.
      - apply Ha. exists w1. rewrite <- app_assoc. auto.
      - simpl.
        assert (Hlt : (length (w2 ++ post) < length ((w1 ++ w2) ++ post))%nat).
        { rewrite <- app_assoc, (length_app w1). destruct w1; [congruence|simpl; lia]. }
        apply Nat.ltb_lt in Hlt as Hb. rewrite Hb.
        rewrite last_or_app. apply IH. lia. }
    simpl. destruct g; [ apply in_app_iff; left | right ]; exact Hin.
Qed.

Theorem m_spec (r : regex) : m_correct r.
Proof.
  induction r as [ | p | a IHa b IHb | a IHa b IHb | g a IHa | | | ];
    intros prev s p' s'; simpl.
  - split.
    + intros [E|[]]. inversion E; subst. exists []. auto.
    + intros [w [-> [-> ->]]]. auto.
  - split.
    + destruct s as [|c rest]; [ intros [] | ].
      destruct (p c) eqn:Hp; [ | intros [] ].
      intros [E|[]]. inversion E; subst. exists [c]. repeat split. eauto.
    + intros [w [-> [-> [c [-> Hp]]]]]. simpl. rewrite Hp. left. reflexivity.
  - split.
    + intros Hin. apply in_flat_map in Hin. destruct Hin as [[p1 s1] [H1 H2]].
      apply IHa in H1. destruct H1 as [w1 [-> [-> Hm1]]].
      apply IHb in H2. destruct H2 as [w2 [-> [-> Hm2]]].
      exists (w1 ++ w2). rewrite <- app_assoc, last_or_app. eauto 8.
    + intros [w [-> [-> [w1 [w2 [-> [Hm1 Hm2]]]]]]].
      apply in_flat_map. exists (last_or prev w1, w2 ++ s'). split.
      * apply IHa. exists w1. rewrite <- app_assoc. auto.
      * apply IHb. exists w2. rewrite last_or_app. auto.
  - rewrite in_app_iff. split.
    + intros [H|H]; [ apply IHa in H | apply IHb in H ];
        destruct H as [w [-> [-> Hm]]]; eauto.
    + intros [w [-> [-> [Hm|Hm]]]]; [ left; apply IHa | right; apply IHb ]; eauto.
  - split.
    + apply star_m_sound. exact IHa.
    + intros [w [-> [-> Hs]]]. apply star_m_complete; auto.
  - split.
    + destruct (xorb (is_word_at prev) (is_word_at (hd_error s))) eqn:Hx; [ | intros [] ].
      intros [E|[]]. inversion E; subst. exists []. auto.
    + intros [w [-> [-> [-> Hx]]]]. simpl in *. rewrite Hx. left. reflexivity.
  - split.
    + destruct prev; [ intros [] | ].
      intros [E|[]]. inversion E; subst. exists []. auto.
    + intros [w [-> [-> [-> ->]]]]. left. reflexivity.
  - split.
    + destruct s; [ | intros [] ].
      intros [E|[]]. inversion E; subst. exists []. auto.
    + intros [w [-> [-> [-> ->]]]]. left. reflexivity.
Qed.

Lemma test_from_eq r prev s :
  test_from r prev s =
  match m r (prev, s) with
  | _ :: _ => true
  | [] => match s with [] => false | c :: s' => test_from r (Some c) s' end
  end.
Proof. destruct s; reflexivity. Qed.

Lemma m_nil_no_match r prev s :
  m r (prev, s) = [] ->
  forall w post, s = w ++ post -> ~ matches r prev w post.
Proof.
  intros Hm w post E Hmt.
  assert (H : In (last_or prev w, post) (m r (prev, s))).
  { apply m_spec. exists w. auto. }
  rewrite Hm in H. destruct H.
Qed.

Lemma m_cons_match r prev s st l :
  m r (prev, s) = st :: l ->
  exists w, s = w ++ snd st /\ fst st = last_or prev w
            /\ matches r prev w (snd st).
Proof.
  intros Hm. destruct st as [p1 s1].
  assert (H : In (p1, s1) (m r (prev, s))) by (rewrite Hm; left; reflexivity).
  apply m_spec in H. exact H.
Qed.

(** [test] answers whether some substring matches. *)
Lemma test_from_spec r : forall s prev,
  test_from r prev s = true <->
  exists pre w post, s = pre ++ w ++ post /\ matches r (last_or prev pre) w post.
Proof.
  induction s as [|c s IH]; intros prev; rewrite test_from_eq;
    destruct (m r _) as [|st l] eqn:Hm.
  - split; [ discriminate | ].
    intros [pre [w [post [E Hmt]]]].
    destruct pre; [ | discriminate E ].
    exact (False_ind _ (@m_nil_no_match r prev _ Hm w post E Hmt)).
  - split; [ intros _ | reflexivity ].
    destruct (m_cons_match _ _ _ Hm) as [w [E [_ Hmt]]].
    exists [], w, (snd st). auto.
  - rewrite IH. split.
    + intros [pre [w [post [-> Hmt]]]].
      exists (c :: pre), w, post. rewrite last_or_cons. auto.
    + intros [pre [w [post [E Hmt]]]].
      destruct pre as [|c' pre].
      { exact (False_ind _ (@m_nil_no_match r prev _ Hm w post E Hmt)). }
      simpl in E. inversion E; subst.
      exists pre, w, post. rewrite last_or_cons in Hmt. auto.
  - split; [ intros _ | reflexivity ].
    destruct (m_cons_match _ _ _ Hm) as [w [E [_ Hmt]]].
    exists [], w, (snd st). auto.
Qed.

Lemma test_spec r s :
  test r s = true <->
  exists pre w post, s = pre ++ w ++ post /\ matches r (last_or None pre) w post.
Proof. apply test_from_spec. Qed.

End MatcherFacts.

(* ================================================================= *)
(** ** What the derived forms match *)

Section Shapes.

Lemma matches_lit x : forall prev w post, matches (lit x) prev w post <-> w = x.
Proof.
  induction x as [|c x IH]; intros p w q; simpl.
  - tauto.
  - split.
    + intros [w1 [w2 [-> [[d [-> Hd]] H2]]]].
      apply IH in H2. apply N.eqb_eq in Hd. subst. reflexivity.
    + intros ->. exists [c], x. split; [ reflexivity | split ].
      * exists c. split; [ reflexivity | apply N.eqb_refl ].
      * apply IH. reflexivity.
Qed.

Lemma matches_lit_i x :
  forall prev w post, matches (lit_i x) prev w post <-> same_ignoring_case w x.
Proof.
  unfold same_ignoring_case.
  induction x as [|c x IH]; intros p w q; simpl.
  - split; [ intros ->; reflexivity | ].
    destruct w; [ reflexivity | discriminate ].
  - split.
    + intros [w1 [w2 [-> [[d [-> Hd]] H2]]]].
      apply IH in H2. apply N.eqb_eq in Hd. simpl. congruence.
    + destruct w as [|d w]; [ discriminate | ]. simpl. intros E.
      injection E as Hd Hw. exists [d], w.
      split; [ reflexivity | split ].
      * exists d. split; [ reflexivity | ]. apply N.eqb_eq. exact Hd.
      * apply IH. exact Hw.
Qed.

Lemma matches_never p w q : ~ matches never p w q.
Proof. intros [c [_ H]]. discriminate H. Qed.

Lemma matches_alts rs :
  forall prev w post,
    matches (alts rs) prev w post <-> exists r, In r rs /\ matches r prev w post.
Proof.
  induction rs as [|r rs IH]; intros p w q.
  - split.
    + intros H. elim (matches_never H).
    + intros [r [[] _]].
  - destruct rs as [|r' rs].
    + simpl. split.
      * intros H. exists r. auto.
      * intros [r0 [[<-|[]] H]]. exact H.
    + change (alts (r :: r' :: rs)) with (Alt r (alts (r' :: rs))).
      simpl matches. rewrite IH. split.
      * intros [H|[r0 [Hin H]]]; [ exists r | exists r0 ]; simpl; auto.
      * intros [r0 [[<-|Hin] H]]; [ left | right; exists r0 ]; auto.
Qed.

Lemma matches_times p n :
  forall prev w post,
    matches (times n (Char p)) prev w post <->
    length w = n /\ forallb p w = true.
Proof.
  induction n as [|n IH]; intros pv w q; simpl.
  - split.
    + intros ->. auto.
    + intros [H _]. destruct w; [ reflexivity | discriminate ].
  - split.
    + intros [w1 [w2 [-> [[d [-> Hd]] H2]]]].
      apply IH in H2. destruct H2 as [<- H2]. simpl. rewrite Hd, H2. auto.
    + destruct w as [|d w]; [ intros [H _]; discriminate | ].
      simpl. intros [Hl Hp]. apply andb_true_iff in Hp. destruct Hp as [Hd Hp].
      exists [d], w. split; [ reflexivity | split ].
      * exists d. auto.
      * apply IH. split; [ congruence | exact Hp ].
Qed.

Lemma matches_star p g :
  forall prev w post,
    matches (Star g (Char p)) prev w post <-> forallb p w = true.
Proof.
  intros pv w q. simpl. split.
  - intros H. induction H as [ | pv w1 w2 q Hne [d [-> Hd]] _ IH ].
    + reflexivity.
    + simpl. rewrite Hd. exact IH.
  - revert pv. induction w as [|d w IH]; intros pv H.
    + constructor.
    + simpl in H. apply andb_true_iff in H. destruct H as [Hd H].
      change (d :: w) with ([d] ++ w). apply star_more.
      * discriminate.
      * exists d. auto.
      * apply IH. exact H.
Qed.

Lemma matches_at_least p n :
  forall prev w post,
    matches (at_least n (Char p)) prev w post <->
    (n <= length w)%nat /\ forallb p w = true.
Proof.
  intros pv w q. unfold at_least. split.
  - intros [w1 [w2 [-> [H1 H2]]]].
    apply matches_times in H1. apply matches_star in H2.
    destruct H1 as [<- H1]. rewrite length_app, forallb_app, H1, H2.
    split; [ lia | reflexivity ].
  - intros [Hl Hp]. exists (firstn n w), (skipn n w).
    rewrite <- (firstn_skipn n w) in Hp.
    rewrite forallb_app in Hp. apply andb_true_iff in Hp. destruct Hp as [Ha Hb].
    split; [ | split ].
    + symmetry. apply firstn_skipn.
    + apply matches_times. split; [ | exact Ha ].
      rewrite length_firstn. lia.
    + apply matches_star. exact Hb.
Qed.

Lemma matches_upto p n :
  forall prev w post,
    matches (upto n (Char p)) prev w post <->
    (length w <= n)%nat /\ forallb p w = true.
Proof.
  induction n as [|n IH]; intros pv w q; simpl.
  - split.
    + intros ->. auto.
    + intros [H _]. destruct w; [ reflexivity | simpl in H; lia ].
  - split.
    + intros [[w1 [w2 [-> [[d [-> Hd]] H2]]]] | ->].
      * apply IH in H2. destruct H2 as [Hl H2]. simpl. rewrite Hd, H2.
        split; [ lia | reflexivity ].
      * simpl. split; [ lia | reflexivity ].
    + destruct w as [|d w]; [ auto | ].
      simpl. intros [Hl Hp]. apply andb_true_iff in Hp. destruct Hp as [Hd Hp].
      left. exists [d], w. split; [ reflexivity | split ].
      * exists d. auto.
      * apply IH. split; [ lia | exact Hp ].
Qed.

Lemma matches_range p lo hi :
  (lo <= hi)%nat ->
  forall prev w post,
    matches (range lo hi (Char p)) prev w post <->
    (lo <= length w <= hi)%nat /\ forallb p w = true.
Proof.
  intros Hlh pv w q. unfold range. split.
  - intros [w1 [w2 [-> [H1 H2]]]].
    apply matches_times in H1. apply matches_upto in H2.
    destruct H1 as [<- H1]. destruct H2 as [Hl H2].
    rewrite length_app, forallb_app, H1, H2. split; [ lia | reflexivity ].
  - intros [Hl Hp]. exists (firstn lo w), (skipn lo w).
    rewrite <- (firstn_skipn lo w) in Hp.
    rewrite forallb_app in Hp. apply andb_true_iff in Hp. destruct Hp as [Ha Hb].
    split; [ | split ].
    + symmetry. apply firstn_skipn.
    + apply matches_times. split; [ | exact Ha ].
      rewrite length_firstn. lia.
    + apply matches_upto. split; [ | exact Hb ].
      rewrite length_skipn. lia.
Qed.

End Shapes.

(* ================================================================= *)
(** ** The patterns of the source, in the words of the specification *)

Section PatternFacts.

Lemma xorb_true_neq (a b : bool) : xorb a b = true <-> a <> b.
Proof. destruct a, b; simpl; split; congruence. Qed.

Lemma matches_wb_then R prev w post :
  matches (Seq WordBoundary R) prev w post <->
  xorb (is_word_at prev) (is_word_at (hd_error (w ++ post))) = true
  /\ matches R prev w post.
Proof.
  simpl. split.
  - intros [w1 [w2 [-> [[-> Hx] H]]]]. auto.
  - intros [Hx H]. exists [], w. auto.
Qed.

Lemma matches_then_wb R prev w post :
  matches (Seq R (Seq WordBoundary Empty)) prev w post <->
  matches R prev w post
  /\ xorb (is_word_at (last_or prev w)) (is_word_at (hd_error post)) = true.
Proof.
  simpl. split.
  - intros [w1 [w2 [-> [H [w3 [w4 [-> [[-> Hx] ->]]]]]]]].
    simpl in *. rewrite app_nil_r. auto.
  - intros [H Hx]. exists w, []. rewrite app_nil_r. simpl.
    split; [ reflexivity | split; [ exact H | ] ].
    exists [], []. auto.
Qed.

Lemma matches_delimited R prev w post :
  matches (seqs [WordBoundary; R; WordBoundary]) prev w post <->
  xorb (is_word_at prev) (is_word_at (hd_error (w ++ post))) = true
  /\ matches R prev w post
  /\ xorb (is_word_at (last_or prev w)) (is_word_at (hd_error post)) = true.
Proof.
  change (seqs [WordBoundary; R; WordBoundary])
    with (Seq WordBoundary (Seq R (Seq WordBoundary Empty))).
  rewrite matches_wb_then, matches_then_wb. tauto.
Qed.

(** A match found by [test] between [pre] and [post] is delimited by word
    boundaries in the sense of the specification. *)
Lemma delimited_token pre w post :
  xorb (is_word_at (last_or None pre)) (is_word_at (hd_error (w ++ post))) = true
  /\ xorb (is_word_at (last_or (last_or None pre) w)) (is_word_at (hd_error post)) = true
  <-> token pre w post.
Proof.
  unfold token, word_boundary. rewrite !xorb_true_neq, last_or_app. tauto.
Qed.

Lemma test_delimited R s :
  test (seqs [WordBoundary; R; WordBoundary]) s = true <->
  exists pre w post,
    s = pre ++ w ++ post /\ matches R (last_or None pre) w post
    /\ token pre w post.
Proof.
  rewrite test_spec. split.
  - intros [pre [w [post [-> H]]]]. apply matches_delimited in H.
    exists pre, w, post. split; [ reflexivity | ].
    split; [ tauto | apply delimited_token; tauto ].
  - intros [pre [w [post [-> [H Ht]]]]]. apply delimited_token in Ht.
    exists pre, w, post. split; [ reflexivity | ].
    apply matches_delimited. tauto.
Qed.

Lemma test_mentions words s :
  test (seqs [WordBoundary; alts (map lit words); WordBoundary]) s = true <->
  mentions words s.
Proof.
  rewrite test_delimited. unfold mentions, occurs_at_word_boundaries. split.
  - intros [pre [w [post [-> [H [Hb Ha]]]]]].
    apply matches_alts in H. destruct H as [r [Hin H]].
    apply in_map_iff in Hin. destruct Hin as [x [<- Hin]].
    apply matches_lit in H. subst. exists x. split; [ exact Hin | ].
    exists pre, post. auto.
  - intros [x [Hin [pre [post [-> [Hb Ha]]]]]].
    exists pre, x, post. split; [ reflexivity | ]. split; [ | split; assumption ].
    apply matches_alts. exists (lit x). split.
    + apply in_map. exact Hin.
    + apply matches_lit. reflexivity.
Qed.

Lemma test_mentions_ci words s :
  test (seqs [WordBoundary; alts (map lit_i words); WordBoundary]) s = true <->
  mentions_ci words s.
Proof.
  rewrite test_delimited. unfold mentions_ci, occurs_at_word_boundaries. split.
  - intros [pre [w [post [-> [H [Hb Ha]]]]]].
    apply matches_alts in H. destruct H as [r [Hin H]].
    apply in_map_iff in Hin. destruct Hin as [x [<- Hin]].
    apply matches_lit_i in H. exists x, w. split; [ exact Hin | ].
    split; [ exact H | ]. exists pre, post. auto.
  - intros [x [w [Hin [Hci [pre [post [-> [Hb Ha]]]]]]]].
    exists pre, w, post. split; [ reflexivity | ]. split; [ | split; assumption ].
    apply matches_alts. exists (lit_i x). split.
    + apply in_map. exact Hin.
    + apply matches_lit_i. exact Hci.
Qed.

Lemma matches_re_time prev w post :
  matches re_time prev w post <->
  xorb (is_word_at prev) (is_word_at (hd_error (w ++ post))) = true
  /\ hh_mm w
  /\ xorb (is_word_at (last_or prev w)) (is_word_at (hd_error post)) = true.
Proof.
  unfold re_time, hh_mm.
  change (seqs [WordBoundary; range 1 2 (Char is_digit); lit (js ":");
                times 2 (Char is_digit); WordBoundary])
    with (Seq WordBoundary
            (Seq (range 1 2 (Char is_digit))
               (Seq (lit (js ":"))
                  (Seq (times 2 (Char is_digit)) (Seq WordBoundary Empty))))).
  rewrite matches_wb_then. cbn [matches]. split.
  - intros [Hb [h [w2 [-> [Hh [c [w3 [-> [Hc [mm [e [-> [Hm He]]]]]]]]]]]]].
    destruct He as [e1 [e2 [-> [[-> Hx] ->]]]].
    apply matches_range in Hh; [ | lia ]. apply matches_lit in Hc.
    apply matches_times in Hm. subst c.
    destruct Hh as [Hl Hd]. destruct Hm as [Hl2 Hd2].
    simpl in Hx. rewrite !app_nil_r in *.
    split; [ exact Hb | ]. split.
    + exists h, mm. repeat (split; try assumption). lia.
    + rewrite !last_or_app. exact Hx.
  - intros [Hb [[h [mm [-> [Hl [Hd [Hl2 Hd2]]]]]] Hx]].
    split; [ exact Hb | ].
    exists h, (js ":" ++ mm). split; [ reflexivity | ]. split.
    { apply matches_range; [ lia | ]. split; [ lia | exact Hd ]. }
    exists (js ":"), mm. split; [ reflexivity | ]. split.
    { apply matches_lit. reflexivity. }
    exists mm, []. split; [ symmetry; apply app_nil_r | ]. split.
    { apply matches_times. auto. }
    exists [], []. split; [ reflexivity | ]. split; [ | reflexivity ].
    split; [ reflexivity | ]. rewrite !last_or_app in Hx. exact Hx.
Qed.

Lemma test_re_time s : test re_time s = true <-> has_time_token s.
Proof.
  rewrite test_spec. unfold has_time_token, occurs_at_word_boundaries. split.
  - intros [pre [w [post [-> H]]]].
    apply matches_re_time in H.
    destruct H as [Hb [H Ha]].
    exists w. split; [ exact H | ]. exists pre, post.
    split; [ reflexivity | ]. apply delimited_token. auto.
  - intros [w [H [pre [post [-> Ht]]]]].
    exists pre, w, post. split; [ reflexivity | ].
    apply matches_re_time.
    apply delimited_token in Ht. destruct Ht as [Hb Ha]. auto.
Qed.

Lemma test_re_urgent s : test re_urgent s = true <-> mentions urgent_words s.
Proof. apply test_mentions. Qed.

Lemma test_re_okr s : test re_okr s = true <-> mentions_ci okr_words s.
Proof. apply test_mentions_ci. Qed.

Lemma test_re_low s : test re_low s = true <-> mentions_ci low_phrases s.
Proof. apply test_mentions_ci. Qed.

End PatternFacts.

(* ================================================================= *)
(** ** Lower-casing of ASCII text *)

Section CodeUnitFacts.
Local Open Scope N_scope.

Lemma between_spec lo hi c : between lo hi c = true <-> lo <= c <= hi.
Proof. unfold between. rewrite andb_true_iff, !N.leb_le. tauto. Qed.

Lemma is_upper_spec c : is_upper c = true <-> 65 <= c <= 90.
Proof. apply between_spec. Qed.

Lemma is_lower_spec c : is_lower c = true <-> 97 <= c <= 122.
Proof. apply between_spec. Qed.

Lemma is_digit_spec c : is_digit c = true <-> 48 <= c <= 57.
Proof. apply between_spec. Qed.

Lemma is_word_spec c :
  is_word c = true <->
  65 <= c <= 90 \/ 97 <= c <= 122 \/ 48 <= c <= 57 \/ c = 95.
Proof.
  unfold is_word, is_alpha.
  rewrite !orb_true_iff, is_upper_spec, is_lower_spec, is_digit_spec, N.eqb_eq.
  tauto.
Qed.

Lemma bool_case (b : bool) (P : Prop) :
  (b = true <-> P) -> (b = true /\ P) \/ (b = false /\ ~ P).
Proof.
  destruct b; intros [H1 H2].
  - left. auto.
  - right. split; [ reflexivity | ]. intros HP. discriminate (H2 HP).
Qed.

Lemma ascii_lower_spec c :
  (65 <= c <= 90 /\ ascii_lower c = c + 32)
  \/ (~ 65 <= c <= 90 /\ ascii_lower c = c).
Proof.
  unfold ascii_lower.
  destruct (bool_case (is_upper_spec c)) as [[-> H]|[-> H]]; auto.
Qed.

Lemma canonicalize_spec c :
  (97 <= c <= 122 /\ canonicalize c = c - 32)
  \/ (~ 97 <= c <= 122 /\ canonicalize c = c).
Proof.
  unfold canonicalize.
  destruct (bool_case (is_lower_spec c)) as [[-> H]|[-> H]]; auto.
Qed.

Lemma is_word_lower c : is_word (ascii_lower c) = is_word c.
Proof.
  apply eq_true_iff_eq. rewrite !is_word_spec.
  destruct (ascii_lower_spec c) as [[H ->]|[H ->]]; lia.
Qed.

Lemma canonicalize_lower c : canonicalize (ascii_lower c) = canonicalize c.
Proof.
  destruct (ascii_lower_spec c) as [[H E]|[H E]]; rewrite E; [ | reflexivity ].
  destruct (canonicalize_spec (c + 32)) as [[H1 ->]|[H1 ->]];
    destruct (canonicalize_spec c) as [[H2 ->]|[H2 ->]]; lia.
Qed.

Lemma lower_canonicalize c : ascii_lower (canonicalize c) = ascii_lower c.
Proof.
  destruct (canonicalize_spec c) as [[H E]|[H E]]; rewrite E; [ | reflexivity ].
  destruct (ascii_lower_spec (c - 32)) as [[H1 ->]|[H1 ->]];
    destruct (ascii_lower_spec c) as [[H2 ->]|[H2 ->]]; lia.
Qed.

End CodeUnitFacts.

Section LowerCaseFacts.

Lemma last_or_map (f : cu -> cu) prev w :
  last_or (option_map f prev) (map f w) = option_map f (last_or prev w).
Proof.
  unfold last_or. rewrite <- map_rev. destruct (rev w); reflexivity.
Qed.

Lemma hd_error_map (f : cu -> cu) (w : jsstring) :
  hd_error (map f w) = option_map f (hd_error w).
Proof. destruct w; reflexivity. Qed.

Lemma is_word_at_lower o : is_word_at (option_map ascii_lower o) = is_word_at o.
Proof. destruct o; simpl; [ apply is_word_lower | reflexivity ]. Qed.

Lemma word_boundary_lower pre post :
  word_boundary (map ascii_lower pre) (map ascii_lower post) <->
  word_boundary pre post.
Proof.
  unfold word_boundary.
  change (@None cu) with (option_map ascii_lower None).
  rewrite last_or_map, hd_error_map, !is_word_at_lower. tauto.
Qed.

Lemma occurs_lower w s :
  occurs_at_word_boundaries w (map ascii_lower s) <->
  exists x, map ascii_lower x = w /\ occurs_at_word_boundaries x s.
Proof.
  unfold occurs_at_word_boundaries. split.
  - intros [pre [post [E [Hb Ha]]]].
    apply map_eq_app in E. destruct E as [pre' [r [-> [<- E]]]].
    apply map_eq_app in E. destruct E as [x [post' [-> [<- <-]]]].
    exists x. split; [ reflexivity | ]. exists pre', post'.
    split; [ reflexivity | ].
    rewrite <- !map_app in Hb, Ha.
    apply (proj1 (word_boundary_lower _ _)) in Hb.
    apply (proj1 (word_boundary_lower _ _)) in Ha.
    split; assumption.
  - intros [x [<- [pre [post [-> [Hb Ha]]]]]].
    exists (map ascii_lower pre), (map ascii_lower post).
    rewrite !map_app. split; [ reflexivity | ].
    rewrite <- !map_app. split; apply word_boundary_lower; assumption.
Qed.

(** For a lower-case [w]: [x] lower-cases to [w] exactly when the two are
    equal up to case. *)
Lemma lower_eq_same_case x w :
  map ascii_lower w = w ->
  map ascii_lower x = w <-> same_ignoring_case x w.
Proof.
  intros Hw. unfold same_ignoring_case. split.
  - intros <-. rewrite map_map. apply map_ext. intros c.
    symmetry. apply canonicalize_lower.
  - intros E. transitivity (map ascii_lower (map canonicalize x)).
    { rewrite map_map. apply map_ext. intros c. symmetry.
      apply lower_canonicalize. }
    rewrite E, map_map. rewrite <- Hw at 2.
    apply map_ext. intros c. apply lower_canonicalize.
Qed.

(** On text that lower-casing changes in its ASCII letters only, a
    lower-case word occurs in the lower-cased text exactly when it occurs
    in the text up to case. *)
Lemma mentions_lower words s :
  (forall w, In w words -> map ascii_lower w = w) ->
  mentions words (map ascii_lower s) <-> mentions_ci words s.
Proof.
  intros Hlow. unfold mentions, mentions_ci. split.
  - intros [w [Hin H]]. apply occurs_lower in H. destruct H as [x [E H]].
    exists w, x. split; [ exact Hin | ]. split; [ | exact H ].
    apply lower_eq_same_case; auto.
  - intros [w [x [Hin [E H]]]]. exists w. split; [ exact Hin | ].
    apply occurs_lower. exists x. split; [ | exact H ].
    apply lower_eq_same_case; auto.
Qed.

Lemma time_cu_lower c : time_cu (ascii_lower c) = true -> ascii_lower c = c.
Proof.
  unfold time_cu. rewrite orb_true_iff, is_digit_spec, N.eqb_eq.
  destruct (ascii_lower_spec c) as [[H ->]|[H ->]]; lia.
Qed.

Lemma time_cu_fixed c : time_cu c = true -> ascii_lower c = c.
Proof.
  unfold time_cu. rewrite orb_true_iff, is_digit_spec, N.eqb_eq.
  destruct (ascii_lower_spec c) as [[H ->]|[H ->]]; lia.
Qed.

Lemma hh_mm_time_cu w : hh_mm w -> forallb time_cu w = true.
Proof.
  intros [h [mm [-> [_ [Hd [_ Hd2]]]]]].
  rewrite !forallb_app. apply andb_true_iff. split; [ | apply andb_true_iff; split ].
  - rewrite forallb_forall in *. intros c Hc. unfold time_cu.
    rewrite (Hd c Hc). reflexivity.
  - reflexivity.
  - rewrite forallb_forall in *. intros c Hc. unfold time_cu.
    rewrite (Hd2 c Hc). reflexivity.
Qed.

Lemma map_lower_time x :
  forallb time_cu (map ascii_lower x) = true -> map ascii_lower x = x.
Proof.
  induction x as [|c x IH]; simpl; [ reflexivity | ].
  rewrite andb_true_iff. intros [Hc Hx].
  rewrite (time_cu_lower _ Hc), (IH Hx). reflexivity.
Qed.

Lemma map_lower_time_fixed x :
  forallb time_cu x = true -> map ascii_lower x = x.
Proof.
  induction x as [|c x IH]; simpl; [ reflexivity | ].
  rewrite andb_true_iff. intros [Hc Hx].
  rewrite (time_cu_fixed _ Hc), (IH Hx). reflexivity.
Qed.

Lemma has_time_token_lower s :
  has_time_token (map ascii_lower s) <-> has_time_token s.
Proof.
  unfold has_time_token. split.
  - intros [w [Hw H]]. apply occurs_lower in H. destruct H as [x [E H]].
    assert (x = w).
    { rewrite <- E. symmetry. apply map_lower_time. rewrite E.
      apply hh_mm_time_cu. exact Hw. }
    subst x. exists w. auto.
  - intros [w [Hw H]]. exists w. split; [ exact Hw | ].
    apply occurs_lower. exists w. split; [ | exact H ].
    apply map_lower_time_fixed, hh_mm_time_cu. exact Hw.
Qed.

End LowerCaseFacts.

(* ================================================================= *)
(** ** The four redaction patterns *)

Section RedactionShapes.

Lemma length_pos (w : jsstring) : (1 <= length w)%nat <-> w <> [].
Proof. destruct w; simpl; split; try congruence; try lia. Qed.

Lemma matches_plus p prev w post :
  matches (plus (Char p)) prev w post <-> w <> [] /\ forallb p w = true.
Proof. unfold plus. rewrite matches_at_least, length_pos. tauto. Qed.

Lemma matches_re_email prev w post :
  matches re_email prev w post <-> email_shaped w.
Proof.
  unfold re_email, email_shaped.
  change (seqs [plus (Char is_local); lit (js "@"); plus (Char is_domain);
                lit (js "."); at_least 2 (Char is_alpha)])
    with (Seq (plus (Char is_local))
            (Seq (lit (js "@"))
               (Seq (plus (Char is_domain))
                  (Seq (lit (js "."))
                     (Seq (at_least 2 (Char is_alpha)) Empty))))).
  cbn [matches]. split.
  - intros [l [w1 [-> [Hl [a [w2 [-> [Ha [d [w3 [-> [Hd
            [o [w4 [-> [Ho [tld [e [-> [Ht ->]]]]]]]]]]]]]]]]]]]].
    apply matches_plus in Hl, Hd. apply matches_lit in Ha, Ho.
    apply matches_at_least in Ht. subst a o. rewrite app_nil_r.
    exists l, d, tld. destruct Hl, Hd, Ht. repeat (split; try assumption).
  - intros [l [d [tld [-> [Hl1 [Hl2 [Hd1 [Hd2 [Ht1 Ht2]]]]]]]]].
    exists l, (js "@" ++ d ++ js "." ++ tld). split; [ reflexivity | ].
    split; [ apply matches_plus; auto | ].
    exists (js "@"), (d ++ js "." ++ tld). split; [ reflexivity | ].
    split; [ apply matches_lit; reflexivity | ].
    exists d, (js "." ++ tld). split; [ reflexivity | ].
    split; [ apply matches_plus; auto | ].
    exists (js "."), tld. split; [ reflexivity | ].
    split; [ apply matches_lit; reflexivity | ].
    exists tld, []. split; [ symmetry; apply app_nil_r | ].
    split; [ apply matches_at_least; auto | reflexivity ].
Qed.

Lemma matches_re_phone prev w post :
  matches re_phone prev w post <->
  xorb (is_word_at prev) (is_word_at (hd_error (w ++ post))) = true
  /\ phone_shaped w
  /\ xorb (is_word_at (last_or prev w)) (is_word_at (hd_error post)) = true.
Proof.
  unfold re_phone, phone_shaped.
  change (seqs [WordBoundary; opt (lit (js "+")); Char is_digit;
                at_least 6 (Char is_phone_tail); WordBoundary])
    with (Seq WordBoundary
            (Seq (opt (lit (js "+")))
               (Seq (Char is_digit)
                  (Seq (at_least 6 (Char is_phone_tail))
                     (Seq WordBoundary Empty))))).
  rewrite matches_wb_then. unfold opt. cbn [matches]. split.
  - intros [Hb [sg [w1 [-> [Hs [dd [w2 [-> [[d [-> Hd]]
            [tl [w3 [-> [Ht [e1 [e2 [-> [[-> Hx] ->]]]]]]]]]]]]]]]]].
    apply matches_at_least in Ht. destruct Ht as [Ht1 Ht2].
    simpl in Hx. rewrite !app_nil_r in *.
    split; [ exact Hb | ]. split.
    + exists sg, d, tl. split; [ reflexivity | ]. split.
      * destruct Hs as [Hs | ->]; [ right; apply matches_lit in Hs; exact Hs | left; reflexivity ].
      * auto.
    + rewrite !last_or_app. exact Hx.
  - intros [Hb [[sg [d [tl [-> [Hs [Hd [Ht1 Ht2]]]]]]] Hx]].
    split; [ exact Hb | ].
    exists sg, (d :: tl). split; [ reflexivity | ]. split.
    { destruct Hs as [-> | ->]; [ right; reflexivity | left; apply matches_lit; reflexivity ]. }
    exists [d], tl. split; [ reflexivity | ]. split.
    { exists d. auto. }
    exists tl, []. split; [ symmetry; apply app_nil_r | ]. split.
    { apply matches_at_least. auto. }
    exists [], []. split; [ reflexivity | ]. split; [ | reflexivity ].
    split; [ reflexivity | ].
    change (d :: tl) with ([d] ++ tl) in Hx. rewrite !last_or_app in Hx.
    exact Hx.
Qed.

Lemma matches_re_url prev w post :
  matches re_url prev w post <-> url_shaped w.
Proof.
  unfold re_url, url_shaped.
  change (seqs [lit (js "http"); opt (lit (js "s")); lit (js "://");
                plus (Char non_space)])
    with (Seq (lit (js "http"))
            (Seq (opt (lit (js "s")))
               (Seq (lit (js "://")) (Seq (plus (Char non_space)) Empty)))).
  unfold opt. cbn [matches]. split.
  - intros [h [w1 [-> [Hh [s [w2 [-> [Hs [c [w3 [-> [Hc
            [r [e [-> [Hr ->]]]]]]]]]]]]]]]].
    apply matches_lit in Hh, Hc. apply matches_plus in Hr.
    subst h c. rewrite app_nil_r. destruct Hr as [Hr1 Hr2].
    destruct Hs as [Hs | ->].
    + apply matches_lit in Hs. subst s.
      exists (js "https"), r. split; [ reflexivity | ]. auto.
    + exists (js "http"), r. split; [ reflexivity | ]. auto.
  - intros [sc [r [-> [Hs [Hr1 Hr2]]]]].
    assert (Hrest : forall pv q, matches (Seq (lit (js "://"))
              (Seq (plus (Char non_space)) Empty)) pv (js "://" ++ r) q).
    { intros pv q. exists (js "://"), r. split; [ reflexivity | ].
      split; [ apply matches_lit; reflexivity | ].
      exists r, []. split; [ symmetry; apply app_nil_r | ].
      split; [ apply matches_plus; auto | reflexivity ]. }
    destruct Hs as [-> | ->].
    + exists (js "http"), (js "://" ++ r). split; [ reflexivity | ].
      split; [ apply matches_lit; reflexivity | ].
      exists [], (js "://" ++ r). split; [ reflexivity | ].
      split; [ right; reflexivity | apply Hrest ].
    + exists (js "http"), (js "s" ++ js "://" ++ r). split; [ reflexivity | ].
      split; [ apply matches_lit; reflexivity | ].
      exists (js "s"), (js "://" ++ r). split; [ reflexivity | ].
      split; [ left; apply matches_lit; reflexivity | apply Hrest ].
Qed.

Lemma matches_re_id prev w post :
  matches re_id prev w post <->
  xorb (is_word_at prev) (is_word_at (hd_error (w ++ post))) = true
  /\ id_shaped w
  /\ xorb (is_word_at (last_or prev w)) (is_word_at (hd_error post)) = true.
Proof.
  unfold re_id, id_shaped. rewrite matches_delimited, matches_at_least.
  tauto.
Qed.

End RedactionShapes.

(* ================================================================= *)
(** ** Global replacement *)

Section ReplaceFacts.

Variables (r : regex) (rep : jsstring).

Lemma replace_from_eq fuel prev s :
  replace_from (S fuel) r rep prev s =
  match m r (prev, s) with
  | (prev', s') :: _ =>
      if Nat.ltb (length s') (length s)
      then rep ++ replace_from fuel r rep prev' s'
      else rep ++ match s with
                  | [] => []
                  | c :: t => c :: replace_from fuel r rep (Some c) t
                  end
  | [] => match s with
          | [] => []
          | c :: t => c :: replace_from fuel r rep (Some c) t
          end
  end.
Proof. reflexivity. Qed.

(** Where nothing matches, nothing is replaced. *)
Lemma replace_from_no_match : forall fuel s prev,
  test_from r prev s = false -> replace_from fuel r rep prev s = s.
Proof.
  induction fuel as [|k IH]; intros s prev H; [ reflexivity | ].
  rewrite replace_from_eq. rewrite test_from_eq in H.
  destruct (m r _) as [|st l]; [ | discriminate H ].
  destruct s as [|c t]; [ reflexivity | ].
  rewrite (IH _ _ H). reflexivity.
Qed.

Lemma replace_all_no_match s : test r s = false -> replace_all r rep s = s.
Proof. apply replace_from_no_match. Qed.

(** The replacement is a left-to-right redaction of the occurrences of any
    [shape] that contains the matches the engine reports and is contained
    in the matches of [r]. *)
Lemma replace_from_redacts (shape : jsstring -> jsstring -> jsstring -> Prop) :
  (forall pre w post l,
      m r (last_or None pre, w ++ post) = (last_or None (pre ++ w), post) :: l ->
      w <> [] /\ shape pre w post) ->
  (forall pre w post, shape pre w post -> matches r (last_or None pre) w post) ->
  forall fuel s pre,
    (length s < fuel)%nat ->
    redacts shape rep pre s (replace_from fuel r rep (last_or None pre) s).
Proof.
  intros Hhit Hmiss. induction fuel as [|k IH]; intros s pre Hlen; [ lia | ].
  rewrite replace_from_eq.
  assert (Hkeep : m r (last_or None pre, s) = [] ->
    redacts shape rep pre s
      match s with
      | [] => []
      | c :: t => c :: replace_from k r rep (Some c) t
      end).
  { intros Hm. destruct s as [|c t]; [ constructor | ].
    apply redacts_keep.
    - intros w post E Hs. apply Hmiss in Hs.
      exact (@m_nil_no_match r _ _ Hm w post E Hs).
    - rewrite <- (last_or_snoc None pre c). apply IH. simpl in Hlen. lia. }
  destruct (m r _) as [|[p1 s1] l] eqn:Hm; [ apply Hkeep; reflexivity | ].
  destruct (m_cons_match _ _ _ Hm) as [w [E [Ep _]]]. simpl in E, Ep. subst s p1.
  rewrite <- last_or_app in Hm.
  destruct (Hhit _ _ _ _ Hm) as [Hne Hs].
  assert (Hlt : (length s1 < length (w ++ s1))%nat).
  { rewrite length_app. destruct w; [ congruence | simpl; lia ]. }
  apply Nat.ltb_lt in Hlt as Hb. rewrite Hb.
  apply redacts_hit; [ exact Hne | exact Hs | ].
  rewrite <- last_or_app. apply IH. lia.
Qed.

End ReplaceFacts.

(* ================================================================= *)
(** ** The match the engine reports first *)

Section FirstMatch.

Lemma hd_app (A : Type) (l1 l2 : list A) x :
  hd_error l1 = Some x -> hd_error (l1 ++ l2) = Some x.
Proof. destruct l1; simpl; [ discriminate | auto ]. Qed.

Lemma hd_flat_map (A B : Type) (f : A -> list B) l x y :
  hd_error l = Some x -> hd_error (f x) = Some y ->
  hd_error (flat_map f l) = Some y.
Proof.
  destruct l as [|a l]; simpl; [ discriminate | ].
  intros E H. injection E as ->. apply hd_app. exact H.
Qed.


Lemma hd_seq a b st x y :
  hd_error (m a st) = Some x -> hd_error (m b x) = Some y ->
  hd_error (m (Seq a b) st) = Some y.
Proof. apply hd_flat_map. Qed.

Lemma m_lit_app x : forall prev v,
  m (lit x) (prev, x ++ v) = [(last_or prev x, v)].
Proof.
  induction x as [|c x IH]; intros prev v; [ reflexivity | ].
  simpl. rewrite N.eqb_refl. simpl. rewrite IH, app_nil_r.
  rewrite last_or_cons. reflexivity.
Qed.

Lemma m_times_app p n : forall u prev v,
  length u = n -> forallb p u = true ->
  m (times n (Char p)) (prev, u ++ v) = [(last_or prev u, v)].
Proof.
  induction n as [|n IH]; intros u prev v Hl Hp.
  - destruct u; [ reflexivity | discriminate ].
  - destruct u as [|c u]; [ discriminate | ].
    simpl in Hp. apply andb_true_iff in Hp. destruct Hp as [Hc Hu].
    simpl. rewrite Hc. simpl. rewrite app_nil_r.
    rewrite IH by (simpl in Hl; auto; lia).
    rewrite last_or_cons. reflexivity.
Qed.

Lemma star_char_cons p prev c s :
  m (Star true (Char p)) (prev, c :: s) =
  if p c then m (Star true (Char p)) (Some c, s) ++ [(prev, c :: s)]
  else [(prev, c :: s)].
Proof.
  simpl. destruct (p c); [ | reflexivity ].
  simpl. rewrite app_nil_r.
  assert (H : Nat.ltb (length s) (S (length s)) = true)
    by (apply Nat.ltb_lt; lia).
  rewrite H. reflexivity.
Qed.

(** [p*] first reports the longest run. *)
Lemma star_char_run p : forall run prev rest,
  forallb p run = true ->
  match rest with [] => True | c :: _ => p c = false end ->
  hd_error (m (Star true (Char p)) (prev, run ++ rest))
  = Some (last_or prev run, rest).
Proof.
  induction run as [|c run IH]; intros prev rest Hp Hr.
  - destruct rest as [|c rest]; [ reflexivity | ].
    simpl app. rewrite star_char_cons, Hr. reflexivity.
  - simpl in Hp. apply andb_true_iff in Hp. destruct Hp as [Hc Hp].
    simpl app. rewrite star_char_cons, Hc. apply hd_app.
    rewrite last_or_cons. apply IH; assumption.
Qed.


Lemma m_at_least_run p n run prev rest :
  (n <= length run)%nat -> forallb p run = true ->
  match rest with [] => True | c :: _ => p c = false end ->
  hd_error (m (at_least n (Char p)) (prev, run ++ rest))
  = Some (last_or prev run, rest).
Proof.
  intros Hn Hp Hr. unfold at_least.
  rewrite <- (firstn_skipn n run) in Hp |- *.
  rewrite forallb_app in Hp. apply andb_true_iff in Hp. destruct Hp as [H1 H2].
  rewrite <- app_assoc.
  apply hd_seq with (x := (last_or prev (firstn n run), skipn n run ++ rest)).
  - rewrite m_times_app; [ reflexivity | | exact H1 ].
    rewrite length_firstn. lia.
  - rewrite last_or_app. apply star_char_run; assumption.
Qed.

End FirstMatch.

Section FirstUrl.

Lemma m_plus_run p run prev rest :
  run <> [] -> forallb p run = true ->
  match rest with [] => True | c :: _ => p c = false end ->
  hd_error (m (plus (Char p)) (prev, run ++ rest))
  = Some (last_or prev run, rest).
Proof.
  intros Hne. apply m_at_least_run. apply length_pos. exact Hne.
Qed.

Lemma hd_seq_empty a st x :
  hd_error (m a st) = Some x -> hd_error (m (Seq a Empty) st) = Some x.
Proof. intros H. apply hd_seq with (x := x); [ exact H | reflexivity ]. Qed.

(** A URL is matched up to the next white space or the end of the input. *)
Lemma first_url prev scheme run rest :
  scheme = js "http" \/ scheme = js "https" ->
  run <> [] -> forallb non_space run = true ->
  match rest with [] => True | c :: _ => non_space c = false end ->
  hd_error (m re_url (prev, scheme ++ js "://" ++ run ++ rest))
  = Some (last_or prev (scheme ++ js "://" ++ run), rest).
Proof.
  intros Hs Hne Hp Hr. unfold re_url.
  change (seqs [lit (js "http"); opt (lit (js "s")); lit (js "://");
                plus (Char non_space)])
    with (Seq (lit (js "http"))
            (Seq (opt (lit (js "s")))
               (Seq (lit (js "://")) (Seq (plus (Char non_space)) Empty)))).
  assert (Htail : forall q,
    hd_error (m (Seq (lit (js "://")) (Seq (plus (Char non_space)) Empty))
                (q, js "://" ++ run ++ rest))
    = Some (last_or (Some 47%N) run, rest)).
  { intros q. eapply hd_seq.
    - rewrite m_lit_app. reflexivity.
    - apply hd_seq_empty. apply m_plus_run; assumption. }
  rewrite !last_or_app.
  destruct Hs as [-> | ->].
  - eapply hd_seq; [ rewrite m_lit_app; reflexivity | ].
    eapply hd_seq; [ reflexivity | ]. apply Htail.
  - change (js "https") with (js "http" ++ js "s"). rewrite <- app_assoc.
    eapply hd_seq; [ rewrite m_lit_app; reflexivity | ].
    eapply hd_seq; [ reflexivity | ]. apply Htail.
Qed.

End FirstUrl.

Section FirstEmail.

Lemma m_seq a b st : m (Seq a b) st = flat_map (m b) (m a st).
Proof. reflexivity. Qed.

Lemma flat_map_cons (A B : Type) (f : A -> list B) x l :
  flat_map f (x :: l) = f x ++ flat_map f l.
Proof. reflexivity. Qed.



Lemma forallb_impl (p q : cu -> bool) l :
  (forall c, p c = true -> q c = true) ->
  forallb p l = true -> forallb q l = true.
Proof.
  intros H. rewrite !forallb_forall. auto.
Qed.


Lemma m_lit_mismatch c x prev s :
  match s with [] => True | d :: _ => d <> c end ->
  m (lit (c :: x)) (prev, s) = [].
Proof.
  destruct s as [|d s]; intros H; simpl; [ reflexivity | ].
  destruct (N.eqb_spec c d) as [E|E]; [ congruence | reflexivity ].
Qed.



End FirstEmail.

(* ================================================================= *)
(** ** The redaction steps *)

Section RedactionSteps.

Lemma span (p : cu -> bool) : forall s : jsstring,
  exists run rest, s = run ++ rest /\ forallb p run = true /\ ends_run p rest.
Proof.
  induction s as [|c s [run [rest [E [Hp Hr]]]]].
  - exists [], []. simpl. auto.
  - destruct (p c) eqn:Hc.
    + exists (c :: run), rest. simpl. rewrite Hc, Hp, E. auto.
    + exists [], (c :: s). simpl. auto.
Qed.

(** What the engine reports at a position is a match that ends where the
    reported state says. *)
Lemma reported_match r pre w post l :
  m r (last_or None pre, w ++ post) = (last_or None (pre ++ w), post) :: l ->
  matches r (last_or None pre) w post.
Proof.
  intros Hm. destruct (m_cons_match _ _ _ Hm) as [w' [E [_ H]]].
  simpl in E, H. apply app_inv_tail in E. subst w'. exact H.
Qed.

Lemma email_shaped_nonempty w : email_shaped w -> w <> [].
Proof.
  intros [l [d [t [-> [Hl _]]]]]. destruct l; [ congruence | discriminate ].
Qed.

Lemma phone_shaped_nonempty w : phone_shaped w -> w <> [].
Proof.
  intros [sg [d [t [-> _]]]]. destruct sg; discriminate.
Qed.

Lemma url_shaped_nonempty w : url_shaped w -> w <> [].
Proof.
  intros [sc [r [-> [[-> | ->] _]]]]; discriminate.
Qed.

Lemma id_shaped_nonempty w : id_shaped w -> w <> [].
Proof.
  intros [Hl _]. destruct w; [ simpl in Hl; lia | discriminate ].
Qed.

Lemma email_step s :
  redacts email_occurrence (js "[email]") [] s
          (replace_all re_email (js "[email]") s).
Proof.
  unfold replace_all. change (@None cu) with (last_or None []).
  apply replace_from_redacts; [ | | lia ].
  - intros pre w post l Hm. apply reported_match, matches_re_email in Hm.
    split; [ apply email_shaped_nonempty; exact Hm | exact Hm ].
  - intros pre w post H. apply matches_re_email. exact H.
Qed.

Lemma phone_step s :
  redacts phone_occurrence (js "[phone]") [] s
          (replace_all re_phone (js "[phone]") s).
Proof.
  unfold replace_all. change (@None cu) with (last_or None []).
  apply replace_from_redacts; [ | | lia ].
  - intros pre w post l Hm. apply reported_match, matches_re_phone in Hm.
    destruct Hm as [Hb [Hs Ha]].
    split; [ apply phone_shaped_nonempty; exact Hs | ].
    split; [ exact Hs | apply delimited_token; auto ].
  - intros pre w post [Hs Ht]. apply matches_re_phone.
    apply delimited_token in Ht. tauto.
Qed.

Lemma id_step s :
  redacts id_occurrence (js "[id]") [] s (replace_all re_id (js "[id]") s).
Proof.
  unfold replace_all. change (@None cu) with (last_or None []).
  apply replace_from_redacts; [ | | lia ].
  - intros pre w post l Hm. apply reported_match, matches_re_id in Hm.
    destruct Hm as [Hb [Hs Ha]].
    split; [ apply id_shaped_nonempty; exact Hs | ].
    split; [ exact Hs | apply delimited_token; auto ].
  - intros pre w post [Hs Ht]. apply matches_re_id.
    apply delimited_token in Ht. tauto.
Qed.

Lemma url_step s :
  redacts url_occurrence (js "[url]") [] s (replace_all re_url (js "[url]") s).
Proof.
  unfold replace_all. change (@None cu) with (last_or None []).
  apply replace_from_redacts; [ | | lia ].
  - intros pre w post l Hm.
    pose proof (reported_match _ _ _ Hm) as Hs.
    apply matches_re_url in Hs.
    split; [ apply url_shaped_nonempty; exact Hs | ].
    split; [ exact Hs | ].
    destruct Hs as [sc [r0 [-> [Hsc [Hr1 Hr2]]]]].
    destruct (span non_space post) as [run [rest [E [Hp Hr]]]].
    assert (Hhd : hd_error (m re_url (last_or None pre,
                     sc ++ js "://" ++ (r0 ++ run) ++ rest))
                  = Some (last_or (last_or None pre)
                            (sc ++ js "://" ++ r0 ++ run), rest)).
    { apply first_url; auto.
      - destruct r0; [ congruence | discriminate ].
      - rewrite forallb_app, Hr2, Hp. reflexivity. }
    replace (sc ++ js "://" ++ (r0 ++ run) ++ rest)
      with ((sc ++ js "://" ++ r0) ++ post) in Hhd
      by (rewrite E, <- !app_assoc; reflexivity).
    rewrite Hm in Hhd. simpl in Hhd. injection Hhd as _ Hpost.
    assert (run = []).
    { apply (f_equal (@length _)) in Hpost. rewrite E, length_app in Hpost.
      destruct run; [ reflexivity | simpl in Hpost; lia ]. }
    subst run. simpl in E. subst rest. exact Hr.
  - intros pre w post [Hs _]. apply matches_re_url. exact Hs.
Qed.

End RedactionSteps.

(* ================================================================= *)
(** ** Whole e-mail addresses and whole URLs *)

Section ReplacePreserves.

Variables (r : regex) (rep : jsstring).

Lemma replace_from_nil fuel prev :
  m r (prev, []) = [] -> replace_from fuel r rep prev [] = [].
Proof.
  intros H. destruct fuel; [ reflexivity | ].
  rewrite replace_from_eq. destruct (m r _); [ reflexivity | ].
  discriminate H.
Qed.

Lemma hd_error_cons (A : Type) (l : list A) x :
  hd_error l = Some x -> exists t, l = x :: t.
Proof. destruct l; simpl; [ discriminate | ]. intros E. injection E as ->. eauto. Qed.


(** A prefix in which no match starts is copied. *)
Lemma replace_from_skip : forall pfx prev rest k fuel,
  fuel = (length pfx + k)%nat ->
  (forall p1 c p2, pfx = p1 ++ c :: p2 ->
                   m r (last_or prev p1, (c :: p2) ++ rest) = []) ->
  replace_from fuel r rep prev (pfx ++ rest)
  = pfx ++ replace_from k r rep (last_or prev pfx) rest.
Proof.
  induction pfx as [|c t IH]; intros prev rest k fuel -> H.
  - reflexivity.
  - change (length (c :: t) + k)%nat with (S (length t + k)).
    change ((c :: t) ++ rest) with (c :: t ++ rest).
    rewrite replace_from_eq.
    pose proof (H [] c t eq_refl) as H0.
    change (m r (prev, c :: t ++ rest) = []) in H0.
    rewrite H0, last_or_cons. cbn [app]. f_equal.
    apply IH; [ reflexivity | ].
    intros p1 d p2 E. rewrite <- (last_or_cons prev c p1).
    apply (H (c :: p1) d p2). rewrite E. reflexivity.
Qed.



End ReplacePreserves.

Section Blocked.




End Blocked.

Section WholeTokens.







End WholeTokens.

(* ================================================================= *)
(** ** Quadrant decider and borderline detector *)

Section Decider.

Lemma decideQuadrant_rule u i : rule_of (decideQuadrant u i) u i.
Proof.
  unfold decideQuadrant.
  destruct (3 <=? u) eqn:Hu; destruct (3 <=? i) eqn:Hi;
    destruct (u <=? 2) eqn:Hu2; destruct (i <=? 2) eqn:Hi2; simpl;
    unfold rule_do, rule_schedule, rule_delegate, rule_eliminate; lia.
Qed.

Lemma rules_exclusive u i q q' : rule_of q u i -> rule_of q' u i -> q = q'.
Proof.
  destruct q, q'; simpl;
    unfold rule_do, rule_schedule, rule_delegate, rule_eliminate;
    intros; try reflexivity; lia.
Qed.

(** C1. On the 6x6 grid [decideQuadrant] returns the label of the one rule
    of the decision table that holds: [q] is returned exactly when rule
    [q] holds, which is also when rule [q] is the first of the table, read
    in order, that holds; some rule holds at every cell (no gap), no two
    rules hold at the same cell (no overlap); and (3,2) is a "delegate". *)
Theorem decideQuadrant_partitions_grid (u i : Z) :
  on_grid u i ->
  (forall q, decideQuadrant u i = q <-> rule_of q u i)
  /\ (decideQuadrant u i = Schedule <-> ~ rule_do u i /\ rule_schedule u i)
  /\ (decideQuadrant u i = Delegate <->
      ~ rule_do u i /\ ~ rule_schedule u i /\ rule_delegate u i)
  /\ (decideQuadrant u i = Eliminate <->
      ~ rule_do u i /\ ~ rule_schedule u i /\ ~ rule_delegate u i)
  /\ (exists q, rule_of q u i)
  /\ (forall q q', rule_of q u i -> rule_of q' u i -> q = q')
  /\ decideQuadrant 3 2 = Delegate.
Proof.
  intros _.
  assert (Hq : forall q, decideQuadrant u i = q <-> rule_of q u i).
  { intros q. split.
    - intros <-. apply decideQuadrant_rule.
    - intros H. apply (@rules_exclusive u i); [ apply decideQuadrant_rule | exact H ]. }
  split; [ exact Hq | ].
  split; [ rewrite (Hq Schedule); simpl;
           unfold rule_do, rule_schedule; lia | ].
  split; [ rewrite (Hq Delegate); simpl;
           unfold rule_do, rule_schedule, rule_delegate; lia | ].
  split; [ rewrite (Hq Eliminate); simpl;
           unfold rule_do, rule_schedule, rule_delegate, rule_eliminate; lia | ].
  split; [ | split ].
  - exists (decideQuadrant u i). apply decideQuadrant_rule.
  - intros q q'. apply rules_exclusive.
  - reflexivity.
Qed.

Lemma decideQuadrant_partitions_grid_witness :
  on_grid 3 2 /\ (decideQuadrant 3 2 = Delegate <-> rule_of Delegate 3 2).
Proof.
  assert (G : on_grid 3 2) by (unfold on_grid; lia).
  split; [ exact G | ].
  exact (proj1 (decideQuadrant_partitions_grid G) Delegate).
Defined.

Lemma is_quadrant_eq q q' : is_quadrant q q' = true <-> q = q'.
Proof. destruct q, q'; simpl; split; congruence. Qed.

Lemma isBorderline_gates u i q :
  isBorderline u i q = true <->
  edge_and_sum_gate u i \/ flip_candidate_gate u i q.
Proof.
  unfold isBorderline, edge_and_sum_gate, flip_candidate_gate.
  repeat first [ rewrite orb_true_iff | rewrite andb_true_iff ].
  rewrite !is_quadrant_eq, !Z.eqb_eq, !Z.leb_le. tauto.
Qed.

(** C4. [isBorderline] is true exactly when the edge-and-sum gate or the
    flip-candidate gate holds; in particular (2,3) as "schedule" is
    borderline by the edge-and-sum gate. *)
Theorem isBorderline_iff_gates (u i : Z) (q : Quadrant) :
  (isBorderline u i q = true <->
   edge_and_sum_gate u i \/ flip_candidate_gate u i q)
  /\ (isBorderline u i q = false <->
      ~ edge_and_sum_gate u i /\ ~ flip_candidate_gate u i q)
  /\ edge_and_sum_gate 2 3 /\ isBorderline 2 3 Schedule = true.
Proof.
  split; [ apply isBorderline_gates | ]. split.
  - rewrite <- not_true_iff_false, isBorderline_gates. tauto.
  - split; [ unfold edge_and_sum_gate; lia | reflexivity ].
Qed.

End Decider.

(* ================================================================= *)
(** ** Scores, badges and reasoning *)

Section Scoring.

Context {platform : Platform}.

Lemma clamp_max_min x : Z.max 0 (Z.min 5 x) = clamp 0 5 x.
Proof.
  unfold clamp. destruct (x <? 0) eqn:A; destruct (5 <? x) eqn:B;
    try apply Z.ltb_lt in A; try apply Z.ltb_ge in A;
    try apply Z.ltb_lt in B; try apply Z.ltb_ge in B; lia.
Qed.

Lemma clamp_range x : 0 <= clamp 0 5 x <= 5.
Proof. rewrite <- clamp_max_min. lia. Qed.

Lemma days_le_0 due now : Qle_bool (days_between due now) 0 = (due - now <=? 0).
Proof.
  unfold days_between, Qle_bool. simpl. rewrite Z.mul_1_r. reflexivity.
Qed.

Lemma days_le_2 due now :
  Qle_bool (days_between due now) 2 = (due - now <=? 2 * ms_per_day).
Proof.
  unfold days_between, Qle_bool. simpl. rewrite Z.mul_1_r. reflexivity.
Qed.

(** The due-date branch of [scoreUrgency] and of [computeBadges] takes the
    case the specification names. *)
Lemma due_branch (A : Type) (now : Z) (t : TaskInput) (a5 a4 a3 a0 : A) :
  match dueAt t with
  | Some d =>
      if nonempty d then
        match Date_parse d with
        | Some due =>
            if due <? now then a5
            else if Qle_bool (days_between due now) 0 then a4
            else if Qle_bool (days_between due now) 2 then a3
            else a0
        | None => a0
        end
      else a0
  | None => a0
  end =
  match due_case_of (due_of t) now with
  | Overdue => a5
  | DueToday => a4
  | DueSoon => a3
  | NotDue => a0
  end.
Proof.
  unfold due_of, due_case_of.
  destruct (dueAt t) as [[|c d]|]; [ reflexivity | | reflexivity ].
  simpl nonempty. cbv iota.
  destruct (Date_parse (c :: d)) as [due|]; [ | reflexivity ].
  rewrite days_le_0, days_le_2.
  destruct (due <? now); [ reflexivity | ].
  destruct (due - now <=? 0); [ reflexivity | ].
  destruct (due - now <=? 2 * ms_per_day); reflexivity.
Qed.

Lemma scoreUrgency_formula now t :
  scoreUrgency now t =
  clamp 0 5 (due_base (due_case_of (due_of t) now)
             + bonus (test re_urgent (toLowerCase (text t))) 3
             + bonus (test re_time (toLowerCase (text t))) 1
             + hint_or_0 (urgencyHint t)).
Proof.
  unfold scoreUrgency. cbv zeta. rewrite clamp_max_min.
  rewrite (due_branch now t 5 4 3 0). f_equal.
  destruct (due_case_of (due_of t) now);
    destruct (test re_urgent _); destruct (test re_time _);
    destruct (urgencyHint t); simpl; lia.
Qed.

End Scoring.

Section Urgency.

Context {platform : Platform}.

(** C2, as the code has it. [scoreUrgency] is the due-date base (5
    strictly past, else 4 when the delta is at most 0, else 3 when it is
    at most 2 days, else 0, also without a due date), plus 3 when the
    lower-cased text contains one of "asap", "today", "eod", "tonight" at
    word boundaries, plus 1 when the lower-cased text contains an HH:MM
    token, plus the hint when there is one, clamped to [0,5]; the result
    is in [0,5] whatever the hint (1000 and -1000 included). Where
    lower-casing only changes ASCII letters, the two text conditions read
    on the text itself: a case-insensitive mention, and an HH:MM token of
    the text. *)
Theorem scoreUrgency_spec (now : Z) (t : TaskInput) :
  exists urgent_word time_token : bool,
    (urgent_word = true <-> mentions urgent_words (toLowerCase (text t)))
    /\ (time_token = true <-> has_time_token (toLowerCase (text t)))
    /\ (toLowerCase (text t) = map ascii_lower (text t) ->
        (urgent_word = true <-> mentions_ci urgent_words (text t))
        /\ (time_token = true <-> has_time_token (text t)))
    /\ scoreUrgency now t =
       clamp 0 5 (due_base (due_case_of (due_of t) now)
                  + bonus urgent_word 3 + bonus time_token 1
                  + hint_or_0 (urgencyHint t))
    /\ 0 <= scoreUrgency now t <= 5
    /\ (urgencyHint t = Some 1000 \/ urgencyHint t = Some (-1000) ->
        0 <= scoreUrgency now t <= 5).
Proof.
  exists (test re_urgent (toLowerCase (text t))),
         (test re_time (toLowerCase (text t))).
  split; [ apply test_re_urgent | ].
  split; [ apply test_re_time | ].
  split.
  { intros E. rewrite test_re_urgent, test_re_time, E. split.
    - apply mentions_lower. intros w Hw.
      repeat (destruct Hw as [<-|Hw]; [ reflexivity | ]). destruct Hw.
    - apply has_time_token_lower. }
  split; [ apply scoreUrgency_formula | ].
  split; [ rewrite scoreUrgency_formula; apply clamp_range | ].
  intros. rewrite scoreUrgency_formula. apply clamp_range.
Qed.

End Urgency.

(** Due on the third of January, seen on the second, with a time of day
    in the text: 3 + 1 = 4. *)
Lemma scoreUrgency_spec_witness :
  scoreUrgency (platform := browser_platform) 1735776000000
    {| text := js "Call Bob at 9:30"; dueAt := Some third_of_january;
       estimateMins := None; tags := None; importanceHint := None;
       urgencyHint := None |} = 4.
Proof.
  destruct (scoreUrgency_spec (platform := browser_platform) 1735776000000
    {| text := js "Call Bob at 9:30"; dueAt := Some third_of_january;
       estimateMins := None; tags := None; importanceHint := None;
       urgencyHint := None |})
    as [kw [tm [Hkw [Htm [_ [E _]]]]]].
  rewrite E.
  assert (K : kw = false).
  { destruct kw; [ | reflexivity ].
    assert (H : test re_urgent (@toLowerCase browser_platform
                                  (js "Call Bob at 9:30")) = true).
    { apply test_re_urgent. apply Hkw. reflexivity. }
    vm_compute in H. discriminate H. }
  assert (T : tm = true).
  { apply Htm. apply test_re_time. vm_compute. reflexivity. }
  rewrite K, T. vm_compute. reflexivity.
Defined.

(** The claim's reading of the two text signals: on the text itself. The
    Kelvin sign is no word character, so "9:30" stands at word boundaries
    in the text; lower-casing turns the sign into "k", and in "9:30k" the
    token no longer ends at a word boundary. The code gives 0 and the
    stated formula 1. *)
Lemma scoreUrgency_text_counterexample :
  let t := {| text := js "9:30" ++ [8490%N]; dueAt := None;
              estimateMins := None; tags := None;
              importanceHint := None; urgencyHint := None |} in
  @toLowerCase browser_platform (text t) = js "9:30k"
  /\ scoreUrgency (platform := browser_platform) 0 t = 0
  /\ has_time_token (text t)
  /\ ~ (exists urgent_word time_token : bool,
          (urgent_word = true <-> mentions_ci urgent_words (text t))
          /\ (time_token = true <-> has_time_token (text t))
          /\ scoreUrgency (platform := browser_platform) 0 t =
             clamp 0 5 (due_base (due_case_of
                                    (due_of (platform := browser_platform) t) 0)
                        + bonus urgent_word 3 + bonus time_token 1
                        + hint_or_0 (urgencyHint t))).
Proof.
  cbv zeta.
  assert (C : has_time_token (js "9:30" ++ [8490%N])).
  { exists (js "9:30"). split.
    - exists (js "9"), (js "30"). repeat split; auto.
    - exists [], [8490%N]. split; [ reflexivity | ].
      split; unfold word_boundary; simpl; discriminate. }
  split; [ reflexivity | ].
  split; [ vm_compute; reflexivity | ]. split; [ exact C | ].
  intros [a [b [_ [Hb E]]]].
  assert (b = true) by (apply Hb; exact C). subst b.
  destruct a; vm_compute in E; discriminate E.
Qed.


Section Importance.

Context {platform : Platform}.

Lemma high_value_tag_test t :
  existsb (fun x => existsb (JsString.eqb x) high_value_tags)
          (map toLowerCase (tags_of t)) = true <->
  has_high_value_tag t.
Proof.
  unfold has_high_value_tag. rewrite existsb_exists. split.
  - intros [x [Hx H]]. apply in_map_iff in Hx. destruct Hx as [tag [<- Hin]].
    apply existsb_exists in H. destruct H as [y [Hy E]].
    apply eqb_eq in E. subst y. exists tag. auto.
  - intros [tag [Hin H]]. exists (toLowerCase tag). split.
    + apply in_map. exact Hin.
    + apply existsb_exists. exists (toLowerCase tag). split; [ exact H | ].
      apply eqb_eq. reflexivity.
Qed.

Lemma high_value_tag_ci t :
  (forall tag, In tag (tags_of t) -> toLowerCase tag = map ascii_lower tag) ->
  has_high_value_tag t <-> has_high_value_tag_ci t.
Proof.
  intros Hascii. unfold has_high_value_tag, has_high_value_tag_ci.
  assert (Hlow : forall h, In h high_value_tags -> map ascii_lower h = h).
  { intros h Hh. repeat (destruct Hh as [<-|Hh]; [ reflexivity | ]).
    destruct Hh. }
  split.
  - intros [tag [Hin H]]. exists tag, (toLowerCase tag).
    split; [ exact Hin | ]. split; [ exact H | ].
    apply lower_eq_same_case; [ apply Hlow; exact H | ].
    symmetry. apply Hascii. exact Hin.
  - intros [tag [h [Hin [Hh E]]]]. exists tag. split; [ exact Hin | ].
    apply lower_eq_same_case in E; [ | apply Hlow; exact Hh ].
    rewrite (Hascii tag Hin), E. exact Hh.
Qed.

Lemma scoreImportance_formula t :
  scoreImportance t =
  clamp 0 5 (bonus (existsb (fun x => existsb (JsString.eqb x) high_value_tags)
                            (map toLowerCase (tags_of t))) 3
             + bonus (test re_okr (text t)) 2
             + bonus (60 <=? estimate_or_0 t) 1
             - bonus (test re_low (text t)) 2
             + hint_or_0 (importanceHint t)).
Proof.
  unfold scoreImportance, tags_of. cbv zeta. rewrite clamp_max_min. f_equal.
  destruct (existsb _ _); destruct (test re_okr _);
    destruct (60 <=? estimate_or_0 t); destruct (test re_low _);
    destruct (importanceHint t); simpl; lia.
Qed.

(** C3, as the code has it. [scoreImportance] is 0, plus 3 when some tag,
    lower-cased, is one of the five high-value tags (equal to one of them
    up to case, where lower-casing only changes ASCII letters), plus 2 when
    the text mentions "okr", "goal" or "milestone" case-insensitively at
    word boundaries, plus 1 when the estimate is at least 60 minutes, minus
    2 when the text mentions one of the three low-value phrases
    case-insensitively at word boundaries, plus the hint when there is one,
    clamped to [0,5], so never negative; tags ["finance"] with an estimate
    of 90 and a text with none of the words give 4. *)
Theorem scoreImportance_spec (t : TaskInput) :
  exists high_tag okr deep low : bool,
    (high_tag = true <-> has_high_value_tag t)
    /\ ((forall tag, In tag (tags_of t) ->
                     toLowerCase tag = map ascii_lower tag) ->
        (high_tag = true <-> has_high_value_tag_ci t))
    /\ (okr = true <-> mentions_ci okr_words (text t))
    /\ (deep = true <-> 60 <= estimate_or_0 t)
    /\ (low = true <-> mentions_ci low_phrases (text t))
    /\ scoreImportance t =
       clamp 0 5 (0 + bonus high_tag 3 + bonus okr 2 + bonus deep 1
                  - bonus low 2 + hint_or_0 (importanceHint t))
    /\ 0 <= scoreImportance t <= 5
    /\ (tags t = Some [js "finance"] -> estimateMins t = Some 90 ->
        importanceHint t = None ->
        toLowerCase (js "finance") = js "finance" ->
        ~ mentions_ci okr_words (text t) ->
        ~ mentions_ci low_phrases (text t) ->
        scoreImportance t = 4).
Proof.
  exists (existsb (fun x => existsb (JsString.eqb x) high_value_tags)
                  (map toLowerCase (tags_of t))),
         (test re_okr (text t)), (60 <=? estimate_or_0 t),
         (test re_low (text t)).
  split; [ apply high_value_tag_test | ].
  split; [ intros Hascii; rewrite high_value_tag_test;
           apply high_value_tag_ci; exact Hascii | ].
  split; [ apply test_re_okr | ].
  split; [ apply Z.leb_le | ].
  split; [ apply test_re_low | ].
  split; [ rewrite scoreImportance_formula; f_equal | ].
  split; [ rewrite scoreImportance_formula; apply clamp_range | ].
  intros Htags Hest Hhint Hlow Hokr Hlo.
  rewrite scoreImportance_formula.
  unfold tags_of, estimate_or_0. rewrite Htags, Hest, Hhint.
  simpl map. rewrite Hlow.
  rewrite <- test_re_okr in Hokr. rewrite <- test_re_low in Hlo.
  apply not_true_is_false in Hokr, Hlo. rewrite Hokr, Hlo. reflexivity.
Qed.

End Importance.

(** tags ["finance"], estimate 90, an empty text: 3 + 1 = 4. *)
Lemma scoreImportance_spec_witness :
  scoreImportance (platform := ascii_platform)
    {| text := []; dueAt := None; estimateMins := Some 90;
       tags := Some [js "finance"]; importanceHint := None;
       urgencyHint := None |} = 4.
Proof.
  destruct (scoreImportance_spec (platform := ascii_platform)
    {| text := []; dueAt := None; estimateMins := Some 90;
       tags := Some [js "finance"]; importanceHint := None;
       urgencyHint := None |})
    as [a [b [c [d [_ [_ [_ [_ [_ [_ [_ H]]]]]]]]]]].
  apply H; try reflexivity.
  - intros M. apply test_re_okr in M. vm_compute in M. discriminate M.
  - intros M. apply test_re_low in M. vm_compute in M. discriminate M.
Defined.

(** The claim's reading of the low-value signal: the phrase anywhere in the
    text. On "unclean inbox goal" the phrase "clean inbox" is contained, not
    at a word boundary; the code gives 2 and the stated formula 0. *)
Lemma scoreImportance_contains_counterexample :
  let t := {| text := js "unclean inbox goal"; dueAt := None;
              estimateMins := None; tags := Some [];
              importanceHint := None; urgencyHint := None |} in
  scoreImportance (platform := ascii_platform) t = 2
  /\ contains_ci low_phrases (text t)
  /\ ~ (exists high_tag okr deep low : bool,
          (high_tag = true <-> has_high_value_tag (platform := ascii_platform) t)
          /\ (okr = true <-> mentions_ci okr_words (text t))
          /\ (deep = true <-> 60 <= estimate_or_0 t)
          /\ (low = true <-> contains_ci low_phrases (text t))
          /\ scoreImportance (platform := ascii_platform) t =
             clamp 0 5 (0 + bonus high_tag 3 + bonus okr 2 + bonus deep 1
                        - bonus low 2 + hint_or_0 (importanceHint t))).
Proof.
  cbv zeta.
  assert (C : contains_ci low_phrases (js "unclean inbox goal")).
  { exists (js "clean inbox"), (js "clean inbox").
    split; [ simpl; auto | ]. split; [ reflexivity | ].
    exists (js "un"), (js " goal"). reflexivity. }
  split; [ vm_compute; reflexivity | ]. split; [ exact C | ].
  intros [a [b [c [d [Ha [Hb [Hc [Hd E]]]]]]]].
  assert (d = true) by (apply Hd; exact C). subst d.
  assert (a = false).
  { destruct a; [ | reflexivity ].
    destruct (proj1 Ha eq_refl) as [tag [[] _]]. }
  assert (c = false).
  { destruct c; [ | reflexivity ].
    pose proof (proj1 Hc eq_refl) as Hge. unfold estimate_or_0 in Hge.
    simpl in Hge. lia. }
  subst a c. destruct b; vm_compute in E; discriminate E.
Qed.

Section Badges.

Context {platform : Platform}.

Lemma push_all (f : jsstring -> jsstring) l : forall b,
  fold_left (fun b tag => b ++ [f tag]) l b = b ++ map f l.
Proof.
  induction l as [|x l IH]; intros b; simpl.
  - symmetry. apply app_nil_r.
  - rewrite IH, <- app_assoc. reflexivity.
Qed.

(** C7, as the code has it. [computeBadges] is, in this order: the
    due-date badge of the one due case that applies, if any; "time" when
    the lower-cased text has an HH:MM token (the text itself, where
    lower-casing only changes ASCII letters); the tags, lower-cased, in
    their order; "okr"; "deep" when there is an estimate of 60 minutes or
    more; "low". Nothing is removed: with the tag "okr" and a text that
    mentions "okr" the badge appears twice. *)
Theorem computeBadges_spec (now : Z) (t : TaskInput) :
  exists time_token okr deep low : bool,
    (time_token = true <-> has_time_token (toLowerCase (text t)))
    /\ (toLowerCase (text t) = map ascii_lower (text t) ->
        (time_token = true <-> has_time_token (text t)))
    /\ (okr = true <-> mentions_ci okr_words (text t))
    /\ (deep = true <-> long_estimate t)
    /\ (low = true <-> mentions_ci low_phrases (text t))
    /\ computeBadges now t =
       due_badge (due_case_of (due_of t) now)
       ++ badge_if time_token (js "time")
       ++ map toLowerCase (tags_of t)
       ++ badge_if okr (js "okr")
       ++ badge_if deep (js "deep")
       ++ badge_if low (js "low")
    /\ (length (due_badge (due_case_of (due_of t) now)) <= 1)%nat
    /\ (tags t = Some [js "okr"] -> toLowerCase (js "okr") = js "okr" ->
        mentions_ci okr_words (text t) ->
        ~ NoDup (computeBadges now t)).
Proof.
  assert (F : computeBadges now t =
       due_badge (due_case_of (due_of t) now)
       ++ badge_if (test re_time (toLowerCase (text t))) (js "time")
       ++ map toLowerCase (tags_of t)
       ++ badge_if (test re_okr (text t)) (js "okr")
       ++ badge_if (60 <=? estimate_or_0 t) (js "deep")
       ++ badge_if (test re_low (text t)) (js "low")).
  { unfold computeBadges, tags_of. cbv zeta.
    rewrite (due_branch now t ([] ++ [js "overdue"]) ([] ++ [js "today"])
                        ([] ++ [js "due<48h"]) []).
    replace (match due_case_of (due_of t) now with
             | Overdue => [] ++ [js "overdue"]
             | DueToday => [] ++ [js "today"]
             | DueSoon => [] ++ [js "due<48h"]
             | NotDue => []
             end) with (due_badge (due_case_of (due_of t) now))
      by (destruct (due_case_of (due_of t) now); reflexivity).
    generalize (due_badge (due_case_of (due_of t) now)). intros b0.
    unfold badge_if.
    destruct (test re_time _); destruct (test re_okr _);
      destruct (60 <=? estimate_or_0 t); destruct (test re_low _);
      rewrite push_all; rewrite <- ?app_assoc; simpl;
      rewrite ?app_nil_r; reflexivity. }
  exists (test re_time (toLowerCase (text t))), (test re_okr (text t)),
         (60 <=? estimate_or_0 t), (test re_low (text t)).
  split; [ apply test_re_time | ].
  split; [ intros E; rewrite test_re_time, E; apply has_time_token_lower | ].
  split; [ apply test_re_okr | ].
  split.
  { unfold long_estimate, estimate_or_0. rewrite Z.leb_le.
    destruct (estimateMins t) as [n|]; split.
    - intros H. exists n. auto.
    - intros [n' [E H]]. injection E as <-. exact H.
    - lia.
    - intros [n' [E _]]. discriminate E. }
  split; [ apply test_re_low | ].
  split; [ exact F | ].
  split; [ destruct (due_case_of (due_of t) now); simpl; lia | ].
  intros Htags Hlow Hokr. apply test_re_okr in Hokr.
  rewrite F. unfold tags_of. rewrite Htags, Hokr. simpl map. rewrite Hlow.
  intros N.
  apply NoDup_app_remove_l in N. apply NoDup_app_remove_l in N.
  simpl in N. inversion N as [|? ? Hnotin _]. apply Hnotin. left. reflexivity.
Qed.

End Badges.

(** Due on the third of January, seen on the second, an estimate of 90
    minutes, the tags "Finance" and "OKR" on a text that mentions an OKR
    and a time of day: the badge "okr" comes twice. *)
Lemma computeBadges_spec_witness :
  computeBadges (platform := browser_platform) 1735776000000
    {| text := js "Plan OKR at 9:30"; dueAt := Some third_of_january;
       estimateMins := Some 90; tags := Some [js "Finance"; js "OKR"];
       importanceHint := None; urgencyHint := None |}
  = [js "due<48h"; js "time"; js "finance"; js "okr"; js "okr"; js "deep"].
Proof.
  destruct (computeBadges_spec (platform := browser_platform) 1735776000000
    {| text := js "Plan OKR at 9:30"; dueAt := Some third_of_january;
       estimateMins := Some 90; tags := Some [js "Finance"; js "OKR"];
       importanceHint := None; urgencyHint := None |})
    as [a [b [c [d [Ha [_ [Hb [Hc [Hd [E _]]]]]]]]]].
  rewrite E.
  assert (A : a = true).
  { apply Ha. apply test_re_time. vm_compute. reflexivity. }
  assert (B : b = true).
  { apply Hb. apply test_re_okr. vm_compute. reflexivity. }
  assert (C : c = true).
  { apply Hc. exists 90. split; [ reflexivity | lia ]. }
  assert (D : d = false).
  { destruct d; [ | reflexivity ].
    assert (H : test re_low (js "Plan OKR at 9:30") = true).
    { apply test_re_low. apply Hd. reflexivity. }
    vm_compute in H. discriminate H. }
  rewrite A, B, C, D. vm_compute. reflexivity.
Defined.

(** The claim's reading of the time badge: an HH:MM token of the text. On
    "9:30" followed by the Kelvin sign the text has the token at word
    boundaries; the lower-cased text is "9:30k" and has none. The code
    gives no badge and the stated list has "time". *)
Lemma computeBadges_text_counterexample :
  let t := {| text := js "9:30" ++ [8490%N]; dueAt := None;
              estimateMins := None; tags := None;
              importanceHint := None; urgencyHint := None |} in
  @toLowerCase browser_platform (text t) = js "9:30k"
  /\ computeBadges (platform := browser_platform) 0 t = []
  /\ has_time_token (text t)
  /\ ~ (exists time_token okr deep low : bool,
          (time_token = true <-> has_time_token (text t))
          /\ (okr = true <-> mentions_ci okr_words (text t))
          /\ (deep = true <-> long_estimate t)
          /\ (low = true <-> mentions_ci low_phrases (text t))
          /\ computeBadges (platform := browser_platform) 0 t =
             due_badge (due_case_of
                          (due_of (platform := browser_platform) t) 0)
             ++ badge_if time_token (js "time")
             ++ map (@toLowerCase browser_platform) (tags_of t)
             ++ badge_if okr (js "okr")
             ++ badge_if deep (js "deep")
             ++ badge_if low (js "low")).
Proof.
  cbv zeta.
  assert (C : has_time_token (js "9:30" ++ [8490%N])).
  { exists (js "9:30"). split.
    - exists (js "9"), (js "30"). repeat split; auto.
    - exists [], [8490%N]. split; [ reflexivity | ].
      split; unfold word_boundary; simpl; discriminate. }
  split; [ reflexivity | ].
  split; [ vm_compute; reflexivity | ]. split; [ exact C | ].
  intros [a [b [c [d [Ha [_ [_ [_ E]]]]]]]].
  assert (a = true) by (apply Ha; exact C). subst a.
  vm_compute in E. discriminate E.
Qed.

Example computeBadges_duplicate :
  computeBadges (platform := ascii_platform) 0
    {| text := js "review OKR at 9:30"; dueAt := None; estimateMins := Some 90;
       tags := Some [js "Finance"; js "OKR"]; importanceHint := None;
       urgencyHint := None |}
  = [js "time"; js "finance"; js "okr"; js "okr"; js "deep"].
Proof. vm_compute. reflexivity. Qed.

Section Reasoning.

Context {platform : Platform}.

Lemma buildReasoning_length badges : (length (buildReasoning badges) <= 280)%nat.
Proof.
  unfold buildReasoning. cbv zeta.
  destruct (280 <? length (join (js "; ") badges))%nat eqn:E.
  - rewrite length_app. pose proof (@slice_length_le 0 277 (join (js "; ") badges)).
    simpl length. lia.
  - apply Nat.ltb_ge in E. exact E.
Qed.

Lemma withSuggestion_length reasoning fragment :
  (length (withSuggestion reasoning fragment) <= 280)%nat.
Proof.
  unfold withSuggestion.
  match goal with |- (length (slice 0 280 ?s) <= _)%nat =>
    pose proof (@slice_length_le 0 280 s) end.
  lia.
Qed.

(** C8. [buildReasoning] returns the badges joined with "; " when the join
    has at most 280 code units, and otherwise its first 277 code units
    followed by the ellipsis; either way at most 280 code units. The
    reasoning with the " | LLM: <fragment>" suffix is cut to its first 280
    code units, and the reasoning of every record [addTask] stores has at
    most 280. *)
Theorem buildReasoning_spec (badges : list jsstring) :
  let s := join (js "; ") badges in
  ((length s <= 280)%nat -> buildReasoning badges = s)
  /\ ((280 < length s)%nat ->
      buildReasoning badges = firstn 277 s ++ [ellipsis])
  /\ (length (buildReasoning badges) <= 280)%nat
  /\ (forall reasoning fragment,
        withSuggestion reasoning fragment =
        firstn 280 (reasoning ++ (if nonempty reasoning then js " | " else [])
                    ++ js "LLM: " ++ fragment)
        /\ (length (withSuggestion reasoning fragment) <= 280)%nat)
  /\ (forall now enableRefine net text rec,
        addTask now enableRefine net text = Returns (Some rec) ->
        (length (reasoning rec) <= 280)%nat).
Proof.
  cbv zeta. split; [ | split; [ | split; [ | split ] ] ].
  - intros H. unfold buildReasoning. cbv zeta.
    apply Nat.ltb_ge in H. rewrite H. reflexivity.
  - intros H. unfold buildReasoning. cbv zeta.
    apply Nat.ltb_lt in H. rewrite H.
    rewrite slice_prefix by lia. reflexivity.
  - apply buildReasoning_length.
  - intros reasoning fragment. split; [ | apply withSuggestion_length ].
    unfold withSuggestion. rewrite slice_prefix by lia. reflexivity.
  - intros now enableRefine net text rec. unfold addTask.
    destruct (negb (nonempty (trim text))); [ discriminate | ].
    cbv zeta.
    destruct (enableRefine && isBorderline _ _ _)%bool.
    + destruct (refineWithOllama _ _ _ _) as [r|e|]; simpl bind;
        intros E; try discriminate E. injection E as <-. simpl.
      apply withSuggestion_length.
    + intros E. injection E as <-. simpl. apply buildReasoning_length.
Qed.

End Reasoning.

(** Two badges, well under the cap: the join is returned unchanged. *)
Lemma buildReasoning_spec_witness :
  buildReasoning [js "time"; js "okr"] = js "time; okr".
Proof.
  apply (proj1 (buildReasoning_spec (platform := ascii_platform)
                  [js "time"; js "okr"])).
  simpl. lia.
Defined.

Section Eliminated.

Context {platform : Platform}.

(** C10. Every cell of the grid that [decideQuadrant] sends to "eliminate"
    is borderline for "eliminate", (0,0) included; so with the opt-in
    enabled [addTask] asks for a refinement of every task it eliminates. *)
Theorem eliminate_is_borderline (u i : Z) :
  on_grid u i ->
  decideQuadrant u i = Eliminate ->
  isBorderline u i Eliminate = true
  /\ flip_candidate_gate u i Eliminate
  /\ isBorderline 0 0 Eliminate = true
  /\ (forall now net text rec,
        addTask now true net text = Returns (Some rec) ->
        quadrant rec = Eliminate ->
        exists r,
          refineWithOllama net (sanitizeForModel text) Eliminate 3000
          = Returns r
          /\ aiSuggestion rec = Some (r_quadrant r)).
Proof.
  intros _ Hq.
  assert (Hr : rule_eliminate u i).
  { pose proof (decideQuadrant_rule u i) as H. rewrite Hq in H. exact H. }
  assert (Hf : flip_candidate_gate u i Eliminate).
  { unfold flip_candidate_gate. right. right. right. split; [ reflexivity | exact Hr ]. }
  split; [ apply isBorderline_gates; right; exact Hf | ].
  split; [ exact Hf | ].
  split; [ reflexivity | ].
  intros now net text rec. unfold addTask.
  destruct (negb (nonempty (trim text))); [ discriminate | ].
  cbv zeta. simpl andb.
  destruct (isBorderline _ _ _) eqn:B.
  - destruct (refineWithOllama _ _ _ _) as [r|e|] eqn:R; simpl bind;
      intros E; try discriminate E. injection E as <-. simpl.
    intros Q. rewrite Q in R. exists r. split; [ exact R | reflexivity ].
  - intros E. injection E as <-. simpl.
    intros Q. exfalso. rewrite Q in B.
    assert (B' : isBorderline
      (scoreUrgency now {| text := text; dueAt := None; estimateMins := None;
                           tags := Some []; importanceHint := None;
                           urgencyHint := None |})
      (scoreImportance {| text := text; dueAt := None; estimateMins := None;
                          tags := Some []; importanceHint := None;
                          urgencyHint := None |}) Eliminate = true).
    { apply isBorderline_gates. right. unfold flip_candidate_gate.
      right. right. right. split; [ reflexivity | ].
      pose proof (decideQuadrant_rule
        (scoreUrgency now {| text := text; dueAt := None; estimateMins := None;
                             tags := Some []; importanceHint := None;
                             urgencyHint := None |})
        (scoreImportance {| text := text; dueAt := None; estimateMins := None;
                            tags := Some []; importanceHint := None;
                            urgencyHint := None |})) as H.
      rewrite Q in H. exact H. }
    rewrite B' in B. discriminate B.
Qed.

End Eliminated.

(** The clearly-low cell (0,0). *)
Lemma eliminate_is_borderline_witness : isBorderline 0 0 Eliminate = true.
Proof.
  assert (G : on_grid 0 0) by (unfold on_grid; lia).
  exact (proj1 (eliminate_is_borderline (platform := ascii_platform)
                  G eq_refl)).
Defined.

(* ================================================================= *)
(** ** The refinement client *)

Section Refinement.

Context {platform : Platform}.

Lemma lookup_first key props :
  lookup key props =
  option_map snd
    (find (fun p => if list_eq_dec N.eq_dec (fst p) key then true else false)
          props).
Proof.
  induction props as [|[k v] rest IH]; [ reflexivity | ].
  simpl. unfold JsString.eqb.
  destruct (list_eq_dec N.eq_dec k key); [ reflexivity | exact IH ].
Qed.

Lemma get_field v key : v <> JNull -> get v key = Returns (field v key).
Proof.
  destruct v; intros H; try reflexivity; [ congruence | ].
  simpl. rewrite lookup_first. reflexivity.
Qed.

Lemma truthy_is_falsy v : truthy (Some v) = negb (is_falsy v).
Proof.
  destruct v as [ | b | [q | p] | s | | ]; try reflexivity.
  - destruct b; reflexivity.
  - destruct s; reflexivity.
Qed.

(** What the [try] block makes of a parsed payload. *)
Lemma read_parsed parsed heuristic :
  parsed <> JNull ->
  bind (get parsed (js "quadrant")) (fun pq =>
    bind (get parsed (js "reasoning")) (fun pr =>
      Returns {| r_quadrant := or_else pq (JStr (label heuristic));
                 r_reasoning := match pr with
                                | Some (JStr s) => s
                                | _ => js "refined"
                                end |}))
  = Returns (refined parsed heuristic).
Proof.
  intros H. rewrite !get_field by exact H. simpl bind.
  unfold refined. f_equal. f_equal.
  destruct (field parsed (js "quadrant")) as [v|]; [ | reflexivity ].
  unfold or_else. rewrite truthy_is_falsy.
  destruct (is_falsy v); reflexivity.
Qed.

(** The [try] block, stage by stage. *)
Lemma refine_try_stages net text heuristic timeoutMs :
  refine_try net text heuristic timeoutMs =
  let w := net (request_of text heuristic) in
  match settles_after w with
  | None => Throws AbortError
  | Some ms =>
      if Z.of_N ms <? timer_delay timeoutMs then
        match settles_to w with
        | Never => Throws AbortError
        | Throws e => Throws e
        | Returns r =>
            if ok r then
              match json_body r with
              | Never => Never
              | Throws e => Throws e
              | Returns JNull => Throws TypeError
              | Returns out =>
                  match JSON_parse (raw_payload (field out (js "response"))) with
                  | None => Throws SyntaxError
                  | Some JNull => Throws TypeError
                  | Some parsed => Returns (refined parsed heuristic)
                  end
              end
            else Throws NotOk
        end
      else Throws AbortError
  end.
Proof.
  unfold refine_try, await_fetch. cbv zeta.
  destruct (settles_after _) as [ms|]; [ | reflexivity ].
  destruct (Z.of_N ms <? timer_delay timeoutMs); [ | reflexivity ].
  destruct (settles_to _) as [r|e|]; [ | reflexivity | reflexivity ].
  simpl bind. destruct (ok r); [ | reflexivity ].
  simpl. destruct (json_body r) as [out|e|]; [ | reflexivity | reflexivity ].
  simpl bind.
  assert (D : out = JNull \/ out <> JNull)
    by (destruct out; auto; right; discriminate).
  destruct D as [-> | Ho]; [ reflexivity | ].
  rewrite get_field by exact Ho. simpl bind.
  replace (match out with
           | JNull => Throws TypeError
           | _ =>
               match JSON_parse (raw_payload (field out (js "response"))) with
               | Some JNull => Throws TypeError
               | Some parsed => Returns (refined parsed heuristic)
               | None => Throws SyntaxError
               end
           end)
    with (match JSON_parse (raw_payload (field out (js "response"))) with
          | Some JNull => Throws TypeError
          | Some parsed => Returns (refined parsed heuristic)
          | None => @Throws refinement SyntaxError
          end)
    by (destruct out; congruence).
  destruct (JSON_parse _) as [parsed|]; [ | reflexivity ].
  simpl bind.
  assert (D : parsed = JNull \/ parsed <> JNull)
    by (destruct parsed; auto; right; discriminate).
  destruct D as [-> | Hp]; [ reflexivity | ].
  rewrite (read_parsed heuristic Hp). destruct parsed; congruence.
Qed.



End Refinement.



(** The timer of a browser at 2^31 ms fires at once: no reply is read. *)
Example refineWithOllama_overflow :
  refineWithOllama (platform := canned_platform)
    (answering 40 (Returns fenced_reply) 0)
    (js "call bob at 12:30") Delegate (2 ^ 31)
  = Returns (fallback Delegate).
Proof. vm_compute. reflexivity. Qed.

(* ================================================================= *)
(** ** The sanitizer *)

Section Sanitizer.




Lemma no_match_test r s :
  (forall pre w post, s = pre ++ w ++ post ->
                      ~ matches r (last_or None pre) w post) ->
  test r s = false.
Proof.
  intros H. destruct (test r s) eqn:E; [ | reflexivity ].
  apply test_spec in E. destruct E as [pre [w [post [E M]]]].
  elim (H pre w post E M).
Qed.

Lemma pattern_free_tests s :
  pattern_free s <->
  test re_email s = false /\ test re_phone s = false
  /\ test re_url s = false /\ test re_id s = false.
Proof.
  split.
  - intros H. repeat split; apply no_match_test; intros pre w post E M;
      destruct (H pre w post E) as [H1 [H2 [H3 H4]]].
    + apply matches_re_email in M. auto.
    + apply matches_re_phone in M. apply H2. split; [ tauto | ].
      apply delimited_token. tauto.
    + apply matches_re_url in M. auto.
    + apply matches_re_id in M. apply H4. split; [ tauto | ].
      apply delimited_token. tauto.
  - intros [T1 [T2 [T3 T4]]] pre w post E.
    assert (N : forall r, test r s = false ->
                          ~ matches r (last_or None pre) w post).
    { intros r T M. assert (test r s = true).
      { apply test_spec. exists pre, w, post. auto. }
      congruence. }
    repeat split.
    + intros M. apply (N re_email T1). apply matches_re_email. exact M.
    + intros [M Tk]. apply (N re_phone T2). apply matches_re_phone.
      apply delimited_token in Tk. tauto.
    + intros M. apply (N re_url T3). apply matches_re_url. exact M.
    + intros [M Tk]. apply (N re_id T4). apply matches_re_id.
      apply delimited_token in Tk. tauto.
Qed.

(** C9. On a string with no occurrence of any of the four pattern classes
    the sanitizer changes nothing, so applying it twice gives what applying
    it once gives. *)
Theorem sanitizeForModel_twice (s : jsstring) :
  pattern_free s ->
  sanitizeForModel (sanitizeForModel s) = sanitizeForModel s
  /\ sanitizeForModel s = s.
Proof.
  intros H. apply pattern_free_tests in H. destruct H as [T1 [T2 [T3 T4]]].
  assert (E : sanitizeForModel s = s).
  { unfold sanitizeForModel.
    rewrite (replace_all_no_match _ (js "[email]") _ T1).
    rewrite (replace_all_no_match _ (js "[phone]") _ T2).
    rewrite (replace_all_no_match _ (js "[url]") _ T3).
    apply (replace_all_no_match _ (js "[id]") _ T4). }
  rewrite !E. auto.
Qed.

Lemma sanitizeForModel_twice_witness :
  sanitizeForModel (sanitizeForModel (js "file receipts by 17:00"))
  = sanitizeForModel (js "file receipts by 17:00").
Proof.
  apply (proj1 (@sanitizeForModel_twice (js "file receipts by 17:00")
                  (proj2 (pattern_free_tests (js "file receipts by 17:00"))
                         (conj eq_refl (conj eq_refl (conj eq_refl eq_refl)))))).
Defined.

End Sanitizer.

(* ================================================================= *)
(** ** Further properties: the scores *)

Section Trimming.

Lemma drop_space_nil s : drop_space s = [] <-> forallb is_space s = true.
Proof.
  induction s as [|c s IH]; simpl; [ tauto | ].
  destruct (is_space c); simpl; [ exact IH | ].
  split; discriminate.
Qed.

Lemma drop_space_head s :
  match drop_space s with
  | [] => True
  | c :: _ => is_space c = false
  end.
Proof.
  induction s as [|c s IH]; simpl; [ exact I | ].
  destruct (is_space c) eqn:E; [ exact IH | exact E ].
Qed.

Lemma trim_nil s : trim s = [] <-> forallb is_space s = true.
Proof.
  unfold trim. split.
  - intros H. apply drop_space_nil.
    assert (H1 : drop_space (rev (drop_space s)) = []).
    { apply (f_equal (@rev _)) in H. rewrite rev_involutive in H. exact H. }
    pose proof (drop_space_head s) as Hh.
    destruct (drop_space s) as [|c d]; [ reflexivity | ].
    apply drop_space_nil in H1. rewrite forallb_forall in H1.
    assert (Hc : In c (rev (c :: d))).
    { apply -> in_rev. left. reflexivity. }
    apply H1 in Hc. congruence.
  - intros H. apply drop_space_nil in H. rewrite H. reflexivity.
Qed.

End Trimming.

Section HintsAndDates.

Context {platform : Platform}.

Lemma due_base_range c : 0 <= due_base c <= 5.
Proof. destruct c; simpl; lia. Qed.

Lemma bonus_range b n : 0 <= n -> 0 <= bonus b n <= n.
Proof. destruct b; simpl; lia. Qed.

(** X1. A due date that is the empty string, or that does not parse to a
    date, counts as no due date: the urgency and the badges are those of
    the same task without one. *)
Theorem unparsed_due_is_no_due (now : Z) (d x : jsstring) (e : option Z)
    (g : option (list jsstring)) (ih uh : option Z) :
  d = [] \/ Date_parse d = None ->
  let t due := {| text := x; dueAt := due; estimateMins := e; tags := g;
                  importanceHint := ih; urgencyHint := uh |} in
  scoreUrgency now (t (Some d)) = scoreUrgency now (t None)
  /\ computeBadges now (t (Some d)) = computeBadges now (t None).
Proof.
  intros H t. unfold scoreUrgency, computeBadges, t. simpl dueAt.
  destruct H as [-> | H].
  - simpl nonempty. cbv iota. split; reflexivity.
  - rewrite H. destruct (nonempty d); split; reflexivity.
Qed.

(** X2. The urgency before the hint lies between 0 and 9 and the
    importance before the hint between -2 and 6, so an urgency hint of 5
    or more gives urgency 5 and one of -9 or less gives 0; an importance
    hint of 7 or more gives importance 5 and one of -6 or less gives 0,
    whatever the text, the due date, the tags and the estimate. *)
Theorem hints_saturate (now : Z) (t : TaskInput) (h : Z) :
  (urgencyHint t = Some h ->
   (5 <= h -> scoreUrgency now t = 5) /\ (h <= -9 -> scoreUrgency now t = 0))
  /\ (importanceHint t = Some h ->
      (7 <= h -> scoreImportance t = 5) /\ (h <= -6 -> scoreImportance t = 0)).
Proof.
  split; intros E.
  - rewrite scoreUrgency_formula, E. simpl hint_or_0.
    pose proof (due_base_range (due_case_of (due_of t) now)).
    pose proof (@bonus_range (test re_urgent (toLowerCase (text t))) 3).
    pose proof (@bonus_range (test re_time (toLowerCase (text t))) 1).
    unfold clamp. split; intros Hh.
    + destruct (_ <? 0) eqn:A; [ apply Z.ltb_lt in A; lia | ].
      destruct (5 <? _) eqn:B; [ reflexivity | apply Z.ltb_ge in B; lia ].
    + destruct (_ <? 0) eqn:A; [ reflexivity | ].
      apply Z.ltb_ge in A.
      destruct (5 <? _) eqn:B; [ apply Z.ltb_lt in B; lia | lia ].
  - rewrite scoreImportance_formula, E. simpl hint_or_0.
    match goal with |- context [bonus ?b 3] =>
      pose proof (@bonus_range b 3) end.
    pose proof (@bonus_range (test re_okr (text t)) 2).
    pose proof (@bonus_range (60 <=? estimate_or_0 t) 1).
    pose proof (@bonus_range (test re_low (text t)) 2).
    unfold clamp. split; intros Hh.
    + destruct (_ <? 0) eqn:A; [ apply Z.ltb_lt in A; lia | ].
      destruct (5 <? _) eqn:B; [ reflexivity | apply Z.ltb_ge in B; lia ].
    + destruct (_ <? 0) eqn:A; [ reflexivity | ].
      apply Z.ltb_ge in A.
      destruct (5 <? _) eqn:B; [ apply Z.ltb_lt in B; lia | lia ].
Qed.

(** X3. Without an urgency hint the urgency is never 2: the contributions
    are 5, 4 or 3 for the due date, 3 for an urgent word and 1 for a time
    of day, and no sum of them is 2. *)
Theorem unhinted_urgency_is_not_2 (now : Z) (t : TaskInput) :
  urgencyHint t = None -> scoreUrgency now t <> 2.
Proof.
  intros E. rewrite scoreUrgency_formula, E.
  destruct (due_case_of (due_of t) now), (test re_urgent _), (test re_time _);
    vm_compute; discriminate.
Qed.

End HintsAndDates.

Lemma unparsed_due_is_no_due_witness :
  scoreUrgency (platform := ascii_platform) 0
    {| text := js "call asap"; dueAt := Some (js "soon"); estimateMins := None;
       tags := None; importanceHint := None; urgencyHint := None |} = 3.
Proof.
  rewrite (proj1 (@unparsed_due_is_no_due ascii_platform 0 (js "soon")
                    (js "call asap") None None None None
                    (or_intror eq_refl))).
  reflexivity.
Defined.

Lemma hints_saturate_witness :
  scoreUrgency (platform := ascii_platform) 0
    {| text := js "water plants"; dueAt := None; estimateMins := None;
       tags := None; importanceHint := None; urgencyHint := Some 1000 |} = 5.
Proof.
  apply (proj1 (proj1 (@hints_saturate ascii_platform 0
    {| text := js "water plants"; dueAt := None; estimateMins := None;
       tags := None; importanceHint := None; urgencyHint := Some 1000 |}
    1000) eq_refl)).
  lia.
Defined.

Lemma unhinted_urgency_is_not_2_witness :
  urgencyHint (typed (js "call at 9:30")) = None
  /\ scoreUrgency (platform := ascii_platform) 0 (typed (js "call at 9:30")) <> 2.
Proof.
  split; [ reflexivity | ].
  apply (@unhinted_urgency_is_not_2 ascii_platform 0 (typed (js "call at 9:30"))).
  reflexivity.
Defined.

(* ================================================================= *)
(** ** Further properties: the decider and the borderline check *)

Section DecidedBorderline.

(** X4. On the grid, for the quadrant the decider itself returns, the
    flip-candidate gate adds to the edge-and-sum gate only the
    "eliminate" cells: the check holds exactly when the quadrant is
    "eliminate" or the edge-and-sum gate holds. *)
Theorem isBorderline_of_decided (u i : Z) :
  u <= 5 -> i <= 5 ->
  (isBorderline u i (decideQuadrant u i) = true <->
   decideQuadrant u i = Eliminate \/ edge_and_sum_gate u i).
Proof.
  intros Hu Hi. rewrite isBorderline_gates.
  pose proof (decideQuadrant_rule u i) as R.
  unfold edge_and_sum_gate, flip_candidate_gate.
  destruct (decideQuadrant u i); simpl in R;
    unfold rule_do, rule_schedule, rule_delegate, rule_eliminate in R;
    intuition (try discriminate; try lia).
Qed.

End DecidedBorderline.

(** A confident "delegate": urgency 4, importance 0. *)
Lemma isBorderline_of_decided_witness :
  4 <= 5 /\ 0 <= 5
  /\ (isBorderline 4 0 (decideQuadrant 4 0) = true <->
      decideQuadrant 4 0 = Eliminate \/ edge_and_sum_gate 4 0).
Proof.
  split; [ lia | ]. split; [ lia | ].
  apply isBorderline_of_decided; lia.
Defined.

(* ================================================================= *)
(** ** Further properties: what [addTask] stores *)

Section Adding.

Context {platform : Platform}.

Lemma typed_urgency now text :
  scoreUrgency now (typed text) =
  bonus (test re_urgent (toLowerCase text)) 3
  + bonus (test re_time (toLowerCase text)) 1.
Proof.
  rewrite scoreUrgency_formula. simpl.
  destruct (test re_urgent _), (test re_time _); reflexivity.
Qed.

Lemma typed_importance text :
  scoreImportance (typed text) =
  bonus (test re_okr text && negb (test re_low text)) 2.
Proof.
  rewrite scoreImportance_formula. simpl.
  destruct (test re_okr _), (test re_low _); reflexivity.
Qed.

Lemma addTask_some now enableRefine net text rec :
  addTask now enableRefine net text = Returns (Some rec) ->
  urgency rec = scoreUrgency now (typed text)
  /\ importance rec = scoreImportance (typed text)
  /\ quadrant rec = decideQuadrant (urgency rec) (importance rec)
  /\ (exists j,
        aiSuggestion rec =
        (if enableRefine
            && isBorderline (urgency rec) (importance rec) (quadrant rec)
         then Some j else None))
  /\ (forall v, aiSuggestion rec = Some v ->
        exists r,
          refineWithOllama net (sanitizeForModel text) (quadrant rec) 3000
          = Returns r
          /\ v = r_quadrant r)
  /\ (enableRefine = false ->
      reasoning rec = buildReasoning (computeBadges now (typed text))).
Proof.
  unfold addTask, typed.
  destruct (negb (nonempty (trim text))); [ discriminate | ].
  cbv zeta.
  destruct (enableRefine && isBorderline _ _ _)%bool eqn:B.
  - destruct (refineWithOllama _ _ _ _) as [r| |] eqn:R;
      simpl bind; intros E; [ | discriminate E | discriminate E ].
    injection E as <-. simpl. rewrite B.
    repeat (split; [ reflexivity | ]).
    split; [ exists (r_quadrant r); reflexivity | ].
    split.
    + intros v E. exists r. split; [ exact R | congruence ].
    + intros F. subst enableRefine. discriminate B.
  - intros E. injection E as <-. simpl. rewrite B.
    repeat (split; [ reflexivity | ]).
    split; [ exists JNull; reflexivity | ].
    split; [ discriminate | reflexivity ].
Qed.

(** The call stays pending only while a refinement is awaited. *)
Lemma addTask_pending now enableRefine net text :
  addTask now enableRefine net text = Never ->
  enableRefine = true
  /\ refineWithOllama net (sanitizeForModel text)
       (decideQuadrant (scoreUrgency now (typed text))
                       (scoreImportance (typed text))) 3000 = Never.
Proof.
  unfold addTask, typed.
  destruct (negb (nonempty (trim text))); [ discriminate | ].
  cbv zeta.
  destruct enableRefine; simpl andb; [ | discriminate ].
  destruct (isBorderline _ _ _); [ | discriminate ].
  destruct (refineWithOllama _ _ _ _) as [r| |];
    simpl bind; intros E; try discriminate E.
  split; reflexivity.
Qed.

Lemma addTask_no_throw now enableRefine net text e :
  addTask now enableRefine net text <> Throws e.
Proof.
  unfold addTask, typed.
  destruct (negb (nonempty (trim text))); [ discriminate | ].
  cbv zeta.
  destruct (enableRefine && isBorderline _ _ _)%bool; [ | discriminate ].
  unfold refineWithOllama.
  destruct (refine_try _ _ _ _); simpl bind; discriminate.
Qed.

(** X5. [addTask] returns without storing anything exactly when every
    code unit of the text is white space; the empty text is one such. *)
Theorem addTask_ignores_blank now enableRefine net (text : jsstring) :
  addTask now enableRefine net text = Returns None
  <-> forallb is_space text = true.
Proof.
  rewrite <- trim_nil. unfold addTask.
  destruct (trim text); simpl.
  - split; reflexivity.
  - cbv zeta. destruct (enableRefine && isBorderline _ _ _)%bool;
      [ destruct (refineWithOllama _ _ _ _); simpl bind | ];
      split; discriminate.
Qed.

(** X6. A task added through the input box has no due date, no tag, no
    estimate and no hint, so its importance is 2 or 0 and its urgency is
    0, 1, 3 or 4: it never lands in "do" or "schedule". It lands in
    "delegate" exactly when the lower-cased text has one of the urgent
    words at word boundaries, and its importance is 2 exactly when the
    text has an OKR word and no low-value phrase. *)
Theorem addTask_never_important now enableRefine net text rec :
  addTask now enableRefine net text = Returns (Some rec) ->
  (quadrant rec = Delegate \/ quadrant rec = Eliminate)
  /\ (quadrant rec = Delegate <-> mentions urgent_words (toLowerCase text))
  /\ (urgency rec = 0 \/ urgency rec = 1 \/ urgency rec = 3 \/ urgency rec = 4)
  /\ (importance rec = 2 \/ importance rec = 0)
  /\ (importance rec = 2 <->
      mentions_ci okr_words text /\ ~ mentions_ci low_phrases text).
Proof.
  intros H. apply addTask_some in H.
  destruct H as [U [I [Q _]]].
  rewrite typed_urgency in U. rewrite typed_importance in I.
  rewrite Q, U, I.
  rewrite <- test_re_urgent, <- test_re_okr, <- test_re_low.
  destruct (test re_urgent _), (test re_time _), (test re_okr _),
    (test re_low _); vm_compute; intuition congruence.
Qed.

Lemma refine_cases (bU bT bO bL : bool) (o : option json) (j : json)
    (q : Quadrant) (u i : Z) :
  u = bonus bU 3 + bonus bT 1 ->
  i = bonus (bO && negb bL) 2 ->
  q = decideQuadrant u i ->
  o = (if isBorderline u i q then Some j else None) ->
  (o = None <-> q = Delegate /\ i = 0)
  /\ (o = None <-> bU = true /\ ~ (bO = true /\ bL <> true)).
Proof.
  intros -> -> -> ->.
  destruct bU, bT, bO, bL; vm_compute; intuition congruence.
Qed.

(** X7. With the opt-in on, the refinement is left out exactly for a task
    that lands in "delegate" with importance 0, that is when the text has
    an urgent word and does not have an OKR word without a low-value
    phrase; with the opt-in off there is never a suggestion and the
    reasoning is the one built from the badges. *)
Theorem addTask_refines now enableRefine net text rec :
  addTask now enableRefine net text = Returns (Some rec) ->
  (enableRefine = true ->
   (aiSuggestion rec = None <-> quadrant rec = Delegate /\ importance rec = 0)
   /\ (aiSuggestion rec = None <->
       mentions urgent_words (toLowerCase text)
       /\ ~ (mentions_ci okr_words text /\ ~ mentions_ci low_phrases text)))
  /\ (enableRefine = false ->
      aiSuggestion rec = None
      /\ reasoning rec = buildReasoning (computeBadges now (typed text))).
Proof.
  intros H. apply addTask_some in H.
  destruct H as [U [I [Q [[j A] [_ R]]]]].
  split; intros E; subst enableRefine.
  - rewrite typed_urgency in U. rewrite typed_importance in I.
    rewrite <- test_re_urgent, <- test_re_okr, <- test_re_low.
    exact (@refine_cases _ _ _ _ _ _ _ _ _ U I Q A).
  - split; [ exact A | exact (R eq_refl) ].
Qed.

(** X8. The service is asked at most one thing, and only with the opt-in
    on: the request built from the sanitized text and the heuristic
    quadrant. Two networks that answer that request alike give the same
    record, and with the opt-in off the record does not depend on the
    network at all. *)
Theorem addTask_asks_only_sanitized now enableRefine net net' text :
  let q := decideQuadrant (scoreUrgency now (typed text))
                          (scoreImportance (typed text)) in
  (enableRefine = true ->
   net (request_of (sanitizeForModel text) q)
   = net' (request_of (sanitizeForModel text) q)) ->
  addTask now enableRefine net text = addTask now enableRefine net' text.
Proof.
  intros q H. unfold addTask.
  destruct (negb (nonempty (trim text))); [ reflexivity | ].
  cbv zeta. fold (typed text). fold q.
  destruct enableRefine; simpl andb; [ | reflexivity ].
  destruct (isBorderline _ _ q); [ | reflexivity ].
  unfold refineWithOllama, refine_try. rewrite (H eq_refl). reflexivity.
Qed.

End Adding.

Lemma addTask_never_important_witness :
  exists rec,
    addTask (platform := ascii_platform) 0 false offline
      (js "Submit report TODAY") = Returns (Some rec)
    /\ quadrant rec = Delegate.
Proof.
  eexists. split; [ reflexivity | ].
  apply (proj1 (proj2 (@addTask_never_important ascii_platform 0 false offline
                         (js "Submit report TODAY") _ eq_refl))).
  apply test_re_urgent. reflexivity.
Defined.

Lemma addTask_refines_witness :
  exists rec,
    addTask (platform := ascii_platform) 0 true offline
      (js "call the bank asap") = Returns (Some rec)
    /\ aiSuggestion rec = None.
Proof.
  eexists. split; [ reflexivity | ].
  apply (proj1 (proj1 (@addTask_refines ascii_platform 0 true offline
                         (js "call the bank asap") _ eq_refl) eq_refl)).
  split; reflexivity.
Defined.

Lemma addTask_asks_only_sanitized_witness :
  addTask (platform := canned_platform) 0 true
    (answering 40 (Returns fenced_reply) 5000) (js "mail a@b.com")
  = addTask (platform := canned_platform) 0 true
      (fun q => if JsString.eqb (model q) (js "llama3.2")
                then answering 40 (Returns fenced_reply) 5000 q
                else offline q)
      (js "mail a@b.com").
Proof.
  apply (@addTask_asks_only_sanitized canned_platform 0 true).
  intros _. reflexivity.
Defined.

(* ================================================================= *)
(** ** Further properties: what cannot leave the sanitizer *)

Section Substrings.

(** An occurrence of [w] in [a ++ d :: b], when [w] has no [d], lies in
    [a] or in [b]. *)
Lemma occurs_avoiding (d : cu) (pre w post a b : jsstring) :
  pre ++ w ++ post = a ++ d :: b -> ~ In d w ->
  (exists q, a = pre ++ w ++ q)
  \/ (exists p, pre = a ++ d :: p /\ b = p ++ w ++ post).
Proof.
  intros E Hd. apply app_eq_app in E.
  destruct E as [l [[E1 E2] | [E1 E2]]].
  - destruct l as [|x l].
    + simpl in E2. destruct w as [|y w].
      * left. exists []. rewrite E1, !app_nil_r. reflexivity.
      * injection E2 as -> _. elim Hd. left. reflexivity.
    + simpl in E2. injection E2 as <- ->. right. exists l.
      split; [ exact E1 | reflexivity ].
  - apply app_eq_app in E2.
    destruct E2 as [l2 [[E3 E4] | [E3 E4]]].
    + destruct l2 as [|x l2].
      * left. exists []. rewrite E1, E3, !app_nil_r. reflexivity.
      * simpl in E4. injection E4 as -> _. elim Hd. rewrite E3.
        apply in_or_app. right. left. reflexivity.
    + left. exists l2. rewrite E1, E3. reflexivity.
Qed.

Lemma occurs_in (c : cu) (w s : jsstring) : occurs w s -> In c w -> In c s.
Proof.
  intros [pre [post ->]] H. apply in_or_app. right.
  apply in_or_app. left. exact H.
Qed.

Lemma forallb_not_in (p : cu -> bool) (d : cu) (w : jsstring) :
  forallb p w = true -> p d = false -> ~ In d w.
Proof.
  intros F D H. rewrite forallb_forall in F. apply F in H. congruence.
Qed.

Lemma not_existsb_in (d : cu) (l : jsstring) :
  existsb (N.eqb d) l = false -> ~ In d l.
Proof.
  intros E H. assert (T : existsb (N.eqb d) l = true).
  { apply existsb_exists. exists d. split; [ exact H | apply N.eqb_refl ]. }
  congruence.
Qed.

Lemma email_shaped_cu w :
  email_shaped w -> forallb email_cu w = true /\ In 64%N w.
Proof.
  intros [local [dom [tld [-> [_ [Hl [_ [Hd [_ Ht]]]]]]]]].
  split.
  - rewrite !forallb_app, !andb_true_iff.
    split; [ | split; [ reflexivity | split; [ | split; [ reflexivity | ] ] ] ].
    + revert Hl. apply forallb_impl. unfold email_cu. intros c ->. reflexivity.
    + revert Hd. apply forallb_impl. unfold email_cu, is_domain, is_local.
      intros c H.
      destruct (is_alpha c), (is_digit c), (N.eqb c 46), (N.eqb c 45);
        simpl in H |- *; rewrite ?orb_true_r; try reflexivity; discriminate H.
    + revert Ht. apply forallb_impl. unfold email_cu, is_local.
      intros c ->. reflexivity.
  - apply in_or_app. right. left. reflexivity.
Qed.

Lemma is_space_spec c :
  is_space c = true -> (c <= 13 \/ c = 32 \/ 160 <= c)%N.
Proof.
  unfold is_space, between.
  rewrite !orb_true_iff, !andb_true_iff, !N.leb_le, !N.eqb_eq. lia.
Qed.

Lemma is_id_char_non_space c : is_id_char c = true -> non_space c = true.
Proof.
  unfold is_id_char, non_space, is_upper, is_digit, between.
  rewrite !orb_true_iff, !andb_true_iff, !N.leb_le. intros H.
  destruct (is_space c) eqn:E; [ | reflexivity ].
  apply is_space_spec in E. lia.
Qed.

(** A URL starts with a URL that has one code unit after "://". *)
Lemma url_shaped_head w :
  url_shaped w ->
  exists h r0 rest,
    w = h ++ r0 :: rest /\ (h = js "http://" \/ h = js "https://")
    /\ non_space r0 = true.
Proof.
  intros [scheme [rest [-> [Hs [Hne Hr]]]]].
  destruct rest as [|r0 rest]; [ congruence | ].
  simpl in Hr. apply andb_true_iff in Hr. destruct Hr as [Hr _].
  exists (scheme ++ js "://"), r0, rest.
  split; [ rewrite <- app_assoc; reflexivity | ].
  split; [ destruct Hs as [-> | ->]; auto | exact Hr ].
Qed.

Lemma head_url_shaped h run :
  h = js "http://" \/ h = js "https://" ->
  run <> [] -> forallb non_space run = true -> url_shaped (h ++ run).
Proof.
  intros Hh Hne Hr. destruct Hh as [-> | ->].
  - exists (js "http"), run. repeat split; auto.
  - exists (js "https"), run. repeat split; auto.
Qed.

End Substrings.

Section KeptText.

Variable shape : jsstring -> jsstring -> jsstring -> Prop.
(** The code units of the substring looked for. *)
Variable C : cu -> bool.
Variable body : jsstring.
Hypothesis C_open : C 91%N = false.
Hypothesis C_close : C 93%N = false.

(** The placeholders: a name between square brackets. *)
Let rep : jsstring := 91%N :: body ++ [93%N].

(** A prefix of the output made of code units of [C] is a prefix of the
    input, all of it kept, and the rest is redacted to the rest. *)
Lemma prefix_kept pre s out :
  redacts shape rep pre s out ->
  forall w rest, out = w ++ rest -> forallb C w = true ->
  exists rest', s = w ++ rest' /\ redacts shape rep (pre ++ w) rest' rest.
Proof.
  induction 1 as [pre | pre c s out Hk H IH | pre w0 post out Hne Hs H IH];
    intros w rest E F.
  - destruct w; [ | discriminate ]. destruct rest; [ | discriminate ].
    exists []. split; [ reflexivity | ]. rewrite app_nil_r. constructor.
  - destruct w as [|x w].
    + exists (c :: s). split; [ reflexivity | ].
      rewrite app_nil_r. simpl in E. rewrite <- E.
      apply redacts_keep; assumption.
    + simpl in E. injection E as <- E.
      simpl in F. apply andb_true_iff in F. destruct F as [_ F].
      destruct (IH w rest E F) as [rest' [-> R]]. exists rest'.
      split; [ reflexivity | ].
      rewrite <- app_assoc in R. exact R.
  - destruct w as [|x w].
    + exists (w0 ++ post). split; [ reflexivity | ].
      rewrite app_nil_r. change ([] ++ rest) with rest in E. rewrite <- E.
      apply redacts_hit; assumption.
    + unfold rep in E. simpl in E. injection E as <- _.
      simpl in F. rewrite C_open in F. discriminate F.
Qed.

(** A substring [w] of the output that is made of code units of [C] and
    does not fit in a placeholder stood in the input, at a place where no
    occurrence of [shape] starts; what follows it in the input is
    redacted to what follows it in the output, and what stands before it
    is the start on both sides, or the same code unit, or a placeholder
    in the output for an occurrence in the input. *)
Lemma kept_occurrence pre s out :
  redacts shape rep pre s out ->
  forall po w qo,
    out = po ++ w ++ qo -> forallb C w = true ->
    ~ occurs w (91%N :: body) ->
    exists ps qs,
      s = ps ++ w ++ qs
      /\ (forall w' post', w ++ qs = w' ++ post' -> ~ shape (pre ++ ps) w' post')
      /\ redacts shape rep (pre ++ ps ++ w) qs qo
      /\ ((po = [] /\ ps = [])
          \/ (exists c po' ps', po = po' ++ [c] /\ ps = ps' ++ [c])
          \/ (exists po' ps' w0,
                po = po' ++ rep /\ ps = ps' ++ w0 /\ w0 <> []
                /\ shape (pre ++ ps') w0 (w ++ qs))).
Proof.
  induction 1 as [pre | pre c s out Hk H IH | pre w0 post out Hne Hs H IH];
    intros po w qo E F A.
  - destruct po; [ | discriminate ]. destruct w; [ | discriminate ].
    elim A. exists [], (91%N :: body). reflexivity.
  - destruct po as [|x po].
    + simpl in E.
      destruct (prefix_kept (@redacts_keep shape rep pre c s out Hk H) _ _ E F)
        as [rest' [E' R]].
      exists [], rest'. split; [ exact E' | ].
      split; [ | split; [ exact R | left; auto ] ].
      rewrite app_nil_r. intros w' post' E2. apply Hk. rewrite E'. exact E2.
    + simpl in E. injection E as <- E.
      destruct (IH po w qo E F A) as [ps [qs [-> [K [R L]]]]].
      exists (c :: ps), qs. split; [ reflexivity | ]. split; [ | split ].
      * intros w' post' E2. specialize (K w' post' E2).
        rewrite <- app_assoc in K. exact K.
      * rewrite <- app_assoc in R. exact R.
      * right.
        destruct L as [[-> ->] | [[d [po' [ps' [-> ->]]]]
                                 | [po' [ps' [w1 [-> [-> [Hw1 Hsh]]]]]]]].
        -- left. exists c, [], []. auto.
        -- left. exists d, (c :: po'), (c :: ps'). auto.
        -- right. exists (c :: po'), (c :: ps'), w1.
           rewrite <- app_assoc in Hsh. auto.
  - assert (E' : po ++ w ++ qo = (91%N :: body) ++ 93%N :: out).
    { rewrite <- E. unfold rep. simpl. rewrite <- app_assoc. reflexivity. }
    apply occurs_avoiding in E';
      [ | apply (forallb_not_in C); [ exact F | exact C_close ] ].
    destruct E' as [[q O] | [p [Ep O]]].
    + elim A. exists po, q. exact O.
    + assert (Ep' : po = rep ++ p).
      { rewrite Ep. unfold rep. simpl. rewrite <- app_assoc. reflexivity. }
      destruct (IH p w qo O F A) as [ps [qs [Epost [K [R L]]]]].
      exists (w0 ++ ps), qs.
      split; [ rewrite Epost, <- app_assoc; reflexivity | ].
      split; [ | split ].
      * intros w' post' E2. specialize (K w' post' E2).
        rewrite <- app_assoc in K. exact K.
      * rewrite <- app_assoc in R. rewrite <- app_assoc. exact R.
      * right.
        destruct L as [[-> ->] | [[d [po' [ps' [-> ->]]]]
                                 | [po' [ps' [w1 [-> [-> [Hw1 Hsh]]]]]]]].
        -- right. exists [], [], w0. rewrite Ep', !app_nil_r.
           simpl in Epost. rewrite <- Epost. auto.
        -- left. exists d, (rep ++ po'), (w0 ++ ps').
           rewrite Ep', !app_assoc. auto.
        -- right. exists (rep ++ po'), (w0 ++ ps'), w1.
           rewrite Ep', !app_assoc. auto.
Qed.

(** When the output goes on with a code unit that is no white space, so
    does the input, provided the occurrences of [shape] start with
    none. *)
Lemma next_non_space pre s c out :
  redacts shape rep pre s (c :: out) ->
  non_space c = true ->
  (forall pre' w post, shape pre' w post ->
                       match w with [] => True | d :: _ => non_space d = true end) ->
  exists d s', s = d :: s' /\ non_space d = true.
Proof.
  intros R Hc Hs.
  inversion R as [ | pre' c' s' out' Hk' R' | pre' w1 post1 out1 Hne1 Hs1 R1];
    subst.
  - exists c, s'. auto.
  - specialize (Hs _ _ _ Hs1). destruct w1 as [|d w1]; [ congruence | ].
    exists d, (w1 ++ post1). auto.
Qed.

End KeptText.

Section NoAddress.

Lemma in_bracketed (c : cu) (w body : jsstring) :
  In c w -> existsb (N.eqb c) (91%N :: body) = false ->
  ~ occurs w (91%N :: body).
Proof.
  intros A E O. apply (not_existsb_in _ _ E). exact (occurs_in c O A).
Qed.

(** A redaction of something else does not bring an address about. *)
Lemma redaction_keeps_email_free shape body s out :
  existsb (N.eqb 64) (91%N :: body) = false ->
  redacts shape (91%N :: body ++ [93%N]) [] s out ->
  (forall w, occurs w s -> ~ email_shaped w) ->
  forall w, occurs w out -> ~ email_shaped w.
Proof.
  intros Hb R Hs w [po [qo E]] Hw.
  destruct (email_shaped_cu Hw) as [F A].
  destruct (@kept_occurrence shape email_cu body eq_refl eq_refl [] s out R
              po w qo E F (in_bracketed _ A Hb)) as [ps [qs [E' _]]].
  apply (Hs w); [ exists ps, qs; exact E' | exact Hw ].
Qed.

Lemma email_redaction_free s w :
  occurs w (replace_all re_email (js "[email]") s) -> ~ email_shaped w.
Proof.
  intros [po [qo E]] Hw.
  destruct (email_shaped_cu Hw) as [F A].
  destruct (@kept_occurrence email_occurrence email_cu (js "email")
              eq_refl eq_refl [] s _ (email_step s) po w qo E F
              (@in_bracketed 64%N w (js "email") A eq_refl))
    as [ps [qs [E' [K _]]]].
  apply (K w qs eq_refl). exact Hw.
Qed.

Lemma sanitized_email_free (s w : jsstring) :
  occurs w (sanitizeForModel s) -> ~ email_shaped w.
Proof.
  unfold sanitizeForModel. revert w.
  apply (@redaction_keeps_email_free id_occurrence (js "id") _ _ eq_refl
           (id_step _)).
  apply (@redaction_keeps_email_free url_occurrence (js "url") _ _ eq_refl
           (url_step _)).
  apply (@redaction_keeps_email_free phone_occurrence (js "phone") _ _ eq_refl
           (phone_step _)).
  intros w. apply email_redaction_free.
Qed.

(** X9. Nothing in the sanitized text has the shape of an e-mail address:
    every address of the input is replaced, and no replacement of a phone
    number, a URL or a long token puts one together. The e-mail pattern
    finds no match in the sanitized text. *)
Theorem sanitizeForModel_no_email (s : jsstring) :
  (forall w, occurs w (sanitizeForModel s) -> ~ email_shaped w)
  /\ test re_email (sanitizeForModel s) = false.
Proof.
  split; [ intros w; apply sanitized_email_free | ].
  apply no_match_test. intros pre w post E M.
  apply matches_re_email in M.
  apply (@sanitized_email_free s w); [ | exact M ].
  exists pre, post. exact E.
Qed.

Lemma prompt_parts text q :
  exists a b,
    prompt (request_of text q) = a ++ 34%N :: text ++ 34%N :: b
    /\ existsb (N.eqb 64) a = false /\ existsb (N.eqb 64) b = false
    /\ existsb (N.eqb 58) b = true.
Proof.
  exists (js "You categorize 1 task into an Eisenhower quadrant. Return ONLY JSON {"
          ++ quoted (js "quadrant") ++ js ":" ++ quoted (js "...") ++ js ","
          ++ quoted (js "reasoning") ++ js ":" ++ quoted (js "...")
          ++ js "}. Definitions: do=urgent & important; schedule=not urgent & important; delegate=urgent & not important; eliminate=neither. Task: "),
         (js " Heuristic: " ++ quoted (label q)).
  split; [ | split; [ | split ] ].
  - unfold request_of, prompt, quoted.
    repeat (cbn [app]; rewrite <- ?app_assoc). reflexivity.
  - vm_compute. reflexivity.
  - destruct q; vm_compute; reflexivity.
  - destruct q; vm_compute; reflexivity.
Qed.

(** X10. The prompt sent to the service for a sanitized text holds
    nothing of the shape of an e-mail address, neither in the task text
    nor across its borders with the fixed wording. *)
Theorem prompt_no_email (text : jsstring) (q : Quadrant) (w : jsstring) :
  occurs w (prompt (request_of (sanitizeForModel text) q)) ->
  ~ email_shaped w.
Proof.
  intros [po [qo E]] Hw.
  destruct (email_shaped_cu Hw) as [F A].
  destruct (prompt_parts (sanitizeForModel text) q) as [a [b [P [Ha [Hb _]]]]].
  rewrite P in E. symmetry in E.
  assert (Q : ~ In 34%N w).
  { apply (forallb_not_in email_cu); [ exact F | reflexivity ]. }
  apply occurs_avoiding in E; [ | exact Q ].
  destruct E as [[q' O] | [p [_ O]]].
  - apply (not_existsb_in _ _ Ha). apply (@occurs_in 64%N w); [ | exact A ].
    exists po, q'. exact O.
  - symmetry in O. apply occurs_avoiding in O; [ | exact Q ].
    destruct O as [[q' O] | [p' [_ O]]].
    + apply (@sanitized_email_free text w); [ | exact Hw ].
      exists p, q'. exact O.
    + apply (not_existsb_in _ _ Hb). apply (@occurs_in 64%N w); [ | exact A ].
      exists p', qo. exact O.
Qed.

End NoAddress.

Lemma sanitizeForModel_no_email_witness :
  occurs (js "[email]") (sanitizeForModel (js "ADMIN123@EXAMPLE.COM"))
  /\ ~ email_shaped (js "[email]").
Proof.
  assert (O : occurs (js "[email]") (sanitizeForModel (js "ADMIN123@EXAMPLE.COM"))).
  { exists [], []. reflexivity. }
  split; [ exact O | ].
  exact (proj1 (sanitizeForModel_no_email (js "ADMIN123@EXAMPLE.COM")) _ O).
Defined.

Lemma prompt_no_email_witness :
  occurs (js "[email]")
         (prompt (request_of (sanitizeForModel (js "a@b.com")) Eliminate))
  /\ ~ email_shaped (js "[email]").
Proof.
  assert (O : occurs (js "[email]")
                (prompt (request_of (sanitizeForModel (js "a@b.com")) Eliminate))).
  { exists (firstn 234 (prompt (request_of (sanitizeForModel (js "a@b.com"))
                                            Eliminate))),
           (34%N :: js " Heuristic: " ++ quoted (js "eliminate")).
    vm_compute. reflexivity. }
  split; [ exact O | ].
  exact (@prompt_no_email (js "a@b.com") Eliminate _ O).
Defined.

Section NoUrl.

Lemma url_head_facts h :
  h = js "http://" \/ h = js "https://" ->
  forallb url_head_cu h = true /\ In 58%N h.
Proof.
  intros [-> | ->]; split; try reflexivity; simpl; auto 10.
Qed.

Lemma url_occurrence_head pre w post :
  url_occurrence pre w post ->
  match w with [] => True | d :: _ => non_space d = true end.
Proof.
  intros [[scheme [rest [-> [[-> | ->] _]]]] _]; reflexivity.
Qed.

Lemma id_occurrence_head pre w post :
  id_occurrence pre w post ->
  match w with [] => True | d :: _ => non_space d = true end.
Proof.
  intros [[_ F] _]. destruct w as [|d w]; [ exact I | ].
  simpl in F. apply andb_true_iff in F.
  apply is_id_char_non_space. tauto.
Qed.

(** In the output of a redaction whose occurrences start with no white
    space, "http://" followed by no white space stood in the input,
    followed by no white space, at a place where no occurrence starts. *)
Lemma url_head_kept shape body s out po h r0 rest :
  existsb (N.eqb 58) (91%N :: body) = false ->
  (forall pre' w post, shape pre' w post ->
                       match w with [] => True | d :: _ => non_space d = true end) ->
  redacts shape (91%N :: body ++ [93%N]) [] s out ->
  h = js "http://" \/ h = js "https://" ->
  non_space r0 = true ->
  out = po ++ h ++ r0 :: rest ->
  exists ps d qs,
    s = ps ++ h ++ d :: qs /\ non_space d = true
    /\ forall w' post', h ++ d :: qs = w' ++ post' -> ~ shape ps w' post'.
Proof.
  intros Hb Hhead R Hh Hr E.
  destruct (url_head_facts Hh) as [F A].
  destruct (@kept_occurrence shape url_head_cu body eq_refl eq_refl [] s out R
              po h (r0 :: rest) E F (in_bracketed _ A Hb))
    as [ps [qs [E' [K [R' _]]]]].
  destruct (@next_non_space shape body _ _ _ _ R' Hr Hhead) as [d [s' [-> Hd]]].
  exists ps, d, s'. split; [ exact E' | ]. split; [ exact Hd | exact K ].
Qed.

Lemma url_redaction_free s w :
  occurs w (replace_all re_url (js "[url]") s) -> ~ url_shaped w.
Proof.
  intros [po [qo E]] Hw.
  destruct (url_shaped_head Hw) as [h [r0 [rest [-> [Hh Hr]]]]].
  rewrite <- app_assoc in E. simpl in E.
  destruct (@url_head_kept url_occurrence (js "url") s _ po h r0 (rest ++ qo)
              eq_refl url_occurrence_head (url_step s) Hh Hr E)
    as [ps [d [qs [_ [Hd K]]]]].
  destruct (span non_space (d :: qs)) as [run [rest2 [Er [Hrun Hend]]]].
  destruct run as [|d' run].
  - simpl in Er. subst rest2. simpl in Hend. congruence.
  - apply (K (h ++ d' :: run) rest2).
    + rewrite Er, <- app_assoc. reflexivity.
    + split; [ | exact Hend ].
      apply head_url_shaped; [ exact Hh | discriminate | exact Hrun ].
Qed.

Lemma id_redaction_keeps_url_free s :
  (forall w, occurs w s -> ~ url_shaped w) ->
  forall w, occurs w (replace_all re_id (js "[id]") s) -> ~ url_shaped w.
Proof.
  intros Hs w [po [qo E]] Hw.
  destruct (url_shaped_head Hw) as [h [r0 [rest [-> [Hh Hr]]]]].
  rewrite <- app_assoc in E. simpl in E.
  destruct (@url_head_kept id_occurrence (js "id") s _ po h r0 (rest ++ qo)
              eq_refl id_occurrence_head (id_step s) Hh Hr E)
    as [ps [d [qs [Es [Hd _]]]]].
  apply (Hs (h ++ [d])).
  - exists ps, qs. rewrite Es, <- app_assoc. reflexivity.
  - apply head_url_shaped; [ exact Hh | discriminate | ].
    simpl. rewrite Hd. reflexivity.
Qed.

Lemma sanitized_url_free (s w : jsstring) :
  occurs w (sanitizeForModel s) -> ~ url_shaped w.
Proof.
  unfold sanitizeForModel. revert w.
  apply id_redaction_keeps_url_free.
  intros w. apply url_redaction_free.
Qed.

(** X11. Nothing in the sanitized text has the shape of a URL: the URL
    step replaces every "http://" and "https://" that is followed by
    something other than white space, and the long-token step cannot put
    one back. The URL pattern finds no match in the sanitized text. *)
Theorem sanitizeForModel_no_url (s : jsstring) :
  (forall w, occurs w (sanitizeForModel s) -> ~ url_shaped w)
  /\ test re_url (sanitizeForModel s) = false.
Proof.
  split; [ intros w; apply sanitized_url_free | ].
  apply no_match_test. intros pre w post E M.
  apply matches_re_url in M.
  apply (@sanitized_url_free s w); [ | exact M ].
  exists pre, post. exact E.
Qed.

End NoUrl.

Lemma sanitizeForModel_no_url_witness :
  occurs (js "see [url]")
         (sanitizeForModel (js "see https://example.org/AB12CD34EF"))
  /\ ~ url_shaped (js "see [url]").
Proof.
  assert (O : occurs (js "see [url]")
                (sanitizeForModel (js "see https://example.org/AB12CD34EF"))).
  { exists [], []. reflexivity. }
  split; [ exact O | ].
  exact (proj1 (sanitizeForModel_no_url
                  (js "see https://example.org/AB12CD34EF")) _ O).
Defined.

Section NoLongToken.

Lemma is_id_char_word c : is_id_char c = true -> is_word c = true.
Proof.
  unfold is_id_char, is_word, is_alpha.
  destruct (is_upper c), (is_digit c); simpl; try discriminate;
    rewrite ?orb_true_r; reflexivity.
Qed.

(** A long token starts and ends with a word character. *)
Lemma id_shaped_ends w :
  id_shaped w ->
  (exists a w', w = a :: w' /\ is_word a = true)
  /\ forall prev, is_word_at (last_or prev w) = true.
Proof.
  intros [Hl F]. split.
  - destruct w as [|a w']; [ simpl in Hl; lia | ].
    exists a, w'. split; [ reflexivity | ].
    simpl in F. apply andb_true_iff in F. apply is_id_char_word. tauto.
  - intros prev. destruct (exists_last (l := w)) as [w' [z E]].
    { intros ->. simpl in Hl. lia. }
    rewrite E, last_or_snoc. simpl.
    rewrite E, forallb_app in F. apply andb_true_iff in F.
    destruct F as [_ F]. simpl in F. apply andb_true_iff in F.
    apply is_id_char_word. tauto.
Qed.

Lemma id_occurrence_ends pre w post :
  id_occurrence pre w post ->
  is_word_at (hd_error (w ++ post)) = true
  /\ (forall prev, is_word_at (last_or prev w) = true)
  /\ is_word_at (last_or None pre) = false
  /\ is_word_at (hd_error post) = false.
Proof.
  intros [Hw [Tl Tr]]. destruct (id_shaped_ends Hw) as [[a [w' [-> Ha]]] Hz].
  unfold word_boundary in Tl, Tr. rewrite last_or_app, Hz in Tr.
  simpl in Tl. rewrite Ha in Tl.
  split; [ exact Ha | ]. split; [ exact Hz | ].
  split.
  - destruct (is_word_at (last_or None pre)); congruence.
  - destruct (is_word_at (hd_error post)); congruence.
Qed.

Lemma id_not_in_placeholder w : id_shaped w -> ~ occurs w (js "[id").
Proof.
  intros [Hl F] [p [q E]].
  destruct w as [|a w']; [ simpl in Hl; lia | ].
  simpl in F. apply andb_true_iff in F. destruct F as [Fa _].
  assert (H : In a (js "[id")).
  { rewrite E. apply in_or_app. right. left. reflexivity. }
  simpl in H. destruct H as [<- | [<- | [<- | []]]]; discriminate Fa.
Qed.

(** After the long-token step no long token is left between word
    boundaries. *)
Lemma id_redaction_free s po w qo :
  replace_all re_id (js "[id]") s = po ++ w ++ qo ->
  id_shaped w -> ~ token po w qo.
Proof.
  intros E Hw [Tl Tr].
  destruct (id_shaped_ends Hw) as [[a [w' [Ew Ha]]] Hz].
  unfold word_boundary in Tl, Tr. rewrite last_or_app, Hz in Tr.
  assert (Ho : is_word_at (hd_error (w ++ qo)) = true).
  { rewrite Ew. exact Ha. }
  rewrite Ho in Tl.
  destruct (@kept_occurrence id_occurrence is_id_char (js "id") eq_refl eq_refl
              [] s _ (id_step s) po w qo E (proj2 Hw)
              (id_not_in_placeholder Hw))
    as [ps [qs [Es [K [R L]]]]].
  apply (K w qs eq_refl). split; [ exact Hw | ]. split.
  - unfold word_boundary.
    assert (Hs : is_word_at (hd_error (w ++ qs)) = true).
    { rewrite Ew. exact Ha. }
    rewrite Hs. simpl app.
    destruct L as [[_ ->] | [[c [po' [ps' [-> ->]]]]
                            | [po' [ps' [w0 [_ [-> [_ Hsh]]]]]]]].
    + discriminate.
    + rewrite last_or_snoc in Tl |- *. exact Tl.
    + apply id_occurrence_ends in Hsh. destruct Hsh as [_ [_ [_ Hsh]]].
      congruence.
  - unfold word_boundary. rewrite last_or_app, Hz.
    simpl app in R.
    inversion R as [ | pre' c s' out' Hk' R' | pre' w1 post1 out1 Hne1 Hs1 R1];
      subst.
    + discriminate.
    + exact Tr.
    + apply id_occurrence_ends in Hs1. destruct Hs1 as [H1 [_ [H2 _]]].
      rewrite last_or_app, Hz in H2. discriminate H2.
Qed.

Lemma sanitized_id_free (s po w qo : jsstring) :
  sanitizeForModel s = po ++ w ++ qo -> id_shaped w -> ~ token po w qo.
Proof. unfold sanitizeForModel. apply id_redaction_free. Qed.

Lemma sanitized_matches_no_id s : test re_id (sanitizeForModel s) = false.
Proof.
  apply no_match_test. intros pre w post E M.
  apply matches_re_id in M. destruct M as [B1 [Hw B2]].
  apply (sanitized_id_free _ E Hw). apply delimited_token. auto.
Qed.

(** X24. No long upper-case token is left in the sanitized text: eight
    or more upper-case letters and digits between word boundaries occur
    nowhere in it, and the long-token pattern finds no match in it. *)
Theorem sanitizeForModel_no_id (s : jsstring) :
  (forall po w qo, sanitizeForModel s = po ++ w ++ qo ->
                   id_shaped w -> ~ token po w qo)
  /\ test re_id (sanitizeForModel s) = false.
Proof.
  split; [ intros po w qo; apply sanitized_id_free | ].
  apply sanitized_matches_no_id.
Qed.

(** X25. Sanitizing a second time changes nothing, unless the first pass
    has left a phone number: when the phone pattern finds no match in the
    sanitized text, the sanitizer gives that text back. *)
Theorem sanitizeForModel_twice_without_phone (s : jsstring) :
  test re_phone (sanitizeForModel s) = false ->
  sanitizeForModel (sanitizeForModel s) = sanitizeForModel s.
Proof.
  intros Hp. set (o := sanitizeForModel s) in *.
  assert (He : test re_email o = false).
  { apply no_match_test. intros pre w post E M. apply matches_re_email in M.
    apply (@sanitized_email_free s w); [ exists pre, post; exact E | exact M ]. }
  assert (Hu : test re_url o = false).
  { apply no_match_test. intros pre w post E M. apply matches_re_url in M.
    apply (@sanitized_url_free s w); [ exists pre, post; exact E | exact M ]. }
  unfold sanitizeForModel at 1.
  rewrite (replace_all_no_match _ (js "[email]") _ He).
  rewrite (replace_all_no_match _ (js "[phone]") _ Hp).
  rewrite (replace_all_no_match _ (js "[url]") _ Hu).
  apply (replace_all_no_match _ (js "[id]") _ (sanitized_matches_no_id s)).
Qed.

End NoLongToken.

Lemma sanitizeForModel_twice_without_phone_witness :
  sanitizeForModel
    (sanitizeForModel (js "mail bob@example.org the key AB12CD34EF"))
  = sanitizeForModel (js "mail bob@example.org the key AB12CD34EF").
Proof.
  apply (@sanitizeForModel_twice_without_phone
           (js "mail bob@example.org the key AB12CD34EF")).
  reflexivity.
Defined.

(* ================================================================= *)
(** ** Further properties: the code fence around a reply *)

Section Fence.

Lemma any_cu_true c : any_cu c = true.
Proof. unfold any_cu. destruct (is_space c); reflexivity. Qed.

Lemma star_lazy_cons prev c t :
  star_m (m (Char any_cu)) false (S (length t)) (prev, c :: t) =
  (prev, c :: t) :: star_m (m (Char any_cu)) false (length t) (Some c, t).
Proof.
  simpl. rewrite any_cu_true. simpl. rewrite app_nil_r.
  assert (H : Nat.ltb (length t) (S (length t)) = true)
    by (apply Nat.ltb_lt; lia).
  rewrite H. reflexivity.
Qed.

Lemma m_star g a prev s :
  m (Star g a) (prev, s) = star_m (m a) g (length s) (prev, s).
Proof. reflexivity. Qed.

(** [[\s\S]*?\n] stops at the first line feed. *)
Lemma lazy_to_newline rest : forall lang prev,
  ~ In 10%N lang ->
  hd_error (m (Seq (Star false (Char any_cu)) (Seq (lit [10%N]) Empty))
              (prev, lang ++ 10%N :: rest))
  = Some (Some 10%N, rest).
Proof.
  induction lang as [|a lang IH]; intros prev Hn.
  - reflexivity.
  - rewrite m_seq, m_star.
    change (length ((a :: lang) ++ 10%N :: rest))
      with (S (length (lang ++ 10%N :: rest))).
    change ((a :: lang) ++ 10%N :: rest) with (a :: lang ++ 10%N :: rest).
    rewrite star_lazy_cons, flat_map_cons.
    assert (Ha : m (Seq (lit [10%N]) Empty) (prev, a :: lang ++ 10%N :: rest) = []).
    { rewrite m_seq, m_lit_mismatch; [ reflexivity | ].
      intros E. apply Hn. left. exact E. }
    rewrite Ha. cbn [app].
    specialize (IH (Some a)). rewrite m_seq, m_star in IH.
    apply IH. intros H. apply Hn. right. exact H.
Qed.

Lemma m_alt a b st : m (Alt a b) st = m a st ++ m b st.
Proof. reflexivity. Qed.

Lemma fence_opening lang rest :
  ~ In 10%N lang ->
  hd_error (m re_fence (None, js "```" ++ lang ++ 10%N :: rest))
  = Some (Some 10%N, rest).
Proof.
  intros Hn. unfold re_fence. rewrite m_alt. apply hd_app.
  unfold seqs.
  apply hd_seq with (x := (None, js "```" ++ lang ++ 10%N :: rest));
    [ reflexivity | ].
  apply hd_seq with (x := (Some 96%N, lang ++ 10%N :: rest)).
  - rewrite m_lit_app. reflexivity.
  - apply lazy_to_newline. exact Hn.
Qed.

(** Past the start of the input the pattern matches the closing fence at
    the end of the input and nothing else. *)
Lemma fence_inside x t : t <> js "```" -> m re_fence (Some x, t) = [].
Proof.
  intros Ht. destruct (m re_fence (Some x, t)) as [|st l] eqn:Hm;
    [ reflexivity | ].
  exfalso. destruct (@m_cons_match _ _ _ _ _ Hm) as [w [E [_ M]]].
  unfold re_fence in M. cbn [matches seqs] in M.
  destruct M as [M | M].
  - destruct M as [w1 [w2 [_ [[_ M] _]]]]. discriminate M.
  - destruct M as [w1 [w2 [Ew [M1 [w3 [w4 [E2 [[E3 E4] E5]]]]]]]].
    apply matches_lit in M1. apply Ht.
    rewrite E5 in E4. simpl in E4.
    rewrite E, E4, Ew, E2, E3, E5, M1. reflexivity.
Qed.

Lemma matches_fence_backtick prev w post :
  matches re_fence prev w post -> In 96%N w.
Proof.
  unfold re_fence. cbn [matches seqs]. intros [M | M].
  - destruct M as [w1 [w2 [-> [[-> _] [w3 [w4 [-> [M _]]]]]]]].
    apply matches_lit in M. subst. left. reflexivity.
  - destruct M as [w1 [w2 [-> [M _]]]].
    apply matches_lit in M. subst. left. reflexivity.
Qed.

Lemma last_or_some x p : exists y, last_or (Some x) p = Some y.
Proof. unfold last_or. destruct (rev p); eauto. Qed.

Lemma fence_removed lang body :
  ~ In 10%N lang ->
  replace_all re_fence [] (js "```" ++ lang ++ 10%N :: body ++ js "```") = body.
Proof.
  intros Hn. unfold replace_all.
  destruct (hd_error_cons _ (@fence_opening lang (body ++ js "```") Hn))
    as [l Hm].
  rewrite replace_from_eq, Hm.
  assert (Hlt : Nat.ltb (length (body ++ js "```"))
                        (length (js "```" ++ lang ++ 10%N :: body ++ js "```"))
                = true).
  { apply Nat.ltb_lt. rewrite !length_app. simpl. rewrite !length_app. lia. }
  rewrite Hlt. cbn [app].
  rewrite (@replace_from_skip re_fence [] body (Some 10%N) (js "```")
             (length lang + 7)%nat).
  - destruct (last_or_some 10%N body) as [y ->].
    replace (length lang + 7)%nat with (S (length lang + 6)) by lia.
    rewrite replace_from_eq.
    change (m re_fence (Some y, js "```")) with [(Some 96%N, @nil N)].
    cbn [length Nat.ltb Nat.leb app].
    rewrite replace_from_nil; [ apply app_nil_r | reflexivity ].
  - rewrite !length_app. simpl. rewrite !length_app. simpl. lia.
  - intros p1 c p2 E. destruct (last_or_some 10%N p1) as [y ->].
    apply fence_inside. intros H. apply (f_equal (@length _)) in H.
    rewrite length_app in H. simpl in H. lia.
Qed.

End Fence.

Section Payload.

Context {platform : Platform}.

Lemma payload_string s : String_ (or_else (Some (JStr s)) (JStr [])) = s.
Proof. destruct s; reflexivity. Qed.

(** X12. A reply wrapped in a code fence is unwrapped: when the text
    payload is three backticks, a language tag without a line feed, a line
    feed, a body and three backticks, what is parsed is the body,
    trimmed. *)
Theorem fence_unwrapped (lang body : jsstring) :
  ~ In 10%N lang ->
  raw_payload (Some (JStr (js "```" ++ lang ++ 10%N :: body ++ js "```")))
  = trim body.
Proof.
  intros Hn. unfold raw_payload.
  rewrite payload_string, fence_removed by exact Hn. reflexivity.
Qed.

(** X13. A text payload with no backtick in it is parsed as it is,
    trimmed. *)
Theorem plain_payload_trimmed (s : jsstring) :
  ~ In 96%N s -> raw_payload (Some (JStr s)) = trim s.
Proof.
  intros Hn. unfold raw_payload. rewrite payload_string.
  rewrite replace_all_no_match; [ reflexivity | ].
  apply no_match_test. intros pre w post E M.
  apply matches_fence_backtick in M. apply Hn. rewrite E.
  apply in_or_app. right. apply in_or_app. left. exact M.
Qed.

End Payload.

Lemma fence_unwrapped_witness :
  raw_payload (platform := canned_platform)
    (Some (JStr (js "```" ++ js "json" ++ 10%N :: (sample_reply ++ [10%N])
                 ++ js "```")))
  = sample_reply.
Proof.
  rewrite (@fence_unwrapped canned_platform (js "json") (sample_reply ++ [10%N])).
  - reflexivity.
  - simpl. intuition discriminate.
Defined.

Lemma plain_payload_trimmed_witness :
  raw_payload (platform := canned_platform) (Some (JStr (32%N :: sample_reply)))
  = sample_reply.
Proof.
  rewrite (@plain_payload_trimmed canned_platform (32%N :: sample_reply)).
  - reflexivity.
  - vm_compute. intuition discriminate.
Defined.

(* ================================================================= *)
(** ** Further properties: the badges on a card *)

Section Cards.

Lemma split_on_no_sep sep s : ~ In sep s -> Board.split_on sep s = [s].
Proof.
  induction s as [|c s IH]; intros H; [ reflexivity | ].
  simpl. destruct (N.eqb_spec c sep) as [E | E].
  - elim H. left. exact E.
  - rewrite IH; [ reflexivity | ]. intros H1. apply H. right. exact H1.
Qed.

Lemma split_on_app sep a b :
  ~ In sep a ->
  Board.split_on sep (a ++ sep :: b) = a :: Board.split_on sep b.
Proof.
  induction a as [|c a IH]; intros H.
  - simpl. rewrite N.eqb_refl. reflexivity.
  - simpl. destruct (N.eqb_spec c sep) as [E | E].
    + elim H. left. exact E.
    + rewrite IH; [ reflexivity | ]. intros H1. apply H. right. exact H1.
Qed.

Lemma split_on_pieces sep s :
  Forall (fun p => ~ In sep p) (Board.split_on sep s).
Proof.
  induction s as [|c s IH]; simpl.
  - constructor; [ intros [] | constructor ].
  - destruct (N.eqb_spec c sep) as [E | E].
    + constructor; [ intros [] | exact IH ].
    + destruct (Board.split_on sep s) as [|p ps].
      * constructor; [ | constructor ]. intros [H | []]. congruence.
      * inversion IH as [|? ? Hp Hps]; subst. constructor; [ | exact Hps ].
        intros [H | H]; [ congruence | exact (Hp H) ].
Qed.

Lemma split_join badges : forall b,
  Forall (fun p => ~ In 59%N p) (b :: badges) ->
  Board.split_on 59 (join (js "; ") (b :: badges)) = b :: map (cons 32%N) badges.
Proof.
  induction badges as [|b2 r IH]; intros b H.
  - apply split_on_no_sep. inversion H; assumption.
  - inversion H as [|? ? Hb Hr]; subst.
    change (join (js "; ") (b :: b2 :: r))
      with (b ++ js "; " ++ join (js "; ") (b2 :: r)).
    change (b ++ js "; " ++ join (js "; ") (b2 :: r))
      with (b ++ 59%N :: 32%N :: join (js "; ") (b2 :: r)).
    rewrite split_on_app by exact Hb.
    change (Board.split_on 59 (32%N :: join (js "; ") (b2 :: r)))
      with (match Board.split_on 59 (join (js "; ") (b2 :: r)) with
            | piece :: pieces => (32%N :: piece) :: pieces
            | [] => [[32%N]]
            end).
    rewrite IH by exact Hr. reflexivity.
Qed.

Lemma trim_space_cons c s : is_space c = true -> trim (c :: s) = trim s.
Proof. intros H. unfold trim. simpl. rewrite H. reflexivity. Qed.

Lemma drop_space_fixed s :
  match s with [] => True | c :: _ => is_space c = false end ->
  drop_space s = s.
Proof. destruct s as [|c s]; [ reflexivity | ]. simpl. intros ->. reflexivity. Qed.

Lemma drop_space_suffix s : exists sp, s = sp ++ drop_space s.
Proof.
  induction s as [|c s [sp IH]]; [ exists []; reflexivity | ].
  simpl. destruct (is_space c).
  - exists (c :: sp). simpl. rewrite <- IH. reflexivity.
  - exists []. reflexivity.
Qed.

Lemma drop_space_in c s : In c (drop_space s) -> In c s.
Proof.
  destruct (drop_space_suffix s) as [sp E]. intros H. rewrite E.
  apply in_or_app. right. exact H.
Qed.

Lemma trim_in c s : In c (trim s) -> In c s.
Proof.
  unfold trim. intros H. apply in_rev in H. apply drop_space_in in H.
  apply in_rev in H. apply drop_space_in in H. exact H.
Qed.

Lemma trim_trim s : trim (trim s) = trim s.
Proof.
  unfold trim.
  set (d := drop_space s). set (e := drop_space (rev d)).
  assert (He : drop_space e = e).
  { apply drop_space_fixed. apply drop_space_head. }
  assert (Hr : drop_space (rev e) = rev e).
  { apply drop_space_fixed.
    destruct (drop_space_suffix (rev d)) as [sp E]. fold e in E.
    assert (Ed : d = rev e ++ rev sp).
    { rewrite <- (rev_involutive d), E, rev_app_distr. reflexivity. }
    pose proof (drop_space_head s) as Hd. fold d in Hd.
    destruct (rev e) as [|x re]; [ exact I | ].
    rewrite Ed in Hd. exact Hd. }
  rewrite Hr, rev_involutive, He. reflexivity.
Qed.

Lemma in_firstn (A : Type) (x : A) : forall n l, In x (firstn n l) -> In x l.
Proof.
  induction n as [|n IH]; intros l H; [ elim H | ].
  destruct l as [|a l]; [ elim H | ].
  destruct H as [H | H]; [ left; exact H | right; apply IH; exact H ].
Qed.

Lemma badges_of_clean reasoning :
  Forall clean_badge (Board.badges_of reasoning).
Proof.
  apply Forall_forall. intros b H. unfold Board.badges_of in H.
  apply filter_In in H. destruct H as [H Hne].
  apply in_map_iff in H. destruct H as [p [<- Hp]].
  split; [ | split ].
  - intros E. rewrite E in Hne. discriminate Hne.
  - intros H. apply trim_in in H.
    pose proof (split_on_pieces 59 reasoning) as F.
    rewrite Forall_forall in F. exact (F p Hp H).
  - apply trim_trim.
Qed.

Lemma badges_of_join badges :
  Forall (fun b => ~ In 59%N b) badges ->
  Board.badges_of (join (js "; ") badges) = filter nonempty (map trim badges).
Proof.
  intros H. unfold Board.badges_of.
  destruct badges as [|b r]; [ reflexivity | ].
  rewrite split_join by exact H.
  simpl map. rewrite map_map. reflexivity.
Qed.

Lemma clean_badges_fixed badges :
  Forall clean_badge badges -> filter nonempty (map trim badges) = badges.
Proof.
  induction 1 as [|b r [Hne [_ Ht]] _ IH]; [ reflexivity | ].
  simpl. rewrite Ht, IH. destruct b; [ congruence | reflexivity ].
Qed.

(** X14. Whatever the reasoning of a task is, its card shows at most six
    badges, and each of them is not empty, has no ";" in it and has no
    white space at either end. *)
Theorem card_badges_clean (t : Board.Task) :
  Forall clean_badge (Board.card_badges t)
  /\ (length (Board.card_badges t) <= 6)%nat.
Proof.
  unfold Board.card_badges. split.
  - apply Forall_forall. intros b H. apply in_firstn in H.
    pose proof (badges_of_clean (reasoning (Board.computed t))) as F.
    rewrite Forall_forall in F. exact (F b H).
  - rewrite length_firstn. apply Nat.le_min_l.
Qed.

(** X15. The card reads back the badges the reasoning was built from:
    when no badge has a ";" and their join has at most 280 code units,
    the card shows the first six of the badges, trimmed, the empty ones
    left out; badges that are clean are shown as they are. *)
Theorem card_shows_badges (t : Board.Task) (badges : list jsstring) :
  reasoning (Board.computed t) = buildReasoning badges ->
  (length (join (js "; ") badges) <= 280)%nat ->
  Forall (fun b => ~ In 59%N b) badges ->
  Board.card_badges t = firstn 6 (filter nonempty (map trim badges))
  /\ (Forall clean_badge badges -> Board.card_badges t = firstn 6 badges).
Proof.
  intros Hr Hl Hs.
  assert (E : Board.card_badges t = firstn 6 (filter nonempty (map trim badges))).
  { unfold Board.card_badges. rewrite Hr. unfold buildReasoning. cbv zeta.
    apply Nat.ltb_ge in Hl. rewrite Hl. rewrite badges_of_join by exact Hs.
    reflexivity. }
  split; [ exact E | ].
  intros Hc. rewrite E, clean_badges_fixed by exact Hc. reflexivity.
Qed.

End Cards.

Lemma card_shows_badges_witness :
  Board.card_badges (card (js "1") 1 2 Eliminate (js "time; okr") (js "2025"))
  = [js "time"; js "okr"].
Proof.
  refine (proj1 (@card_shows_badges
                   (card (js "1") 1 2 Eliminate (js "time; okr") (js "2025"))
                   [js "time"; js "okr"] eq_refl _ _)).
  - simpl. lia.
  - repeat constructor; simpl; intuition discriminate.
Defined.

Section AddedCard.

Context {platform : Platform}.

Lemma typed_badges now text :
  computeBadges now (typed text) =
  badge_if (test re_time (toLowerCase text)) (js "time")
  ++ badge_if (test re_okr text) (js "okr")
  ++ badge_if (test re_low text) (js "low").
Proof.
  unfold computeBadges, typed. simpl.
  destruct (test re_time _), (test re_okr _), (test re_low _); reflexivity.
Qed.

(** X16. For an entry that is not blank and either setting of the
    opt-in: once [addTask] has its record, the entry is stored as typed,
    under the new identifier and with the new time stamp, in the table
    and in front of the list; with the opt-in off the card then shows
    exactly the badges computed for the entry, in their order. While the
    refinement it awaits is pending, which takes the opt-in, nothing is
    stored. *)
Theorem added_card_shows_badges now enableRefine net (uuid iso entry : jsstring)
    (st : Board.state) :
  forallb is_space entry = false ->
  (addTask now enableRefine net entry <> Never ->
   exists t,
     Board.tasks (Board.addTask now enableRefine net uuid iso entry st)
     = t :: Board.tasks st
     /\ Board.db (Board.addTask now enableRefine net uuid iso entry st) uuid
        = Some t
     /\ Board.id t = uuid /\ text (Board.input t) = entry
     /\ Board.createdAt t = iso
     /\ addTask now enableRefine net entry = Returns (Some (Board.computed t))
     /\ (enableRefine = false ->
         Board.card_badges t = computeBadges now (typed entry)))
  /\ (addTask now enableRefine net entry = Never ->
      Board.addTask now enableRefine net uuid iso entry st = st
      /\ enableRefine = true
      /\ refineWithOllama net (sanitizeForModel entry)
           (decideQuadrant (scoreUrgency now (typed entry))
                           (scoreImportance (typed entry))) 3000 = Never).
Proof.
  intros Hb. unfold Board.addTask.
  destruct (addTask now enableRefine net entry) as [[rec|]|e|] eqn:H.
  - split; [ intros _ | discriminate ].
    eexists. split; [ reflexivity | ].
    split.
    { cbn [Board.db]. unfold Board.put. cbn [Board.id].
      rewrite (proj2 (eqb_eq uuid uuid) eq_refl). reflexivity. }
    do 4 (split; [ reflexivity | ]).
    intros E. subst enableRefine.
    apply addTask_some in H.
    destruct H as [_ [_ [_ [_ [_ R]]]]]. specialize (R eq_refl).
    unfold Board.card_badges. cbn [Board.computed]. rewrite R, typed_badges.
    destruct (test re_time _), (test re_okr _), (test re_low _); reflexivity.
  - exfalso. assert (T : trim entry <> []).
    { intros T. apply trim_nil in T. congruence. }
    unfold addTask in H. destruct (trim entry); [ congruence | ].
    simpl in H. cbv zeta in H.
    destruct (enableRefine && isBorderline _ _ _)%bool;
      [ destruct (refineWithOllama _ _ _ _); simpl bind in H | ];
      discriminate H.
  - elim (addTask_no_throw _ _ _ _ H).
  - split; [ intros N0; elim N0; reflexivity | intros _ ].
    split; [ reflexivity | ]. exact (addTask_pending _ _ _ _ H).
Qed.

End AddedCard.

Lemma added_card_shows_badges_witness :
  exists t,
    Board.tasks (Board.addTask (platform := canned_platform) 0 true
                   (answering 40 (Returns fenced_reply) 5000)
                   (js "1") (js "2025") (js "goal review at 9:30")
                   {| Board.db := fun _ => None; Board.tasks := [] |}) = [t]
    /\ Board.id t = js "1"
    /\ text (Board.input t) = js "goal review at 9:30"
    /\ aiSuggestion (Board.computed t) = Some (JStr (js "do")).
Proof.
  destruct (proj1 (@added_card_shows_badges canned_platform 0 true
                     (answering 40 (Returns fenced_reply) 5000)
                     (js "1") (js "2025") (js "goal review at 9:30")
                     {| Board.db := fun _ => None; Board.tasks := [] |}
                     eq_refl))
    as [t [T [_ [I [E [_ [A _]]]]]]].
  - intros N0. vm_compute in N0. discriminate N0.
  - exists t. split; [ exact T | ]. split; [ exact I | ].
    split; [ exact E | ].
    set (c := Board.computed t) in *. clearbody c.
    vm_compute in A. injection A as A. rewrite <- A. reflexivity.
Defined.

(* ================================================================= *)
(** ** Further properties: the columns *)

Section Columns.

Variable lc : jsstring -> jsstring -> Z.

Lemma insert_by_perm (A : Type) (cmp : A -> A -> Z) x l :
  Permutation (Board.insert_by cmp x l) (x :: l).
Proof.
  induction l as [|y l IH]; simpl; [ reflexivity | ].
  destruct (0 <? cmp y x); [ reflexivity | ].
  transitivity (y :: x :: l); [ apply perm_skip; exact IH | apply perm_swap ].
Qed.

Lemma fold_insert_perm (A : Type) (cmp : A -> A -> Z) l : forall acc,
  Permutation (fold_left (fun acc x => Board.insert_by cmp x acc) l acc)
              (acc ++ l).
Proof.
  induction l as [|a l IH]; intros acc; simpl.
  - rewrite app_nil_r. reflexivity.
  - transitivity (Board.insert_by cmp a acc ++ l); [ apply IH | ].
    transitivity ((a :: acc) ++ l).
    + apply Permutation_app_tail. apply insert_by_perm.
    + simpl. apply Permutation_middle.
Qed.

Lemma sort_perm (A : Type) (cmp : A -> A -> Z) l :
  Permutation (Board.sort cmp l) l.
Proof. unfold Board.sort. apply (fold_insert_perm cmp l []). Qed.

Lemma filter_quadrants (l : list Board.Task) :
  Permutation
    (filter (fun t => is_quadrant (quadrant (Board.computed t)) Do) l
     ++ filter (fun t => is_quadrant (quadrant (Board.computed t)) Schedule) l
     ++ filter (fun t => is_quadrant (quadrant (Board.computed t)) Delegate) l
     ++ filter (fun t => is_quadrant (quadrant (Board.computed t)) Eliminate) l)
    l.
Proof.
  induction l as [|a l IH]; simpl; [ reflexivity | ].
  destruct (quadrant (Board.computed a)); simpl.
  - apply perm_skip. exact IH.
  - symmetry. apply Permutation_cons_app. symmetry. exact IH.
  - symmetry. rewrite app_assoc. apply Permutation_cons_app.
    rewrite <- app_assoc. symmetry. exact IH.
  - symmetry. rewrite !app_assoc. apply Permutation_cons_app.
    rewrite <- !app_assoc. symmetry. exact IH.
Qed.

Lemma columns_in l q t :
  In t (Board.columns lc l q) <->
  In t l /\ quadrant (Board.computed t) = q.
Proof.
  unfold Board.columns. split.
  - intros H. apply (Permutation_in _ (sort_perm _ _)) in H.
    apply filter_In in H. destruct H as [H1 H2].
    apply is_quadrant_eq in H2. auto.
  - intros [H1 H2].
    apply (Permutation_in _ (Permutation_sym (sort_perm _ _))).
    apply filter_In. split; [ exact H1 | apply is_quadrant_eq; exact H2 ].
Qed.

(** X17. The four columns share out the tasks of the list: together they
    hold each task as often as the list does, and a task stands in the
    column of its own quadrant and in no other. *)
Theorem columns_partition (l : list Board.Task) :
  Permutation (Board.columns lc l Do ++ Board.columns lc l Schedule
               ++ Board.columns lc l Delegate ++ Board.columns lc l Eliminate)
              l
  /\ forall q t, In t (Board.columns lc l q) <->
                 In t l /\ quadrant (Board.computed t) = q.
Proof.
  split; [ | intros q t; apply columns_in ].
  rewrite <- (filter_quadrants l) at 5. unfold Board.columns.
  repeat apply Permutation_app; apply sort_perm.
Qed.

(** The order of the time stamps is consistent: no two stamps are each
    after the other, and not being after is transitive. *)
Hypothesis lc_total : forall a b, 0 < lc a b -> lc b a <= 0.
Hypothesis lc_trans : forall a b c, lc a b <= 0 -> lc b c <= 0 -> lc a c <= 0.

Lemma by_priority_before a b : Board.by_priority lc a b <= 0 <-> before lc a b.
Proof.
  unfold Board.by_priority, before.
  destruct (Z.eqb_spec (importance (Board.computed b))
                       (importance (Board.computed a))) as [E | E];
    simpl negb; cbv iota; [ | lia ].
  destruct (Z.eqb_spec (urgency (Board.computed b))
                       (urgency (Board.computed a))) as [F | F];
    simpl negb; cbv iota; lia.
Qed.

Lemma before_total a b : 0 < Board.by_priority lc a b -> before lc b a.
Proof.
  unfold Board.by_priority, before.
  destruct (Z.eqb_spec (importance (Board.computed b))
                       (importance (Board.computed a))) as [E | E];
    simpl negb; cbv iota; [ | lia ].
  destruct (Z.eqb_spec (urgency (Board.computed b))
                       (urgency (Board.computed a))) as [F | F];
    simpl negb; cbv iota; [ | lia ].
  intros H. apply lc_total in H. lia.
Qed.

Lemma before_trans a b c : before lc a b -> before lc b c -> before lc a c.
Proof.
  unfold before. intros H1 H2.
  destruct H1 as [H1 | [E1 [H1 | [F1 H1]]]];
    destruct H2 as [H2 | [E2 [H2 | [F2 H2]]]]; try lia.
  right. split; [ lia | ]. right. split; [ lia | ].
  eapply lc_trans; eassumption.
Qed.

Lemma insert_sorted x l :
  StronglySorted (before lc) l ->
  StronglySorted (before lc) (Board.insert_by (Board.by_priority lc) x l).
Proof.
  induction 1 as [|y l Hs IH Hy]; simpl.
  - constructor; constructor.
  - destruct (0 <? Board.by_priority lc y x) eqn:E.
    + apply Z.ltb_lt in E. apply before_total in E.
      constructor; [ constructor; assumption | ].
      constructor; [ exact E | ].
      rewrite Forall_forall in Hy |- *. intros z Hz.
      exact (before_trans E (Hy z Hz)).
    + apply Z.ltb_ge in E. apply by_priority_before in E.
      constructor; [ exact IH | ].
      apply Forall_forall. intros z Hz.
      apply (Permutation_in _ (insert_by_perm (Board.by_priority lc) x l)) in Hz.
      destruct Hz as [<- | Hz]; [ exact E | ].
      rewrite Forall_forall in Hy. exact (Hy z Hz).
Qed.

Lemma fold_insert_sorted l : forall acc,
  StronglySorted (before lc) acc ->
  StronglySorted (before lc)
    (fold_left (fun acc x => Board.insert_by (Board.by_priority lc) x acc) l acc).
Proof.
  induction l as [|a l IH]; intros acc H; simpl; [ exact H | ].
  apply IH. apply insert_sorted. exact H.
Qed.

Lemma sorted_before_last acc a l :
  StronglySorted (before lc) (acc ++ a :: l) ->
  Forall (fun y => before lc y a) acc.
Proof.
  induction acc as [|y acc IH]; simpl; intros H; constructor;
    inversion H as [|? ? Hs Hy]; subst.
  - rewrite Forall_forall in Hy. apply Hy. apply in_or_app. right. left.
    reflexivity.
  - apply IH. exact Hs.
Qed.

Lemma insert_last x l :
  Forall (fun y => before lc y x) l ->
  Board.insert_by (Board.by_priority lc) x l = l ++ [x].
Proof.
  induction 1 as [|y l Hy _ IH]; simpl; [ reflexivity | ].
  apply by_priority_before in Hy.
  destruct (0 <? Board.by_priority lc y x) eqn:E;
    [ apply Z.ltb_lt in E; lia | ].
  rewrite IH. reflexivity.
Qed.

Lemma fold_insert_fixed l : forall acc,
  StronglySorted (before lc) (acc ++ l) ->
  fold_left (fun acc x => Board.insert_by (Board.by_priority lc) x acc) l acc
  = acc ++ l.
Proof.
  induction l as [|a l IH]; intros acc H; simpl.
  - rewrite app_nil_r. reflexivity.
  - rewrite insert_last by exact (sorted_before_last _ _ _ H).
    rewrite IH; rewrite <- app_assoc; [ reflexivity | exact H ].
Qed.

(** X18. When the order of the creation times is consistent, each column
    is in order: of two tasks the one that stands first is the more
    important, or as important and more urgent, or equal in both and not
    created later. Tasks that are listed in that order already keep the
    order they are listed in. *)
Theorem columns_sorted (l : list Board.Task) (q : Quadrant) :
  StronglySorted (before lc) (Board.columns lc l q)
  /\ (StronglySorted (before lc)
        (filter (fun t => is_quadrant (quadrant (Board.computed t)) q) l) ->
      Board.columns lc l q
      = filter (fun t => is_quadrant (quadrant (Board.computed t)) q) l).
Proof.
  unfold Board.columns, Board.sort. split.
  - apply fold_insert_sorted. constructor.
  - intros H. apply (fold_insert_fixed _ []). exact H.
Qed.

End Columns.

Lemma columns_sorted_witness :
  StronglySorted (before by_length)
    (Board.columns by_length
       [card (js "a") 3 3 Do [] (js "2025-01-02");
        card (js "b") 0 1 Eliminate [] (js "2025-01-01");
        card (js "c") 4 5 Do [] (js "2025-01-03")] Do).
Proof.
  refine (proj1 (@columns_sorted by_length _ _ _ Do)).
  - unfold by_length. intros a b. lia.
  - unfold by_length. intros a b c. lia.
Defined.

(* ================================================================= *)
(** ** Further properties: moving, finishing and eliminating a task *)

Section Handlers.

Lemma eqb_false (a b : jsstring) : JsString.eqb a b = false <-> a <> b.
Proof.
  unfold JsString.eqb. destruct (list_eq_dec N.eq_dec a b); split;
    congruence.
Qed.

Lemma eqb_same (a : jsstring) : JsString.eqb a a = true.
Proof. apply eqb_eq. reflexivity. Qed.

Lemma eqb_swap (a b : jsstring) : JsString.eqb a b = JsString.eqb b a.
Proof.
  unfold JsString.eqb.
  destruct (list_eq_dec N.eq_dec a b), (list_eq_dec N.eq_dec b a);
    congruence.
Qed.

Lemma find_by_id_some l k t :
  Board.find_by_id l k = Some t -> In t l /\ Board.id t = k.
Proof.
  unfold Board.find_by_id. intros H. apply find_some in H.
  destruct H as [H1 H2]. apply eqb_eq in H2. auto.
Qed.

Lemma find_by_id_listed l k t :
  Board.find_by_id l k = Some t -> In k (map Board.id l).
Proof.
  intros H. apply find_by_id_some in H. destruct H as [H <-].
  apply in_map. exact H.
Qed.

Lemma replace_ids k u l :
  Board.id u = k ->
  map Board.id (Board.replace_by_id k u l) = map Board.id l.
Proof.
  intros Hu. unfold Board.replace_by_id. rewrite map_map.
  apply map_ext. intros x.
  destruct (JsString.eqb (Board.id x) k) eqn:E; [ | reflexivity ].
  apply eqb_eq in E. congruence.
Qed.

Lemma replace_find_same k u l :
  Board.id u = k -> In k (map Board.id l) ->
  Board.find_by_id (Board.replace_by_id k u l) k = Some u.
Proof.
  intros Hu. induction l as [|x l IH]; intros H; [ elim H | ].
  simpl. destruct (JsString.eqb (Board.id x) k) eqn:E.
  - rewrite Hu, eqb_same. reflexivity.
  - rewrite E. apply IH. destruct H as [H | H]; [ | exact H ].
    apply eqb_false in E. elim E. exact H.
Qed.

Lemma replace_find_other k u l k' :
  Board.id u = k -> k' <> k ->
  Board.find_by_id (Board.replace_by_id k u l) k' = Board.find_by_id l k'.
Proof.
  intros Hu Hk. induction l as [|x l IH]; [ reflexivity | ].
  simpl. destruct (JsString.eqb (Board.id x) k) eqn:E.
  - apply eqb_eq in E.
    assert (F : JsString.eqb k k' = false) by (apply eqb_false; congruence).
    rewrite Hu, E, F. exact IH.
  - destruct (JsString.eqb (Board.id x) k'); [ reflexivity | exact IH ].
Qed.

Lemma replace_in k u l x :
  Board.id u = k ->
  (In x (Board.replace_by_id k u l) <->
   (x = u /\ In k (map Board.id l)) \/ (In x l /\ Board.id x <> k)).
Proof.
  intros Hu. unfold Board.replace_by_id. rewrite in_map_iff. split.
  - intros [y [E Hy]].
    destruct (JsString.eqb (Board.id y) k) eqn:F.
    + left. split; [ congruence | ]. apply eqb_eq in F. rewrite <- F.
      apply in_map. exact Hy.
    + right. subst y. split; [ exact Hy | apply eqb_false; exact F ].
  - intros [[-> H] | [H1 H2]].
    + apply in_map_iff in H. destruct H as [y [E Hy]]. exists y.
      rewrite E, eqb_same. auto.
    + exists x. apply eqb_false in H2. rewrite H2. auto.
Qed.

Lemma replace_twice k u1 u2 l :
  Board.id u1 = k ->
  Board.replace_by_id k u2 (Board.replace_by_id k u1 l)
  = Board.replace_by_id k u2 l.
Proof.
  intros Hu. unfold Board.replace_by_id. rewrite map_map.
  apply map_ext. intros x.
  destruct (JsString.eqb (Board.id x) k) eqn:E; [ | rewrite E; reflexivity ].
  rewrite Hu, eqb_same. reflexivity.
Qed.

Lemma touches_only_refl k st : touches_only k st st.
Proof. unfold touches_only. auto. Qed.

Lemma stored_touches k u st : Board.id u = k -> touches_only k st (stored k u st).
Proof.
  intros Hu. unfold touches_only, stored. simpl.
  split; [ apply replace_ids; exact Hu | ]. split.
  - intros n x Hn Hx. unfold Board.replace_by_id.
    rewrite nth_error_map, Hn. simpl.
    apply eqb_false in Hx. rewrite Hx. reflexivity.
  - intros k' Hk. unfold Board.put. rewrite Hu.
    apply eqb_false in Hk. rewrite Hk. reflexivity.
Qed.

Lemma stored_synced k u st :
  Board.id u = k -> In k (map Board.id (Board.tasks st)) ->
  synced st -> synced (stored k u st).
Proof.
  intros Hu Hk [Hn Hd]. unfold synced, stored. simpl. split.
  - rewrite replace_ids by exact Hu. exact Hn.
  - intros k'. unfold Board.put. rewrite Hu.
    destruct (JsString.eqb k' k) eqn:E.
    + apply eqb_eq in E. subst k'. symmetry.
      apply replace_find_same; assumption.
    + apply eqb_false in E. rewrite replace_find_other by assumption.
      apply Hd.
Qed.

Lemma stored_twice k u1 u2 st :
  Board.id u1 = k -> Board.id u2 = k ->
  Board.tasks (stored k u2 (stored k u1 st)) = Board.tasks (stored k u2 st)
  /\ forall k', Board.db (stored k u2 (stored k u1 st)) k'
                = Board.db (stored k u2 st) k'.
Proof.
  intros H1 H2. unfold stored. simpl. split.
  - apply replace_twice. exact H1.
  - intros k'. unfold Board.put. rewrite H1, H2.
    destruct (JsString.eqb k' k); reflexivity.
Qed.

(** X19. A handler touches the task filed under the identifier it is
    given and nothing else: the list keeps its length, its order and its
    identifiers, every task under another identifier stays as it is, and
    so does every other entry of the table. With an identifier the
    snapshot does not know nothing changes at all. *)
Theorem handlers_touch_only (snapshot : list Board.Task) (k : jsstring)
    (q : Quadrant) (iso : jsstring) (st : Board.state) :
  touches_only k st (Board.setQuadrant snapshot k q st)
  /\ touches_only k st (Board.toggleDone snapshot k iso st)
  /\ touches_only k st (Board.eliminate snapshot k st)
  /\ (Board.find_by_id snapshot k = None ->
      Board.setQuadrant snapshot k q st = st
      /\ Board.toggleDone snapshot k iso st = st
      /\ Board.eliminate snapshot k st = st).
Proof.
  unfold Board.setQuadrant, Board.toggleDone, Board.eliminate.
  destruct (Board.find_by_id snapshot k) as [t|] eqn:F.
  - apply find_by_id_some in F. destruct F as [_ F].
    repeat split; try discriminate;
      apply (stored_touches (k := k)); exact F.
  - repeat split; apply touches_only_refl.
Qed.

(** X20. Two handlers of the same render that are given the same
    identifier both start from the task as the snapshot has it, so the
    second write replaces the first: a move after a toggle leaves the
    list and the table as the move alone does, and a toggle after a move
    as the toggle alone does. *)
Theorem second_write_wins (snapshot : list Board.Task) (k : jsstring)
    (q : Quadrant) (iso iso' : jsstring) (st : Board.state) :
  let moved := Board.setQuadrant snapshot k q in
  let toggled i := Board.toggleDone snapshot k i in
  (Board.tasks (moved (toggled iso st)) = Board.tasks (moved st)
   /\ forall k', Board.db (moved (toggled iso st)) k' = Board.db (moved st) k')
  /\ (Board.tasks (toggled iso' (moved st)) = Board.tasks (toggled iso' st)
      /\ forall k', Board.db (toggled iso' (moved st)) k'
                    = Board.db (toggled iso' st) k').
Proof.
  cbv zeta. unfold Board.setQuadrant, Board.toggleDone.
  destruct (Board.find_by_id snapshot k) as [t|] eqn:F.
  - apply find_by_id_some in F. destruct F as [_ F].
    split; apply (stored_twice (k := k)); exact F.
  - auto.
Qed.

(** X21. Ticking a task of the current list turns its done mark over and
    changes nothing else of it: a task that was not done gets the time of
    the tick, a task that was done loses its time; the list and the table
    then hold the same new task. Ticking twice gives back the mark. *)
Theorem toggleDone_flips (k iso iso2 : jsstring) (t : Board.Task)
    (st : Board.state) :
  Board.find_by_id (Board.tasks st) k = Some t ->
  iso <> [] -> iso2 <> [] ->
  let st1 := Board.toggleDone (Board.tasks st) k iso st in
  let t1 := Board.with_doneAt t (if Board.is_done t then None else Some iso) in
  Board.find_by_id (Board.tasks st1) k = Some t1
  /\ Board.db st1 k = Some t1
  /\ Board.is_done t1 = negb (Board.is_done t)
  /\ Board.with_doneAt t1 (Board.doneAt t) = t
  /\ exists t2,
       Board.find_by_id
         (Board.tasks (Board.toggleDone (Board.tasks st1) k iso2 st1)) k
       = Some t2
       /\ Board.is_done t2 = Board.is_done t.
Proof.
  intros F Hiso Hiso2. cbv zeta.
  pose proof (find_by_id_listed _ _ F) as Hk.
  pose proof (proj2 (find_by_id_some _ _ F)) as Hid.
  set (t1 := Board.with_doneAt t (if Board.is_done t then None else Some iso)).
  assert (F1 : Board.find_by_id
                 (Board.tasks (Board.toggleDone (Board.tasks st) k iso st)) k
               = Some t1).
  { unfold Board.toggleDone. rewrite F. simpl.
    apply replace_find_same; assumption. }
  split; [ exact F1 | ].
  split.
  { unfold Board.toggleDone. rewrite F. simpl. unfold Board.put. simpl.
    rewrite Hid, eqb_same. reflexivity. }
  assert (D : Board.is_done t1 = negb (Board.is_done t)).
  { unfold t1, Board.is_done at 1. simpl.
    destruct (Board.is_done t); [ reflexivity | ].
    destruct iso; [ congruence | reflexivity ]. }
  split; [ exact D | ].
  split; [ destruct t; reflexivity | ].
  eexists. split.
  - unfold Board.toggleDone at 1. rewrite F1. simpl.
    apply replace_find_same; [ exact Hid | ].
    unfold Board.toggleDone. rewrite F. simpl.
    rewrite replace_ids by exact Hid. exact Hk.
  - unfold Board.is_done at 1. simpl. rewrite D.
    destruct (Board.is_done t); simpl; [ | reflexivity ].
    destruct iso2; [ congruence | reflexivity ].
Qed.

End Handlers.

Section Moves.

Variable lc : jsstring -> jsstring -> Z.

(** X22. Moving a task of the current list puts it, with its scores as
    they were, in the column of the new quadrant and in no other, and
    leaves every task under another identifier in the column it was in;
    eliminating it is moving it to the last column. *)
Theorem setQuadrant_moves_card (k : jsstring) (q : Quadrant) (t : Board.Task)
    (st : Board.state) :
  Board.find_by_id (Board.tasks st) k = Some t ->
  let st' := Board.setQuadrant (Board.tasks st) k q st in
  let t' := Board.with_quadrant t q in
  (forall q', In t' (Board.columns lc (Board.tasks st') q') <-> q' = q)
  /\ urgency (Board.computed t') = urgency (Board.computed t)
  /\ importance (Board.computed t') = importance (Board.computed t)
  /\ (forall x q', Board.id x <> k ->
        (In x (Board.columns lc (Board.tasks st') q') <->
         In x (Board.columns lc (Board.tasks st) q')))
  /\ Board.eliminate (Board.tasks st) k st
     = Board.setQuadrant (Board.tasks st) k Eliminate st.
Proof.
  intros F. cbv zeta.
  pose proof (find_by_id_listed _ _ F) as Hk.
  pose proof (proj2 (find_by_id_some _ _ F)) as Hid.
  assert (Hid' : Board.id (Board.with_quadrant t q) = k) by exact Hid.
  unfold Board.setQuadrant, Board.eliminate. rewrite F. simpl.
  split; [ | split; [ reflexivity | split; [ reflexivity | split;
    [ | reflexivity ] ] ] ].
  - intros q'. rewrite columns_in, (@replace_in k _ _ _ Hid'). simpl. split.
    + intros [_ H]. auto.
    + intros ->. split; [ left; auto | reflexivity ].
  - intros x q' Hx. rewrite !columns_in, (@replace_in k _ _ _ Hid'). split.
    + intros [[[E _] | [H _]] Hq]; [ subst x; elim Hx; exact Hid' | auto ].
    + intros [H Hq]. auto.
Qed.

End Moves.

Section Sync.

Context {platform : Platform}.

(** X23. The list and the table stay in step: when the list holds each
    identifier once and the table holds exactly the tasks of the list,
    this is still so after an entry is added under an identifier that is
    not in use, and after any of the three handlers of a render whose
    snapshot has no identifier the list has not. *)
Theorem board_stays_synced (st : Board.state) :
  synced st ->
  (forall now enableRefine net uuid iso entry,
      ~ In uuid (map Board.id (Board.tasks st)) ->
      synced (Board.addTask now enableRefine net uuid iso entry st))
  /\ (forall snapshot k q iso,
        incl (map Board.id snapshot) (map Board.id (Board.tasks st)) ->
        synced (Board.setQuadrant snapshot k q st)
        /\ synced (Board.toggleDone snapshot k iso st)
        /\ synced (Board.eliminate snapshot k st)).
Proof.
  intros S. split.
  - intros now enableRefine net uuid iso entry Hu. unfold Board.addTask.
    destruct (addTask now enableRefine net entry) as [[rec|]| |];
      [ | exact S | exact S | exact S ].
    destruct S as [Hn Hd]. unfold synced. simpl. split.
    + constructor; assumption.
    + intros k'. unfold Board.put, Board.find_by_id. simpl.
      rewrite (eqb_swap uuid k').
      destruct (JsString.eqb k' uuid); [ reflexivity | apply Hd ].
  - intros snapshot k q iso Hs.
    unfold Board.setQuadrant, Board.toggleDone, Board.eliminate.
    destruct (Board.find_by_id snapshot k) as [t|] eqn:F; [ | auto ].
    pose proof (Hs _ (find_by_id_listed _ _ F)) as Hk.
    apply find_by_id_some in F. destruct F as [_ F].
    repeat split; apply (stored_synced (k := k)); assumption.
Qed.

End Sync.

Lemma toggleDone_flips_witness :
  Board.is_done (card (js "a") 3 3 Do [] (js "2025-01-02")) = false
  /\ Board.db
       (Board.toggleDone [card (js "a") 3 3 Do [] (js "2025-01-02")] (js "a")
          (js "2025-01-03")
          {| Board.db := fun _ => None;
             Board.tasks := [card (js "a") 3 3 Do [] (js "2025-01-02")] |})
       (js "a")
     = Some (Board.with_doneAt (card (js "a") 3 3 Do [] (js "2025-01-02"))
                               (Some (js "2025-01-03"))).
Proof.
  split; [ reflexivity | ].
  refine (proj1 (proj2 (@toggleDone_flips (js "a") (js "2025-01-03")
            (js "2025-01-04")
            (card (js "a") 3 3 Do [] (js "2025-01-02"))
            {| Board.db := fun _ => None;
               Board.tasks := [card (js "a") 3 3 Do [] (js "2025-01-02")] |}
            eq_refl _ _))); discriminate.
Defined.

Lemma setQuadrant_moves_card_witness :
  In (Board.with_quadrant (card (js "a") 3 3 Do [] (js "2025")) Schedule)
     (Board.columns by_length
        (Board.tasks
           (Board.setQuadrant [card (js "a") 3 3 Do [] (js "2025")] (js "a")
              Schedule
              {| Board.db := fun _ => None;
                 Board.tasks := [card (js "a") 3 3 Do [] (js "2025")] |}))
        Schedule).
Proof.
  apply (proj1 (@setQuadrant_moves_card by_length (js "a") Schedule
                  (card (js "a") 3 3 Do [] (js "2025"))
                  {| Board.db := fun _ => None;
                     Board.tasks := [card (js "a") 3 3 Do [] (js "2025")] |}
                  eq_refl)).
  reflexivity.
Defined.

Lemma board_stays_synced_witness :
  synced (Board.addTask (platform := ascii_platform) 0 false offline
            (js "1") (js "2025") (js "goal review at 9:30")
            {| Board.db := fun _ => None; Board.tasks := [] |}).
Proof.
  refine (proj1 (@board_stays_synced ascii_platform
                   {| Board.db := fun _ => None; Board.tasks := [] |} _)
            0 false offline (js "1") (js "2025") (js "goal review at 9:30") _).
  - split; [ constructor | reflexivity ].
  - intros [].
Defined.

(* ================================================================= *)
(** ** Further properties: the suggestion on a card *)

Section Suggestion.

Context {platform : Platform}.

Lemma label_truthy q : truthy (Some (JStr (label q))) = true.
Proof. destruct q; reflexivity. Qed.

Lemma refined_truthy net text heuristic timeoutMs r :
  refineWithOllama net text heuristic timeoutMs = Returns r ->
  truthy (Some (r_quadrant r)) = true.
Proof.
  assert (F : forall parsed,
             truthy (Some (r_quadrant (refined parsed heuristic))) = true).
  { intros parsed. unfold refined. cbn [r_quadrant].
    destruct (field parsed (js "quadrant")) as [v|]; [ | apply label_truthy ].
    destruct (is_falsy v) eqn:E; [ apply label_truthy | ].
    rewrite truthy_is_falsy, E. reflexivity. }
  unfold refineWithOllama. rewrite refine_try_stages. cbv zeta.
  assert (L : forall e : thrown,
             Returns {| r_quadrant := JStr (label heuristic);
                        r_reasoning := js "offline fallback" |} = Returns r ->
             truthy (Some (r_quadrant r)) = true).
  { intros _ E. injection E as <-. apply label_truthy. }
  destruct (settles_after _) as [ms|]; [ | apply (L AbortError) ].
  destruct (Z.of_N ms <? timer_delay timeoutMs); [ | apply (L AbortError) ].
  destruct (settles_to _) as [a|e|]; [ | apply (L e) | apply (L AbortError) ].
  destruct (ok a); [ | apply (L NotOk) ].
  destruct (json_body a) as [out|e|]; [ | apply (L e) | discriminate ].
  destruct out; try apply (L TypeError);
    (destruct (JSON_parse _) as [parsed|]; [ | apply (L SyntaxError) ];
     destruct parsed; try apply (L TypeError);
     intros E; injection E as <-; apply F).
Qed.

(** X26. The suggestion a refinement returns is cast to a quadrant, not
    checked to be one: it is any JSON value that is not falsy. On the card
    of an added task there is no mark without a suggestion; a suggestion
    that is a string, which is then not empty, shows as "AI:" and the
    string; [true] shows as "AI:" alone; an object, which is no valid
    child, makes the render throw. *)
Theorem refined_suggestion_shown now enableRefine net (entry : jsstring) rec
    (t : Board.Task) :
  addTask now enableRefine net entry = Returns (Some rec) ->
  Board.computed t = rec ->
  (aiSuggestion rec = None -> Board.card_suggestion t = Board.Shows [])
  /\ (forall v,
        aiSuggestion rec = Some v ->
        is_falsy v = false
        /\ (exists r,
              refineWithOllama net (sanitizeForModel entry) (quadrant rec) 3000
              = Returns r /\ v = r_quadrant r)
        /\ (forall s, v = JStr s ->
              s <> []
              /\ Board.card_suggestion t = Board.Shows (js "AI:" ++ s))
        /\ (v = JBool true ->
            Board.card_suggestion t = Board.Shows (js "AI:"))
        /\ (forall props, v = JObj props ->
              Board.card_suggestion t = Board.RenderError)).
Proof.
  intros H Ht. apply addTask_some in H.
  destruct H as [_ [_ [_ [_ [A _]]]]].
  unfold Board.card_suggestion. rewrite Ht.
  split; [ intros ->; reflexivity | ].
  intros v Hv. rewrite Hv.
  destruct (A v Hv) as [r [R ->]].
  pose proof (refined_truthy _ _ _ _ R) as T.
  split; [ rewrite truthy_is_falsy in T; destruct (is_falsy _);
           [ discriminate T | reflexivity ] | ].
  split; [ exists r; split; [ exact R | reflexivity ] | ].
  split; [ | split ].
  - intros s E. rewrite E in *. split.
    + intros ->. discriminate T.
    + cbn [Board.child_text]. rewrite T. reflexivity.
  - intros E. rewrite E. reflexivity.
  - intros props E. rewrite E. reflexivity.
Qed.

End Suggestion.

Lemma refined_suggestion_shown_witness :
  exists t,
    Board.tasks (Board.addTask (platform := canned_platform) 0 true
                   (answering 40 (Returns fenced_reply) 5000)
                   (js "1") (js "2025") (js "water the plants")
                   {| Board.db := fun _ => None; Board.tasks := [] |}) = [t]
    /\ Board.card_suggestion (platform := canned_platform) t
       = Board.Shows (js "AI:do").
Proof.
  eexists. split; [ reflexivity | ].
  match goal with |- Board.card_suggestion ?t = _ =>
    refine (proj2 (proj1 (proj2 (proj2 (proj2
             (@refined_suggestion_shown canned_platform 0 true
                (answering 40 (Returns fenced_reply) 5000)
                (js "water the plants") (Board.computed t) t
                eq_refl eq_refl) (JStr (js "do")) eq_refl)))
             (js "do") eq_refl))
  end.
Defined.

(** A reply whose quadrant is an object is stored as the suggestion, and
    the card of that task does not render. *)
Example object_suggestion_breaks_card :
  exists t,
    Board.tasks (Board.addTask (platform := nested_platform) 0 true
                   (answering 40
                      (Returns (JObj [(js "response", JStr nested_reply)])) 0)
                   (js "1") (js "2025") (js "water the plants")
                   {| Board.db := fun _ => None; Board.tasks := [] |}) = [t]
    /\ aiSuggestion (Board.computed t) = Some (JObj [])
    /\ Board.card_suggestion (platform := nested_platform) t
       = Board.RenderError.
Proof. eexists. repeat split. Qed.
